(** * MUS2MIDI: the DMX (DOOM) MUS to MIDI translator of [src/mus.c]

    A shallow embedding of [mus.c] and the properties of its translation.

    Conventions of the embedding.
    - A [uint8_t] cell is a [Z]; every read of a cell is reduced modulo 256.
      A [uint32_t] is a [Z] with the wrap-around modulo [2^32] written out
      ([u32]); [uint8_t] assignments are written out with [u8].
    - [int] is 32 bits and [long] is 64 bits (LP64).  Signed overflow,
      reads outside the source buffer, reads outside the [midimap] table and
      stores outside the allocated sink are undefined behaviour in C: the
      embedding stops with [Undef] there.
    - Pointers into a buffer are offsets from its start.
    - Loops that C writes with [while] take fuel; running out of it is the
      outcome [OutOfFuel], kept apart from every outcome of the program.
      More fuel never changes a run that ended ([mus2midi_fuel]), and with
      fuel above 65535 no run of [mus2midi] is cut short by the fuel
      ([mus2midi_fuel_enough]): it ends in a value or at undefined
      behaviour, where the C program may do anything, not returning
      included.
    - [malloc]/[realloc] are assumed to succeed; the bytes that [realloc]
      adds are zero in the model (the program never reads them before it
      writes them).  The debugging dump to [/tmp/test.mid] at the end of
      [mus2midi] writes a file and is left out. *)

From Stdlib Require Import ZArith List Lia Bool Ascii.
From stdpp Require Import base list.
Import ListNotations.

Local Open Scope Z_scope.

(** ** Outcomes *)

Inductive fault : Type :=
| OverRead (off : Z)          (* read outside [data .. data+size) *)
| TableOutOfBounds (idx : Z)  (* read of [midimap[idx]] with [idx >= 15] *)
| SinkOutOfBounds (off : Z)   (* store outside the allocated [dst] *)
| LocalOutOfBounds (idx : Z)  (* index outside a 16-entry local array *)
| SignedOverflow.             (* overflow of an [int] or a [long] *)

Inductive result (A : Type) : Type :=
| Ok (a : A)
| Undef (f : fault)
| OutOfFuel.

Arguments Ok {A} a.
Arguments Undef {A} f.
Arguments OutOfFuel {A}.

Definition bind {A B : Type} (r : result A) (k : A -> result B) : result B :=
  match r with
  | Ok a => k a
  | Undef f => Undef f
  | OutOfFuel => OutOfFuel
  end.

Notation "'do' x <- e ; k" := (bind e (fun x => k))
  (at level 10, x pattern, e at level 100, k at level 200).

(** ** Machine integers *)

Definition u8 (z : Z) : Z := z mod 256.
Definition u32 (z : Z) : Z := z mod 2 ^ 32.

Definition INT_MIN : Z := - 2 ^ 31.
Definition INT_MAX : Z := 2 ^ 31 - 1.
Definition LONG_MIN : Z := - 2 ^ 63.
Definition LONG_MAX : Z := 2 ^ 63 - 1.

(** The value of a signed expression: undefined when it leaves the type. *)
Definition as_int (z : Z) : result Z :=
  if (INT_MIN <=? z) && (z <=? INT_MAX) then Ok z else Undef SignedOverflow.

Definition as_long (z : Z) : result Z :=
  if (LONG_MIN <=? z) && (z <=? LONG_MAX) then Ok z else Undef SignedOverflow.

(** ** Constants of [mus.c] *)

Definition DST_CHUNK : Z := 8192.
Definition TEMPO : Z := 0x001aa309.
Definition MUSEVENT_KEYOFF : Z := 0.
Definition MUSEVENT_KEYON : Z := 1.
Definition MUSEVENT_PITCHWHEEL : Z := 2.
Definition MUSEVENT_CHANNELMODE : Z := 3.
Definition MUSEVENT_CONTROLLERCHANGE : Z := 4.
Definition MUSEVENT_END : Z := 6.
Definition MIDI_MAXCHANNELS : Z := 16.
Definition MIDIHEADERSIZE : Z := 14.

(** [sizeof(MUSheader)]: [char ID[4]] and six [uint16_t]. *)
Definition sizeof_MUSheader : Z := 16.
(** [sizeof(MidiTrackChunk)]: [char name[4]] and an [int32_t]. *)
Definition sizeof_MidiTrackChunk : Z := 8.
(** [sizeof(temp_buffer)]: [uint8_t temp_buffer[32]]. *)
Definition sizeof_temp_buffer : Z := 32.

Definition midimap : list Z :=
  [ 0      (* 0   program change *)
  ; 0      (* 1   bank selection *)
  ; 0x01   (* 2   modulation pot *)
  ; 0x07   (* 3   volume *)
  ; 0x0A   (* 4   pan pot *)
  ; 0x0B   (* 5   expression pot *)
  ; 0x5B   (* 6   reverb depth *)
  ; 0x5D   (* 7   chorus depth *)
  ; 0x40   (* 8   sustain pedal *)
  ; 0x43   (* 9   soft pedal *)
  ; 0x78   (* 10  all sounds off *)
  ; 0x7B   (* 11  all notes off *)
  ; 0x7E   (* 12  mono (use numchannels + 1) *)
  ; 0x7F   (* 13  poly *)
  ; 0x79   (* 14  reset all controllers *)
  ].

(** [sizeof(midimap) / sizeof(midimap[0])] *)
Definition midimap_size : Z := Z.of_nat (length midimap).

(** [midimap[idx]] for a [uint8_t] index. *)
Definition midimap_at (idx : Z) : result Z :=
  match midimap !! Z.to_nat idx with
  | Some v => Ok v
  | None => Undef (TableOutOfBounds idx)
  end.

(** ** The byte sink: [struct mus_ctx] and its writers *)

Record mus_ctx : Type := MusCtx {
  src_ptr : Z;        (* offset of [src_ptr] from [src] *)
  srcsize : Z;
  dst : list Z;       (* the allocated block [dst] points to *)
  dst_ptr : Z;        (* offset of [dst_ptr] from [dst] *)
  dstsize : Z;
  dstrem : Z
}.

Definition set_sink (ctx : mus_ctx) (d : list Z) (p sz rem : Z) : mus_ctx :=
  MusCtx (src_ptr ctx) (srcsize ctx) d p sz rem.

(** [realloc(block, n)]: the first [n] cells are kept, new cells are added. *)
Definition realloc (block : list Z) (n : Z) : list Z :=
  resize (Z.to_nat n) 0 block.

Definition resize_dst (ctx : mus_ctx) : mus_ctx :=
  let pos := u32 (dst_ptr ctx) in
  set_sink ctx
    (realloc (dst ctx) (u32 (dstsize ctx + DST_CHUNK)))
    pos
    (u32 (dstsize ctx + DST_CHUNK))
    (u32 (dstrem ctx + DST_CHUNK)).

(** [*ctx->dst_ptr++ = v] *)
Definition poke (ctx : mus_ctx) (v : Z) : result mus_ctx :=
  let p := dst_ptr ctx in
  if (0 <=? p) && (p <? Z.of_nat (length (dst ctx))) then
    Ok (set_sink ctx (<[Z.to_nat p := u8 v]> (dst ctx)) (p + 1)
          (dstsize ctx) (dstrem ctx))
  else Undef (SinkOutOfBounds p).

Definition grow_if (ctx : mus_ctx) (need : Z) : mus_ctx :=
  if dstrem ctx <? need then resize_dst ctx else ctx.

Definition set_dstrem (ctx : mus_ctx) (rem : Z) : mus_ctx :=
  set_sink ctx (dst ctx) (dst_ptr ctx) (dstsize ctx) rem.

Definition write1 (ctx : mus_ctx) (val : Z) : result mus_ctx :=
  let ctx := grow_if ctx 1 in
  do ctx <- poke ctx (Z.land val 0xff);
  Ok (set_dstrem ctx (u32 (dstrem ctx - 1))).

Definition write2 (ctx : mus_ctx) (val : Z) : result mus_ctx :=
  let ctx := grow_if ctx 2 in
  do ctx <- poke ctx (Z.land (Z.shiftr val 8) 0xff);
  do ctx <- poke ctx (Z.land val 0xff);
  Ok (set_dstrem ctx (u32 (dstrem ctx - 2))).

Definition write4 (ctx : mus_ctx) (val : Z) : result mus_ctx :=
  let ctx := grow_if ctx 4 in
  do ctx <- poke ctx (Z.land (Z.shiftr val 24) 0xff);
  do ctx <- poke ctx (Z.land (Z.shiftr val 16) 0xff);
  do ctx <- poke ctx (Z.land (Z.shiftr val 8) 0xff);
  do ctx <- poke ctx (Z.land val 0xff);
  Ok (set_dstrem ctx (u32 (dstrem ctx - 4))).

(** [while (ctx->dstsize < pos) resize_dst(ctx);] *)
Fixpoint grow_to (fuel : nat) (ctx : mus_ctx) (pos : Z) : result mus_ctx :=
  match fuel with
  | O => OutOfFuel
  | S fuel' =>
      if dstsize ctx <? pos then grow_to fuel' (resize_dst ctx) pos
      else Ok ctx
  end.

Definition seekdst (fuel : nat) (ctx : mus_ctx) (pos : Z) : result mus_ctx :=
  let ctx := set_sink ctx (dst ctx) pos (dstsize ctx) (dstrem ctx) in
  do ctx <- grow_to fuel ctx pos;
  Ok (set_dstrem ctx (u32 (dstsize ctx - pos))).

Definition skipdst (fuel : nat) (ctx : mus_ctx) (pos : Z) : result mus_ctx :=
  let ctx := set_sink ctx (dst ctx) (dst_ptr ctx + pos) (dstsize ctx) (dstrem ctx) in
  let newpos := dst_ptr ctx in
  do ctx <- grow_to fuel ctx newpos;
  Ok (set_dstrem ctx (u32 (dstsize ctx - newpos))).

Definition getdstpos (ctx : mus_ctx) : Z := u32 (dst_ptr ctx).

Definition mus_getmididata (ctx : mus_ctx) : list Z := dst ctx.

Definition mus_getmidisize (ctx : mus_ctx) : Z := u32 (dstsize ctx - dstrem ctx).

(** ** [WriteVarLen] *)

(** [while ((value >>= 7) > 0) { buffer <<= 8; buffer += 0x80;
    buffer += (value & 0x7f); }] *)
Fixpoint varlen_pack (fuel : nat) (value buffer : Z) : result Z :=
  match fuel with
  | O => OutOfFuel
  | S fuel' =>
      let value := Z.shiftr value 7 in
      if value >? 0 then
        do buffer <- as_long (Z.shiftl buffer 8);
        do buffer <- as_long (buffer + 0x80);
        do buffer <- as_long (buffer + Z.land value 0x7f);
        varlen_pack fuel' value buffer
      else Ok buffer
  end.

(** [while (1) { ++count; *out = (uint8_t)buffer; ++out;
    if (buffer & 0x80) buffer >>= 8; else break; }]
    The result is the bytes stored from [out] on and the final [count]. *)
Fixpoint varlen_emit (fuel : nat) (buffer count : Z) : result (list Z * Z) :=
  match fuel with
  | O => OutOfFuel
  | S fuel' =>
      let count := count + 1 in
      let byte := u8 buffer in
      if Z.land buffer 0x80 =? 0 then Ok ([byte], count)
      else
        do r <- varlen_emit fuel' (Z.shiftr buffer 8) count;
        Ok (byte :: fst r, snd r)
  end.

(** A [long] has 64 bits; the first loop drops 7 bits of [value] and the
    second 8 bits of [buffer] on every pass, so 64 passes are never used up
    (see [WriteVarLen_returns]). *)
Definition long_bits : nat := 64.

Definition WriteVarLen (value : Z) : result (list Z * Z) :=
  do buffer <- varlen_pack long_bits value (Z.land value 0x7f);
  varlen_emit long_bits buffer 0.

(** ** The translator: [mus2midi] *)

(** Diagnostics printed by the [printf] calls of the main loop. *)
Inductive anomaly : Type :=
| BadController (idx : Z)   (* controller index not below [midimap_size] *)
| EndNotAligned (off : Z).  (* End event with [cur != end] *)

(** The locals of [mus2midi] that live across iterations of the main loop. *)
Record locals : Type := Locals {
  ctx : mus_ctx;
  cur : Z;                   (* offset of [cur] from [data] *)
  delta_time : Z;
  channel_volume : list Z;
  channelMap : list Z;
  currentChannel : Z;
  printed : list anomaly
}.

(** What the [switch] of one iteration leaves in the locals it assigns. *)
Record decoded : Type := Decoded {
  d_status : Z;
  d_bit1 : Z;
  d_bit2 : Z;
  d_bitc : Z;
  d_cur : Z;
  d_volume : list Z;
  d_printed : list anomaly
}.

(** [a[i]] and [a[i] = v] on one of the 16-entry local arrays. *)
Definition local_at (a : list Z) (i : Z) : result Z :=
  if i <? 0 then Undef (LocalOutOfBounds i)
  else match a !! Z.to_nat i with
       | Some v => Ok v
       | None => Undef (LocalOutOfBounds i)
       end.

Definition local_set (a : list Z) (i v : Z) : result (list Z) :=
  if (0 <=? i) && (i <? Z.of_nat (length a)) then Ok (<[Z.to_nat i := v]> a)
  else Undef (LocalOutOfBounds i).

(** [memcpy(ctx->dst_ptr, temp_buffer, n); ctx->dst_ptr += n;] *)
Fixpoint poke_all (ctx : mus_ctx) (bytes : list Z) : result mus_ctx :=
  match bytes with
  | [] => Ok ctx
  | b :: bytes' => do ctx <- poke ctx b; poke_all ctx bytes'
  end.

Section Translator.

(** The source buffer [data] of [size = length data] cells. *)
Variable data : list Z.
(** [header.channels], and the offset of [end] from [data]. *)
Variable channels : Z.
Variable end_ : Z.
(** The indeterminate values the uninitialised locals [bit1] and [bit2]
    hold on entering the iteration whose event byte is at the given
    offset. *)
Variable uninit : Z -> Z * Z.

(** [*p] for [p = data + off]. *)
Definition peek (off : Z) : result Z :=
  if off <? 0 then Undef (OverRead off)
  else match data !! Z.to_nat off with
       | Some b => Ok (u8 b)
       | None => Undef (OverRead off)
       end.

(** The [do { ... } while] loop that reads a MUS delta time: each pass
    adds the low 7 bits of the cell at [cur] to [delta_time * 128] and
    advances [cur]; the loop goes on while bit 7 of the cell read is set.
    It runs on the cells from [cur] on.  The result is the new
    [delta_time] and the new [cur]. *)
Fixpoint read_delta (cells : list Z) (delta off : Z) : result (Z * Z) :=
  match cells with
  | [] => Undef (OverRead off)
  | b :: cells' =>
      do delta <- as_int (delta * 128);
      do delta <- as_int (delta + Z.land (u8 b) 127);
      if Z.land (u8 b) 128 =? 0 then Ok (delta, off + 1)
      else read_delta cells' delta (off + 1)
  end.

Definition check_controller (idx : Z) (p : list anomaly) : list anomaly :=
  if idx <? midimap_size then p else p ++ [BadController idx].

(** The [switch ((event & 122) >> 4)] of the main loop.  [m] is
    [channelMap[channel]] and [status] its value as a [uint8_t]. *)
Definition decode_event (event m : Z) (s : locals) (c : Z) : result decoded :=
  let status := u8 m in
  let bit1 := fst (uninit (c - 1)) in
  let bit2 := snd (uninit (c - 1)) in
  let vol := channel_volume s in
  let pr := printed s in
  let kind := Z.shiftr (Z.land event 122) 4 in
  if kind =? MUSEVENT_KEYOFF then
    do b <- peek c;
    Ok (Decoded (Z.lor status 0x80) b 0x40 2 (c + 1) vol pr)
  else if kind =? MUSEVENT_KEYON then
    do b <- peek c;
    let bit1 := Z.land b 127 in
    if Z.land b 128 =? 0 then
      do v <- local_at vol m;
      Ok (Decoded (Z.lor status 0x90) bit1 (u8 v) 2 (c + 1) vol pr)
    else
      do x <- peek (c + 1);
      do vol <- local_set vol m x;
      do v <- local_at vol m;
      Ok (Decoded (Z.lor status 0x90) bit1 (u8 v) 2 (c + 2) vol pr)
  else if kind =? MUSEVENT_PITCHWHEEL then
    do b <- peek c;
    Ok (Decoded (Z.lor status 0xE0)
          (Z.shiftr (Z.land b 1) 6) (Z.land (Z.shiftr b 1) 127)
          2 (c + 1) vol pr)
  else if kind =? MUSEVENT_CHANNELMODE then
    do b <- peek c;
    let pr := check_controller b pr in
    do bit1 <- midimap_at b;
    do x <- peek (c + 1);
    let bit2 := if x =? 12 then u8 (channels + 1) else 0x00 in
    Ok (Decoded (Z.lor status 0xB0) bit1 bit2 2 (c + 2) vol pr)
  else if kind =? MUSEVENT_CONTROLLERCHANGE then
    do b <- peek c;
    if b =? 0 then
      do x <- peek (c + 1);
      Ok (Decoded (Z.lor status 0xC0) x bit2 1 (c + 2) vol pr)
    else
      let pr := check_controller b pr in
      do bit1 <- midimap_at b;
      do x <- peek (c + 1);
      Ok (Decoded (Z.lor status 0xB0) bit1 x 2 (c + 2) vol pr)
  else if kind =? MUSEVENT_END then
    Ok (Decoded 0xff 0x2f 0x00 2 c vol
          (if c =? end_ then pr else pr ++ [EndNotAligned c]))
  else
    (* case 5, case 7 and default: nothing is assigned *)
    Ok (Decoded status bit1 bit2 2 c vol pr).

(** The block [if (out_local != temp_buffer) { ... }] at the end of an
    iteration: the copy of the [n = out_local - temp_buffer] bytes of
    [temp_buffer] to the sink. *)
Definition flush (c : mus_ctx) (temp : list Z) : result mus_ctx :=
  let n := Z.of_nat (length temp) in
  if n =? 0 then Ok c
  else
    let c := grow_if c (sizeof_temp_buffer * 32) in
    do c <- poke_all c temp;
    Ok (set_sink c (dst c) (dst_ptr c) (u32 (dstsize c + n)) (u32 (dstrem c - n))).

(** The block [if (channelMap[channel] < 0) { ... }] of the main loop:
    the bytes it adds to [temp_buffer], and the new [channelMap] and
    [currentChannel]. *)
Definition allocate (s : locals) (channel : Z) (temp : list Z)
  : result (list Z * list Z * Z) :=
  do m <- local_at (channelMap s) channel;
  if m <? 0 then
    do cm <- local_set (channelMap s) channel (currentChannel s);
    let cc := currentChannel s + 1 in
    Ok (temp ++ [u8 (0xB0 + currentChannel s); 0x07; 127; 0x00],
        cm, if cc =? 9 then cc + 1 else cc)
  else Ok (temp, channelMap s, currentChannel s).

(** The block [if (event & 128) { ... } else { ... }] that ends an
    iteration: the new [delta_time] and [cur]. *)
Definition next_delta (event c : Z) : result (Z * Z) :=
  if Z.land event 128 =? 0 then Ok (0, c)
  else read_delta (drop (Z.to_nat c) data) 0 c.

(** The bytes the end of an iteration adds to [temp_buffer]. *)
Definition event_bytes (d : decoded) : list Z :=
  [d_status d; d_bit1 d] ++ (if d_bitc d =? 2 then [d_bit2 d] else []).

(** One iteration of the main loop, entered with [cur < end]. *)
Definition loop_body (s : locals) : result locals :=
  do event <- peek (cur s);
  let c := cur s + 1 in
  let channel := Z.land event 15 in
  do vl <- WriteVarLen (delta_time s);
  let temp := take (Z.to_nat (snd vl)) (fst vl) in
  do al <- allocate s channel temp;
  let '(temp, cm, cc) := al in
  do m <- local_at cm channel;
  do d <- decode_event event m s c;
  let temp := temp ++ event_bytes d in
  do cx <- flush (ctx s) temp;
  do dt <- next_delta event (d_cur d);
  Ok (Locals cx (snd dt) (fst dt) (d_volume d) cm cc (d_printed d)).

(** [while (cur < end) { ... }] *)
Fixpoint main_loop (fuel : nat) (s : locals) : result locals :=
  match fuel with
  | O => OutOfFuel
  | S fuel' =>
      if cur s <? end_ then do s <- loop_body s; main_loop fuel' s
      else Ok s
  end.

End Translator.

(** [struct MUSheader], filled by [memcpy] from the first 16 cells of the
    source; the host is little-endian, as the MUS format is. *)
Record MUSheader : Type := MkMUSheader {
  ID : list Z;
  scoreLen : Z;
  scoreStart : Z;
  channels : Z;
  sec_channels : Z;
  instrCnt : Z;
  dummy : Z
}.

Definition le16 (lo hi : Z) : Z := u8 lo + 256 * u8 hi.

Definition read_header (data : list Z) : result MUSheader :=
  match data with
  | i0 :: i1 :: i2 :: i3 :: l0 :: l1 :: s0 :: s1 :: c0 :: c1
       :: x0 :: x1 :: n0 :: n1 :: d0 :: d1 :: _ =>
      Ok (MkMUSheader [u8 i0; u8 i1; u8 i2; u8 i3]
            (le16 l0 l1) (le16 s0 s1) (le16 c0 c1)
            (le16 x0 x1) (le16 n0 n1) (le16 d0 d1))
  | _ => Undef (OverRead (Z.of_nat (length data)))
  end.

(** A character constant. *)
Definition chr (c : ascii) : Z := Z.of_N (N_of_ascii c).

(** The fixed bytes written before the main loop: the MIDI header, the
    track header with its reserved length field, the tempo event and the
    full-volume event of the percussion channel.  The result also carries
    [begin_track_pos] and [track_size_pos]. *)
Definition write_prelude (fuel : nat) (ctx : mus_ctx) : result (mus_ctx * Z * Z) :=
  do ctx <- write1 ctx (chr "M");
  do ctx <- write1 ctx (chr "T");
  do ctx <- write1 ctx (chr "h");
  do ctx <- write1 ctx (chr "d");
  do ctx <- write4 ctx 6;
  do ctx <- write2 ctx 0;
  do ctx <- write2 ctx 1;
  do ctx <- write2 ctx 0x0059;
  let begin_track_pos := getdstpos ctx in
  do ctx <- write1 ctx (chr "M");
  do ctx <- write1 ctx (chr "T");
  do ctx <- write1 ctx (chr "r");
  do ctx <- write1 ctx (chr "k");
  let track_size_pos := getdstpos ctx in
  do ctx <- skipdst fuel ctx 4;
  do ctx <- write1 ctx 0x00;
  do ctx <- write1 ctx 0xff;
  do ctx <- write2 ctx 0x5103;
  do ctx <- write1 ctx (Z.land TEMPO 0x000000ff);
  do ctx <- write1 ctx (Z.shiftr (Z.land TEMPO 0x0000ff00) 8);
  do ctx <- write1 ctx (Z.shiftr (Z.land TEMPO 0x00ff0000) 16);
  do ctx <- write1 ctx 0x00;
  do ctx <- write1 ctx 0xB9;
  do ctx <- write1 ctx 0x07;
  do ctx <- write1 ctx 127;
  Ok (ctx, begin_track_pos, track_size_pos).

(** The locals on entry to the main loop. *)
Definition initial_channelMap : list Z :=
  <[15%nat := 9]> (replicate (Z.to_nat MIDI_MAXCHANNELS) (-1)).

Definition initial_channel_volume : list Z :=
  replicate (Z.to_nat MIDI_MAXCHANNELS) 0x40.

Definition initial_locals (header : MUSheader) (ctx : mus_ctx) : locals :=
  Locals ctx (scoreStart header) 0 initial_channel_volume initial_channelMap 0 [].

(** The patch of the track length and the correction of [dstsize] after
    the main loop. *)
Definition finish (fuel : nat) (ctx : mus_ctx) (begin_track_pos track_size_pos : Z)
  : result mus_ctx :=
  let current_pos := getdstpos ctx in
  do ctx <- seekdst fuel ctx track_size_pos;
  do ctx <- write4 ctx (u32 (current_pos - begin_track_pos - sizeof_MidiTrackChunk));
  do ctx <- seekdst fuel ctx current_pos;
  Ok (set_sink ctx (dst ctx) (dst_ptr ctx) (u32 (dst_ptr ctx)) (dstrem ctx)).

(** What [mus2midi] does once the header has passed its check. *)
Definition translate (fuel : nat) (uninit : Z -> Z * Z) (data : list Z)
  (header : MUSheader) (ctx0 : mus_ctx) : result mus_ctx :=
  do pre <- write_prelude fuel ctx0;
  let '(ctx1, begin_track_pos, track_size_pos) := pre in
  let end_ := scoreStart header + scoreLen header in
  do s <- main_loop data (channels header) end_ uninit fuel
            (initial_locals header ctx1);
  finish fuel (ctx s) begin_track_pos track_size_pos.

(** The context [mus2midi] allocates before it reads the header. *)
Definition fresh_ctx (size : Z) : mus_ctx :=
  MusCtx 0 size (replicate (Z.to_nat DST_CHUNK) 0) 0 DST_CHUNK DST_CHUNK.

(** [mus2midi(data, size)] with [size = length data].  [None] is the
    [NULL] return. *)
Definition mus2midi (fuel : nat) (uninit : Z -> Z * Z) (data : list Z)
  : result (option mus_ctx) :=
  let ctx0 := fresh_ctx (u32 (Z.of_nat (length data))) in
  do header <- read_header data;
  let ctx0 :=
    MusCtx (src_ptr ctx0 + sizeof_MUSheader) (srcsize ctx0)
      (dst ctx0) (dst_ptr ctx0) (dstsize ctx0) (dstrem ctx0) in
  if channels header >? MIDI_MAXCHANNELS - 1 then Ok None
  else
    do ctx <- translate fuel uninit data header ctx0;
    Ok (Some ctx).

(** The file the caller takes from a returned context: the cells of
    [mus_getmididata] below [n]. *)
Definition midi_bytes (ctx : mus_ctx) (n : Z) : list Z :=
  take (Z.to_nat n) (mus_getmididata ctx).

(** ** The standard MIDI variable-length quantity, from its description *)

(** The [k]-th 7-bit group of [v]; group 0 is the least significant. *)
Definition group7 (v : Z) (k : nat) : Z := (v / 128 ^ Z.of_nat k) mod 128.

(** The groups [n], [n-1], ..., [0] of [v], most significant first, with
    the continuation bit set on every byte except the last. *)
Fixpoint vlq_bytes (n : nat) (v : Z) : list Z :=
  match n with
  | O => [group7 v 0]
  | S n' => Z.lor 0x80 (group7 v n) :: vlq_bytes n' v
  end.

(** The index of the most significant group that is not zero (0 for 0). *)
Definition vlq_top (v : Z) : nat := Z.to_nat (Z.log2 v / 7).

Definition vlq_standard (v : Z) : list Z := vlq_bytes (vlq_top v) v.

(** Decoding: accumulate [value * 128 + (byte & 0x7F)] while the high bit
    of the byte is set.  The result is the value and the bytes left over. *)
Fixpoint vlq_decode (bytes : list Z) (value : Z) : option (Z * list Z) :=
  match bytes with
  | [] => None
  | b :: bytes' =>
      let value := value * 128 + Z.land b 0x7F in
      if Z.land b 0x80 =? 0 then Some (value, bytes')
      else vlq_decode bytes' value
  end.

(** ** Runs of the main loop *)

(** The locals at the head of the main loop, from [s0] on. *)
Inductive reachable (data : list Z) (channels end_ : Z) (uninit : Z -> Z * Z)
  (s0 : locals) : locals -> Prop :=
| reach_start : reachable data channels end_ uninit s0 s0
| reach_step (s s' : locals) :
    reachable data channels end_ uninit s0 s ->
    cur s < end_ ->
    loop_body data channels end_ uninit s = Ok s' ->
    reachable data channels end_ uninit s0 s'.

(** The melodic MUS channels are 0..14; MUS channel 15 is percussion. *)
Definition melodic (c : nat) : Prop := (c < 15)%nat.

(** What holds of the channel allocator at the head of the loop: entry 15
    is MIDI channel 9, no melodic entry is, every assigned melodic entry is
    below the counter, and the counter is never 9. *)
Definition allocator_ok (s : locals) : Prop :=
  length (channelMap s) = 16%nat /\
  channelMap s !! 15%nat = Some 9 /\
  0 <= currentChannel s /\ currentChannel s <> 9 /\
  forall (c : nat) (m : Z),
    melodic c -> channelMap s !! c = Some m ->
    m = -1 \/ (0 <= m < currentChannel s /\ m <> 9).

(** The counter after an assignment: one more, stepping over 9. *)
Definition skip9 (cc : Z) : Z := if cc + 1 =? 9 then cc + 1 + 1 else cc + 1.

(** What the iteration on an event of MUS channel [channel] does to the
    allocator.  When the entry of the channel is unassigned, this is its
    first use: the entry, and no other, takes the counter, and the counter
    moves on, stepping over 9.  When the entry is assigned, the map and the
    counter stay as they are. *)
Definition first_use_step (channel : Z) (s s' : locals) : Prop :=
  exists m,
    channelMap s !! Z.to_nat channel = Some m /\
    if m <? 0 then
      channelMap s' = <[Z.to_nat channel := currentChannel s]> (channelMap s) /\
      currentChannel s' = skip9 (currentChannel s)
    else
      channelMap s' = channelMap s /\ currentChannel s' = currentChannel s.

(** ** The layout of the output *)

(** The 33 bytes [write_prelude] leaves in the sink; the four cells of the
    track length are still zero. *)
Definition prelude_bytes : list Z :=
  [chr "M"; chr "T"; chr "h"; chr "d"; 0; 0; 0; 6; 0; 0; 0; 1; 0; 0x59;
   chr "M"; chr "T"; chr "r"; chr "k"; 0; 0; 0; 0;
   0x00; 0xff; 0x51; 0x03; 0x09; 0xa3; 0x1a;
   0x00; 0xB9; 0x07; 127].

(** The events [write_prelude] opens the track with: the tempo and the
    full volume of the percussion channel. *)
Definition track_opening : list Z := drop 22 prelude_bytes.

(** The offset just after the length field of the track header. *)
Definition trackDataStart : Z := MIDIHEADERSIZE + sizeof_MidiTrackChunk.

(** A big-endian 32-bit field. *)
Definition be32_bytes (v : Z) : list Z :=
  [(v / 2 ^ 24) mod 256; (v / 2 ^ 16) mod 256; (v / 2 ^ 8) mod 256; v mod 256].

Definition be32 (l : list Z) : Z :=
  fold_left (fun acc b => acc * 256 + b) l 0.

(** A MIDI file with the fixed header of [mus2midi] and one track. *)
Definition midi_file (track : list Z) : list Z :=
  take 18 prelude_bytes ++ be32_bytes (Z.of_nat (length track)) ++ track.

(** The most one iteration of the main loop adds to [dstsize]: a chunk and
    the bytes of [temp_buffer] in use. *)
Definition STEP : Z := DST_CHUNK + 16.

(** A bound on [dstsize]: a score has at most 65535 cells. *)
Definition LIMIT : Z := DST_CHUNK + STEP * 65535.

(** The sink at the head of the main loop, with [room] to grow. *)
Definition sink_ok (room : Z) (c : mus_ctx) : Prop :=
  33 <= dst_ptr c /\ dst_ptr c + 8159 <= dstsize c /\
  0 <= room /\ dstsize c + room <= LIMIT /\
  (33 <= length (dst c))%nat /\ take 33 (dst c) = prelude_bytes.

(** ** Sample inputs *)

(** A MUS buffer: the 16-cell header with the given [channels] and a score
    that starts right after it. *)
Definition mus_file (nchannels : Z) (score : list Z) : list Z :=
  [chr "M"; chr "U"; chr "S"; 0x1A;
   Z.of_nat (length score) mod 256; Z.of_nat (length score) / 256;
   16; 0; nchannels mod 256; nchannels / 256; 0; 0; 0; 0; 0; 0] ++ score.

(** One channel; KeyOn on MUS channel 0, note 60 with the volume bit and
    volume 100; then End. *)
Definition scenario : list Z := mus_file 1 [0x10; 0xBC; 0x64; 0x60].

Definition scenario_midi : list Z :=
  [chr "M"; chr "T"; chr "h"; chr "d"; 0; 0; 0; 6; 0; 0; 0; 1; 0; 0x59;
   chr "M"; chr "T"; chr "r"; chr "k"; 0; 0; 0; 23;
   0x00; 0xff; 0x51; 0x03; 0x09; 0xa3; 0x1a;
   0x00; 0xB9; 0x07; 127;
   0x00; 0xB0; 0x07; 127;
   0x00; 0x90; 0x3C; 0x64;
   0x00; 0xFF; 0x2F; 0x00].

(** One channel; ChannelMode on MUS channel 0 with controller 12 (mono);
    then End. *)
Definition mono_score : list Z := mus_file 1 [0x30; 12; 0x60].

(** One channel; an event of type 5 on MUS channel 0; then End. *)
Definition unknown_score : list Z := mus_file 1 [0x50; 0x60].

(** One channel; ControllerChange on MUS channel 0 with controller 15 and
    value 0; then End. *)
Definition controller15_score : list Z := mus_file 1 [0x40; 15; 0; 0x60].

(** Sixteen primary channels. *)
Definition sixteen_channels : list Z := mus_file 16 [0x60].

(** ** Devices of the proofs about [WriteVarLen] *)

(** The bytes above the lowest group, as the first loop of [WriteVarLen]
    meets them: [w] is the value already shifted right by 7. *)
Fixpoint hi_groups (n : nat) (w : Z) : list Z :=
  match n with
  | O => []
  | S n' =>
      if w >? 0 then hi_groups n' (w / 128) ++ [128 + w mod 128] else []
  end.

(** [buffer] unloads as the bytes [l] in the second loop of [WriteVarLen]. *)
Definition emits (buffer : Z) (l : list Z) : Prop :=
  0 <= buffer /\
  forall fuel count, (length l <= fuel)%nat ->
    varlen_emit fuel buffer count = Ok (l, count + Z.of_nat (length l)).

(** ** The sample inputs, read and translated *)

Definition sixteen_channels_header : MUSheader :=
  MkMUSheader [chr "M"; chr "U"; chr "S"; 0x1A] 1 16 16 0 0 0.

Definition scenario_header : MUSheader :=
  MkMUSheader [chr "M"; chr "U"; chr "S"; 0x1A] 4 16 1 0 0 0.

(** The context [mus2midi] returns on the scenario buffer. *)
Definition scenario_ctx : mus_ctx :=
  MusCtx 16 20 (scenario_midi ++ replicate (Z.to_nat 8147) 0) 45 45 8159.

(** ** Faults and safety *)

(** The undefined behaviour that comes from the bytes of the source: a
    read outside the source buffer, a controller index outside [midimap],
    an overflowing delta time. *)
Definition input_fault (f : fault) : bool :=
  match f with
  | OverRead _ | TableOutOfBounds _ | SignedOverflow => true
  | SinkOutOfBounds _ | LocalOutOfBounds _ => false
  end.

Definition input_faults_only {A : Type} (r : result A) : Prop :=
  match r with
  | Undef f => input_fault f = true
  | _ => True
  end.

Definition is_sink_fault {A : Type} (r : result A) : bool :=
  match r with
  | Undef (SinkOutOfBounds _) => true
  | _ => false
  end.

Definition is_local_fault {A : Type} (r : result A) : bool :=
  match r with
  | Undef (LocalOutOfBounds _) => true
  | _ => false
  end.

(** The sink while the main loop runs: the room [dstrem] counts lies
    inside the allocated block, which [dstsize] may exceed. *)
Definition sink_safe (c : mus_ctx) : Prop :=
  0 <= dstrem c /\
  dst_ptr c + dstrem c <= Z.of_nat (length (dst c)) /\
  Z.of_nat (length (dst c)) <= dstsize c.

(** The number of assigned entries of a channel map. *)
Fixpoint count_assigned (l : list Z) : Z :=
  match l with
  | [] => 0
  | m :: l' => (if 0 <=? m then 1 else 0) + count_assigned l'
  end.

(** The MIDI channel of the [k]-th melodic MUS channel to appear. *)
Definition nth_channel (k : Z) : Z := if k <? 9 then k else k + 1.

(** The local arrays at the head of the main loop. *)
Definition locals_ok (s : locals) : Prop :=
  allocator_ok s /\
  length (channel_volume s) = 16%nat /\
  currentChannel s = nth_channel (count_assigned (take 15 (channelMap s))).

(** The sink [mus2midi] enters its main loop with. *)
Definition prelude_ctx (size : Z) : mus_ctx :=
  MusCtx (0 + sizeof_MUSheader) size
    (prelude_bytes ++ replicate (Z.to_nat 8159) 0) 33 DST_CHUNK 8159.

(** The locals at the first head of the main loop on [data]. *)
Definition first_locals (data : list Z) (header : MUSheader) : locals :=
  initial_locals header (prelude_ctx (u32 (Z.of_nat (length data)))).

(** A writer has taken the sink from [c] to [c']: [bytes] lie at the old
    cursor, the cursor is past them, and the cells before are as they
    were. *)
Definition stores (c c' : mus_ctx) (bytes : list Z) : Prop :=
  dst_ptr c' = dst_ptr c + Z.of_nat (length bytes) /\
  sink_safe c' /\
  take (Z.to_nat (dst_ptr c)) (dst c') = take (Z.to_nat (dst_ptr c)) (dst c) /\
  take (length bytes) (drop (Z.to_nat (dst_ptr c)) (dst c')) = bytes.

(** Two buffers of one size with the same cells from offset [k] on. *)
Definition agree_from (k : nat) (data data' : list Z) : Prop :=
  length data = length data' /\ drop k data = drop k data'.

(** The locals of the scenario at the first and second head of the main
    loop. *)
Definition scenario_first : locals := first_locals scenario scenario_header.

Definition scenario_second : locals :=
  match loop_body scenario (channels scenario_header)
          (scoreStart scenario_header + scoreLen scenario_header)
          (fun _ => (0, 0)) scenario_first with
  | Ok s => s
  | _ => scenario_first
  end.

(** [n] iterations of the main loop from [s], each entered with
    [cur < end] and completed. *)
Fixpoint iterate (data : list Z) (channels end_ : Z) (uninit : Z -> Z * Z)
  (n : nat) (s : locals) : option locals :=
  match n with
  | O => Some s
  | S n' =>
      if cur s <? end_ then
        match loop_body data channels end_ uninit s with
        | Ok s' => iterate data channels end_ uninit n' s'
        | _ => None
        end
      else None
  end.

(** Ten channels; a ReleaseNote of note 60 on each of the MUS channels 0
    to 9, in this order. *)
Definition ten_channels : list Z :=
  mus_file 10
    [0x00; 0x3C; 0x01; 0x3C; 0x02; 0x3C; 0x03; 0x3C; 0x04; 0x3C;
     0x05; 0x3C; 0x06; 0x3C; 0x07; 0x3C; 0x08; 0x3C; 0x09; 0x3C].

Definition ten_channels_header : MUSheader :=
  MkMUSheader [chr "M"; chr "U"; chr "S"; 0x1A] 20 16 10 0 0 0.

(** The locals on [ten_channels] once the events of the MUS channels 0
    to 8 are written: at the head of the iteration on MUS channel 9. *)
Definition ten_channels_ninth : locals :=
  default (first_locals ten_channels ten_channels_header)
    (iterate ten_channels 10 36 (fun _ => (0, 0)) 9
       (first_locals ten_channels ten_channels_header)).

(** One channel; a ReleaseNote on MUS channel 0 with the last-event flag,
    followed by a delta time of five cells that all have the continuation
    bit and the seven low bits set. *)
Definition long_delta : list Z :=
  mus_file 1 [0x80; 0x3C; 0xFF; 0xFF; 0xFF; 0xFF; 0xFF].

Definition long_delta_header : MUSheader :=
  MkMUSheader [chr "M"; chr "U"; chr "S"; 0x1A] 7 16 1 0 0 0.

(** The scenario under another tag and with other values in the header
    fields after [channels]. *)
Definition scenario_retagged : list Z :=
  [chr "R"; chr "I"; chr "F"; chr "F"] ++ take 6 (drop 4 scenario)
    ++ [1; 2; 3; 4; 5; 6] ++ drop 16 scenario.

(** * Properties *)

(** ** The result monad *)

Lemma bind_Ok {A B : Type} (r : result A) (k : A -> result B) (b : B) :
  bind r k = Ok b -> exists a, r = Ok a /\ k a = Ok b.
Proof. destruct r; simpl; intros H; try discriminate. eauto. Qed.

Lemma bind_OutOfFuel {A B : Type} (r : result A) (k : A -> result B) :
  bind r k = OutOfFuel -> r = OutOfFuel \/ exists a, r = Ok a /\ k a = OutOfFuel.
Proof. destruct r; simpl; intros H; try discriminate; eauto. Qed.

(** Splits a hypothesis [bind r k = Ok b] into its two runs. *)
Tactic Notation "bind_inv" hyp(H) "as" ident(a) ident(Ha) :=
  apply bind_Ok in H; destruct H as (a & Ha & H).

(** Linear arithmetic with quotients and remainders by constants. *)
Ltac dlia := Z.to_euclidean_division_equations; lia.

(** ** Bits of a byte *)

Lemma land_0x7f (x : Z) : Z.land x 0x7f = x mod 128.
Proof. change 0x7f with (Z.ones 7). now rewrite Z.land_ones by lia. Qed.

Lemma land_0xff (x : Z) : Z.land x 0xff = x mod 256.
Proof. change 0xff with (Z.ones 8). now rewrite Z.land_ones by lia. Qed.

Lemma land_0x80 (x : Z) : Z.land x 0x80 = 128 * ((x / 128) mod 2).
Proof.
  apply Z.bits_inj'. intros n Hn.
  rewrite Z.land_spec.
  change 0x80 with (2 ^ 7). rewrite Z.pow2_bits_eqb by lia.
  rewrite (Z.mul_comm (2 ^ 7)), <- Z.shiftl_mul_pow2 by lia.
  rewrite Z.shiftl_spec by lia.
  change 2 with (2 ^ 1) at 2. rewrite <- Z.land_ones by lia.
  destruct (Z.eqb_spec 7 n) as [<- | Hne].
  - rewrite andb_true_r. change (7 - 7) with 0.
    rewrite Z.land_spec. change (Z.testbit (Z.ones 1) 0) with true.
    rewrite andb_true_r. rewrite <- Z.shiftr_div_pow2 by lia.
    rewrite Z.shiftr_spec by lia. reflexivity.
  - rewrite andb_false_r.
    destruct (Z.lt_ge_cases n 7) as [Hlt | Hge].
    + now rewrite Z.testbit_neg_r by lia.
    + rewrite Z.land_spec. change (Z.ones 1) with 1.
      replace (Z.testbit 1 (n - 7)) with false; [now rewrite andb_false_r |].
      symmetry. change 1 with (2 ^ 0). apply Z.pow2_bits_false. lia.
Qed.

Lemma lor_0x80 (g : Z) : 0 <= g < 128 -> Z.lor 0x80 g = 128 + g.
Proof.
  intros Hg. rewrite Z.add_comm, Z.lor_comm.
  symmetry. apply Z.add_nocarry_lor.
  apply Z.bits_inj'. intros n Hn. rewrite Z.land_spec, Z.bits_0.
  change 0x80 with (2 ^ 7). rewrite Z.pow2_bits_eqb by lia.
  destruct (Z.eqb_spec 7 n) as [<- | Hne]; [| now rewrite andb_false_r].
  rewrite andb_true_r.
  destruct (Z.eq_dec g 0) as [-> | Hg0]; [reflexivity |].
  apply Z.bits_above_log2; [lia |].
  apply Z.log2_lt_pow2; lia.
Qed.

(** ** [WriteVarLen] *)

Lemma emits_low (g : Z) : 0 <= g < 128 -> emits g [g].
Proof.
  intros Hg. split; [lia |]. intros [| fuel] count Hf; simpl in Hf; [lia |].
  simpl. rewrite land_0x80.
  rewrite (Z.div_small g 128) by lia. simpl.
  unfold u8. rewrite Z.mod_small by lia. reflexivity.
Qed.

Lemma emits_push (buffer g : Z) (l : list Z) :
  emits buffer l -> 0 <= g < 128 ->
  emits (buffer * 256 + 128 + g) ((128 + g) :: l).
Proof.
  intros [Hb He] Hg. split; [lia |].
  intros [| fuel] count Hf; simpl in Hf; [lia |].
  cbn [varlen_emit]. rewrite land_0x80.
  replace ((buffer * 256 + 128 + g) / 128) with (buffer * 2 + 1)
    by (apply Z.div_unique with (r := g); lia).
  replace ((buffer * 2 + 1) mod 2) with 1
    by (apply Z.mod_unique with (q := buffer); lia).
  change (128 * 1 =? 0) with false. cbv iota.
  rewrite Z.shiftr_div_pow2 by lia.
  replace ((buffer * 256 + 128 + g) / 2 ^ 8) with buffer
    by (apply Z.div_unique with (r := 128 + g); lia).
  rewrite He by lia. simpl bind.
  unfold u8.
  replace ((buffer * 256 + 128 + g) mod 256) with (128 + g)
    by (apply Z.mod_unique with (q := buffer); lia).
  f_equal. f_equal. simpl length. lia.
Qed.

Lemma hi_groups_length (n : nat) (w : Z) : (length (hi_groups n w) <= n)%nat.
Proof.
  revert w. induction n as [| n IH]; intros w; simpl; [lia |].
  destruct (w >? 0); simpl; [| lia].
  rewrite length_app. simpl. specialize (IH (w / 128)). lia.
Qed.

Lemma as_long_Ok (z : Z) : LONG_MIN <= z <= LONG_MAX -> as_long z = Ok z.
Proof.
  intros H. unfold as_long.
  destruct (Z.leb_spec LONG_MIN z), (Z.leb_spec z LONG_MAX); simpl; try lia.
  reflexivity.
Qed.

Lemma varlen_pack_emits (n : nat) :
  forall (fuel : nat) (v buffer : Z) (l : list Z),
    (n < fuel)%nat ->
    0 <= v < 128 ^ (Z.of_nat n + 1) ->
    emits buffer l ->
    (buffer + 1) * 256 ^ Z.of_nat n <= 2 ^ 63 ->
    exists buffer',
      varlen_pack fuel v buffer = Ok buffer' /\
      emits buffer' (hi_groups n (v / 128) ++ l).
Proof.
  induction n as [| n IH]; intros fuel v buffer l Hfuel Hv Hem Hroom.
  - destruct fuel as [| fuel]; [lia |].
    exists buffer. simpl. rewrite Z.shiftr_div_pow2 by lia.
    change (2 ^ 7) with 128. rewrite (Z.div_small v 128) by (simpl in Hv; lia).
    simpl. split; [reflexivity | exact Hem].
  - destruct fuel as [| fuel]; [lia |].
    cbn [varlen_pack hi_groups]. rewrite Z.shiftr_div_pow2 by lia.
    change (2 ^ 7) with 128.
    assert (Hw : 0 <= v / 128 < 128 ^ (Z.of_nat n + 1)).
    { replace (Z.of_nat (S n) + 1) with (Z.succ (Z.of_nat n + 1)) in Hv by lia.
      rewrite Z.pow_succ_r in Hv by lia.
      split; [apply Z.div_pos; lia |].
      apply Z.div_lt_upper_bound; lia. }
    destruct (Z.gtb_spec (v / 128) 0) as [Hpos | Hzero].
    + destruct Hem as [Hb0 Hem].
      assert (Hp : 0 < 256 ^ Z.of_nat n) by (apply Z.pow_pos_nonneg; lia).
      rewrite Nat2Z.inj_succ, Z.pow_succ_r in Hroom by lia.
      pose proof (Z.mod_pos_bound (v / 128) 128 ltac:(lia)) as Hg.
      rewrite Z.shiftl_mul_pow2 by lia. change (2 ^ 8) with 256.
      rewrite land_0x7f.
      assert (Hfit : (buffer * 256 + 128 + (v / 128) mod 128 + 1)
                     <= (buffer + 1) * 256) by lia.
      assert (Hmax : (buffer + 1) * 256 <= 2 ^ 63) by nia.
      unfold LONG_MAX, LONG_MIN in *.
      rewrite (as_long_Ok (buffer * 256)) by (unfold LONG_MAX, LONG_MIN; lia).
      cbn [bind].
      rewrite (as_long_Ok (buffer * 256 + 128)) by (unfold LONG_MAX, LONG_MIN; lia).
      cbn [bind].
      rewrite (as_long_Ok (buffer * 256 + 128 + (v / 128) mod 128))
        by (unfold LONG_MAX, LONG_MIN; lia).
      cbn [bind].
      destruct (IH fuel (v / 128) (buffer * 256 + 128 + (v / 128) mod 128)
                  ((128 + (v / 128) mod 128) :: l)) as (b' & Hrun & Hem');
        [lia | exact Hw | apply emits_push; [split; assumption | lia] | nia |].
      exists b'. split; [exact Hrun |].
      rewrite <- app_assoc. exact Hem'.
    + exists buffer. split; [reflexivity | exact Hem].
Qed.

(** What [WriteVarLen] returns on a value of at most eight groups. *)
Lemma WriteVarLen_groups (n : nat) (v : Z) :
  (n <= 7)%nat -> 0 <= v < 128 ^ (Z.of_nat n + 1) ->
  let bytes := hi_groups n (v / 128) ++ [v mod 128] in
  WriteVarLen v = Ok (bytes, Z.of_nat (length bytes)).
Proof.
  intros Hn Hv bytes. unfold WriteVarLen. rewrite land_0x7f.
  pose proof (Z.mod_pos_bound v 128 ltac:(lia)) as Hg.
  destruct (varlen_pack_emits n long_bits v (v mod 128) [v mod 128])
    as (b & Hrun & _ & Hem).
  - unfold long_bits. lia.
  - exact Hv.
  - apply emits_low. lia.
  - apply Z.le_trans with (128 * 256 ^ 7); [| vm_compute; discriminate].
    apply Z.mul_le_mono_nonneg; try lia.
    apply Z.pow_le_mono_r; lia.
  - rewrite Hrun. cbn [bind]. rewrite Hem; [reflexivity |].
    fold bytes. unfold bytes. rewrite length_app. simpl.
    pose proof (hi_groups_length n (v / 128)). unfold long_bits. lia.
Qed.

Lemma vlq_top_exact (k : nat) (v : Z) :
  128 ^ Z.of_nat k <= v < 128 ^ (Z.of_nat k + 1) -> vlq_top v = k.
Proof.
  intros [Hlo Hhi]. unfold vlq_top.
  assert (Hpos : 0 < v).
  { apply Z.lt_le_trans with (128 ^ Z.of_nat k); [| exact Hlo].
    apply Z.pow_pos_nonneg; lia. }
  change 128 with (2 ^ 7) in Hlo, Hhi.
  rewrite <- Z.pow_mul_r in Hlo, Hhi by lia.
  apply Z.log2_le_pow2 in Hlo; [| exact Hpos].
  apply Z.log2_lt_pow2 in Hhi; [| exact Hpos].
  replace (Z.log2 v / 7) with (Z.of_nat k); [apply Nat2Z.id |].
  apply Z.div_unique with (r := Z.log2 v - 7 * Z.of_nat k); lia.
Qed.

Lemma vlq_top_small (v : Z) : 0 <= v < 128 -> vlq_top v = 0%nat.
Proof.
  intros Hv. destruct (Z.eq_dec v 0) as [-> | Hne]; [reflexivity |].
  apply (vlq_top_exact 0). simpl. lia.
Qed.

Lemma land_0x80_set (g : Z) : 0 <= g < 128 -> Z.land (128 + g) 0x80 = 0x80.
Proof.
  intros Hg. rewrite land_0x80.
  replace ((128 + g) / 128) with 1 by (apply Z.div_unique with (r := g); lia).
  reflexivity.
Qed.

Lemma land_0x80_clear (g : Z) : 0 <= g < 128 -> Z.land g 0x80 = 0.
Proof. intros Hg. rewrite land_0x80, Z.div_small by lia. reflexivity. Qed.

Lemma vlq_decode_more (g value : Z) (l : list Z) :
  0 <= g < 128 ->
  vlq_decode ((128 + g) :: l) value = vlq_decode l (value * 128 + g).
Proof.
  intros Hg. cbn [vlq_decode]. rewrite land_0x80_set by exact Hg.
  rewrite land_0x7f.
  replace ((128 + g) mod 128) with g
    by (apply Z.mod_unique with (q := 1); lia).
  reflexivity.
Qed.

Lemma vlq_decode_last (g value : Z) (l : list Z) :
  0 <= g < 128 -> vlq_decode (g :: l) value = Some (value * 128 + g, l).
Proof.
  intros Hg. cbn [vlq_decode]. rewrite land_0x80_clear by exact Hg.
  rewrite land_0x7f, Z.mod_small by lia. reflexivity.
Qed.

(** The table of examples of the MIDI file format, on the description and
    on the code. *)
Example vlq_standard_examples :
  vlq_standard 0x00 = [0x00] /\ vlq_standard 0x40 = [0x40] /\
  vlq_standard 0x7F = [0x7F] /\ vlq_standard 0x80 = [0x81; 0x00] /\
  vlq_standard 0x2000 = [0xC0; 0x00] /\ vlq_standard 0x3FFF = [0xFF; 0x7F] /\
  vlq_standard 0x4000 = [0x81; 0x80; 0x00] /\
  vlq_standard 0x1FFFFF = [0xFF; 0xFF; 0x7F] /\
  vlq_standard 0x200000 = [0x81; 0x80; 0x80; 0x00] /\
  vlq_standard 0x0FFFFFFF = [0xFF; 0xFF; 0xFF; 0x7F].
Proof. repeat split; vm_compute; reflexivity. Qed.

Example WriteVarLen_examples :
  WriteVarLen 0x00 = Ok ([0x00], 1) /\
  WriteVarLen 0x80 = Ok ([0x81; 0x00], 2) /\
  WriteVarLen 0x4000 = Ok ([0x81; 0x80; 0x00], 3) /\
  WriteVarLen 0x0FFFFFFF = Ok ([0xFF; 0xFF; 0xFF; 0x7F], 4).
Proof. repeat split; vm_compute; reflexivity. Qed.

(** The bytes [WriteVarLen] emits on a 28-bit value, group by group. *)
Lemma WriteVarLen_28 (value : Z) :
  0 <= value < 2 ^ 28 ->
  exists bytes,
    WriteVarLen value = Ok (bytes, Z.of_nat (length bytes)) /\
    bytes = vlq_standard value /\
    vlq_decode bytes 0 = Some (value, []) /\
    Forall (fun b => Z.land b 0x80 = 0x80) (removelast bytes) /\
    Z.land (List.last bytes 0) 0x80 = 0.
Proof.
  intros Hv.
  pose proof (WriteVarLen_groups 3 value ltac:(lia) ltac:(simpl; lia)) as Hrun.
  cbv zeta in Hrun. eexists. split; [exact Hrun |]. clear Hrun.
  pose proof (Z.mod_pos_bound value 128 ltac:(lia)) as H0.
  pose proof (Z.mod_pos_bound (value / 128) 128 ltac:(lia)) as H1.
  pose proof (Z.mod_pos_bound (value / 128 / 128) 128 ltac:(lia)) as H2.
  pose proof (Z.mod_pos_bound (value / 128 / 128 / 128) 128 ltac:(lia)) as H3.
  assert (Hd2 : value / 128 / 128 = value / 128 ^ 2)
    by (rewrite Z.div_div by lia; reflexivity).
  assert (Hd3 : value / 128 / 128 / 128 = value / 128 ^ 3)
    by (rewrite !Z.div_div by lia; reflexivity).
  assert (Hd1 : value / 128 = value / 128 ^ 1) by reflexivity.
  assert (Hd0 : value = value / 128 ^ 0) by (symmetry; apply Z.div_1_r).
  cbn [hi_groups].
  destruct (Z.gtb_spec (value / 128) 0) as [G1 | G1].
  2: { (* one group *)
    assert (Hs : 0 <= value < 128) by dlia.
    unfold vlq_standard. rewrite vlq_top_small by exact Hs.
    cbn [app vlq_bytes removelast List.last]. unfold group7.
    change (Z.of_nat 0) with 0. rewrite <- Hd0.
    repeat split.
    - rewrite vlq_decode_last by lia. f_equal. f_equal. dlia.
    - constructor.
    - apply land_0x80_clear; lia. }
  destruct (Z.gtb_spec (value / 128 / 128) 0) as [G2 | G2].
  2: { (* two groups *)
    unfold vlq_standard. rewrite (vlq_top_exact 1) by (simpl; dlia).
    cbn [app vlq_bytes removelast List.last]. unfold group7.
    change (Z.of_nat 1) with 1. change (Z.of_nat 0) with 0.
    rewrite <- Hd0, <- Hd1, lor_0x80 by lia.
    repeat split.
    - rewrite vlq_decode_more, vlq_decode_last by lia. f_equal. f_equal. dlia.
    - repeat constructor; apply land_0x80_set; lia.
    - apply land_0x80_clear; lia. }
  destruct (Z.gtb_spec (value / 128 / 128 / 128) 0) as [G3 | G3].
  2: { (* three groups *)
    unfold vlq_standard. rewrite (vlq_top_exact 2) by (simpl; dlia).
    cbn [app vlq_bytes removelast List.last]. unfold group7.
    change (Z.of_nat 2) with 2. change (Z.of_nat 1) with 1.
    change (Z.of_nat 0) with 0.
    rewrite <- Hd0, <- Hd1, <- Hd2, !lor_0x80 by lia.
    repeat split.
    - rewrite !vlq_decode_more, vlq_decode_last by lia. f_equal. f_equal. dlia.
    - repeat constructor; apply land_0x80_set; lia.
    - apply land_0x80_clear; lia. }
  (* four groups *)
  unfold vlq_standard. rewrite (vlq_top_exact 3) by (simpl; dlia).
  cbn [app vlq_bytes removelast List.last]. unfold group7.
  change (Z.of_nat 3) with 3. change (Z.of_nat 2) with 2.
  change (Z.of_nat 1) with 1. change (Z.of_nat 0) with 0.
  rewrite <- Hd0, <- Hd1, <- Hd2, <- Hd3, !lor_0x80 by lia.
  repeat split.
  - rewrite !vlq_decode_more, vlq_decode_last by lia. f_equal. f_equal. dlia.
  - repeat constructor; apply land_0x80_set; lia.
  - apply land_0x80_clear; lia.
Qed.

Lemma as_long_inv (z a : Z) :
  as_long z = Ok a -> a = z /\ LONG_MIN <= z <= LONG_MAX.
Proof.
  unfold as_long.
  destruct (Z.leb_spec LONG_MIN z), (Z.leb_spec z LONG_MAX); simpl;
    intros E; inversion E; subst; lia.
Qed.

Lemma as_long_not_OutOfFuel (z : Z) : as_long z <> OutOfFuel.
Proof. unfold as_long. destruct (_ && _); discriminate. Qed.

Lemma as_int_inv (z a : Z) :
  as_int z = Ok a -> a = z /\ INT_MIN <= z <= INT_MAX.
Proof.
  unfold as_int.
  destruct (Z.leb_spec INT_MIN z), (Z.leb_spec z INT_MAX); simpl;
    intros E; inversion E; subst; lia.
Qed.

Lemma as_int_not_OutOfFuel (z : Z) : as_int z <> OutOfFuel.
Proof. unfold as_int. destruct (_ && _); discriminate. Qed.

(** The first loop keeps [buffer] a non-negative [long]. *)
Lemma varlen_pack_range (fuel : nat) :
  forall v buffer b,
    0 <= buffer <= LONG_MAX ->
    varlen_pack fuel v buffer = Ok b -> 0 <= b <= LONG_MAX.
Proof.
  induction fuel as [| fuel IH]; intros v buffer b Hb H; [discriminate |].
  cbn [varlen_pack] in H.
  destruct (Z.shiftr v 7 >? 0); [| inversion H; subst; exact Hb].
  bind_inv H as b1 H1. apply as_long_inv in H1 as [-> Hr1].
  bind_inv H as b2 H2. apply as_long_inv in H2 as [-> Hr2].
  bind_inv H as b3 H3. apply as_long_inv in H3 as [-> Hr3].
  apply IH in H; [exact H |].
  rewrite Z.shiftl_mul_pow2, land_0x7f in * by lia.
  pose proof (Z.mod_pos_bound (Z.shiftr v 7) 128 ltac:(lia)).
  lia.
Qed.

Lemma varlen_pack_S (fuel : nat) (v buffer : Z) :
  varlen_pack (S fuel) v buffer =
  if Z.shiftr v 7 >? 0 then
    do b <- as_long (Z.shiftl buffer 8);
    do b <- as_long (b + 0x80);
    do b <- as_long (b + Z.land (Z.shiftr v 7) 0x7f);
    varlen_pack fuel (Z.shiftr v 7) b
  else Ok buffer.
Proof. reflexivity. Qed.

Lemma varlen_pack_OutOfFuel (fuel : nat) (v buffer : Z) :
  varlen_pack (S fuel) v buffer = OutOfFuel ->
  let b := buffer * 256 + 128 + Z.shiftr v 7 mod 128 in
  b <= LONG_MAX /\ varlen_pack fuel (Z.shiftr v 7) b = OutOfFuel.
Proof.
  rewrite varlen_pack_S. intros H.
  destruct (Z.shiftr v 7 >? 0); [| discriminate].
  apply bind_OutOfFuel in H as [H | (b1 & H1 & H)];
    [now apply as_long_not_OutOfFuel in H |].
  apply bind_OutOfFuel in H as [H | (b2 & H2 & H)];
    [now apply as_long_not_OutOfFuel in H |].
  apply bind_OutOfFuel in H as [H | (b3 & H3 & H)];
    [now apply as_long_not_OutOfFuel in H |].
  apply as_long_inv in H1 as [-> Hr1].
  apply as_long_inv in H2 as [-> Hr2].
  apply as_long_inv in H3 as [-> Hr3].
  rewrite Z.shiftl_mul_pow2, land_0x7f in * by lia.
  change (2 ^ 8) with 256 in *. split; [lia | exact H].
Qed.

(** The first loop exits or overflows before 64 passes. *)
Lemma varlen_pack_returns (fuel : nat) :
  forall v buffer,
    0 <= buffer <= LONG_MAX ->
    LONG_MAX < (buffer * 256 + 128) * 256 ^ Z.of_nat fuel ->
    varlen_pack (S fuel) v buffer <> OutOfFuel.
Proof.
  induction fuel as [| fuel IH]; intros v buffer Hb Hbig H;
    apply varlen_pack_OutOfFuel in H as [Hfit H];
    pose proof (Z.mod_pos_bound (Z.shiftr v 7) 128 ltac:(lia)) as Hg.
  - change (256 ^ Z.of_nat 0) with 1 in Hbig. lia.
  - revert H. apply IH; [lia |].
    rewrite Nat2Z.inj_succ, Z.pow_succ_r in Hbig by lia.
    assert (Hp : 0 < 256 ^ Z.of_nat fuel) by (apply Z.pow_pos_nonneg; lia).
    nia.
Qed.

(** The second loop emits at most one byte more than [buffer] has. *)
Lemma varlen_emit_length (fuel : nat) :
  forall (k : nat) buffer count r,
    0 <= buffer < 256 ^ Z.of_nat k ->
    varlen_emit fuel buffer count = Ok r ->
    (length (fst r) <= k + 1)%nat /\ snd r = count + Z.of_nat (length (fst r)).
Proof.
  induction fuel as [| fuel IH]; intros k buffer count r Hb H; [discriminate |].
  cbn [varlen_emit] in H.
  destruct (Z.eqb_spec (Z.land buffer 0x80) 0) as [Hz | Hnz].
  - inversion H; subst; simpl. lia.
  - bind_inv H as r' Ha. inversion H; subst; clear H. simpl.
    destruct k as [| k].
    + simpl in Hb. replace buffer with 0 in Hnz by lia. now destruct Hnz.
    + apply (IH k) in Ha as [Hl Hc].
      * split; [lia |]. rewrite Hc. lia.
      * rewrite Z.shiftr_div_pow2 by lia. change (2 ^ 8) with 256.
        rewrite Nat2Z.inj_succ, Z.pow_succ_r in Hb by lia.
        split; [apply Z.div_pos; lia | apply Z.div_lt_upper_bound; lia].
Qed.

Lemma varlen_emit_returns (fuel : nat) :
  forall buffer count,
    0 <= buffer < 256 ^ Z.of_nat fuel ->
    varlen_emit (S fuel) buffer count <> OutOfFuel.
Proof.
  induction fuel as [| fuel IH]; intros buffer count Hb H;
    cbn [varlen_emit] in H;
    (destruct (Z.eqb_spec (Z.land buffer 0x80) 0) as [Hz | Hnz];
       [discriminate |]).
  - simpl in Hb. replace buffer with 0 in Hnz by lia. now destruct Hnz.
  - apply bind_OutOfFuel in H as [H | (r & _ & H)]; [| discriminate].
    revert H. apply IH.
    rewrite Z.shiftr_div_pow2 by lia. change (2 ^ 8) with 256.
    rewrite Nat2Z.inj_succ, Z.pow_succ_r in Hb by lia.
    split; [apply Z.div_pos; lia | apply Z.div_lt_upper_bound; lia].
Qed.

(** [WriteVarLen] returns on every argument: the fuel of its two loops is
    never used up. *)
Lemma WriteVarLen_returns (value : Z) : WriteVarLen value <> OutOfFuel.
Proof.
  unfold WriteVarLen. intros H.
  pose proof (Z.mod_pos_bound value 128 ltac:(lia)) as Hg.
  rewrite land_0x7f in H.
  apply bind_OutOfFuel in H as [H | (b & Hb & H)].
  - revert H. apply (varlen_pack_returns 63).
    + unfold LONG_MAX. lia.
    + unfold LONG_MAX.
      apply Z.lt_le_trans with (128 * 256 ^ Z.of_nat 63);
        [vm_compute; reflexivity |].
      apply Z.mul_le_mono_nonneg_r; [apply Z.pow_nonneg |]; lia.
  - apply varlen_pack_range in Hb; [| unfold LONG_MAX; lia].
    revert H. apply (varlen_emit_returns 63).
    unfold LONG_MAX in Hb. split; [lia |].
    apply Z.le_lt_trans with (2 ^ 63 - 1); [lia | vm_compute; reflexivity].
Qed.

(** Whatever [WriteVarLen] returns, the count is the number of bytes
    stored, and that is at most 9. *)
Lemma WriteVarLen_count (value : Z) (r : list Z * Z) :
  WriteVarLen value = Ok r ->
  snd r = Z.of_nat (length (fst r)) /\ (1 <= length (fst r) <= 9)%nat.
Proof.
  unfold WriteVarLen. intros H.
  pose proof (Z.mod_pos_bound value 128 ltac:(lia)) as Hg.
  rewrite land_0x7f in H. bind_inv H as b Ha.
  apply varlen_pack_range in Ha; [| unfold LONG_MAX; lia].
  assert (Hne : fst r <> []).
  { unfold long_bits in H. cbn [varlen_emit] in H.
    destruct (_ =? 0); [inversion H; discriminate |].
    bind_inv H as r' Hr. inversion H; discriminate. }
  apply (varlen_emit_length _ 8) in H as [Hl Hc].
  - split; [lia |]. destruct (fst r); [congruence | simpl in *; lia].
  - unfold LONG_MAX in Ha. split; [lia |].
    apply Z.le_lt_trans with (2 ^ 63 - 1); [lia | vm_compute; reflexivity].
Qed.

(** ** The byte sink *)

Lemma poke_inv (c c' : mus_ctx) (v : Z) :
  poke c v = Ok c' ->
  0 <= dst_ptr c < Z.of_nat (length (dst c)) /\
  c' = set_sink c (<[Z.to_nat (dst_ptr c) := u8 v]> (dst c)) (dst_ptr c + 1)
         (dstsize c) (dstrem c).
Proof.
  unfold poke.
  destruct (Z.leb_spec 0 (dst_ptr c)), (Z.ltb_spec (dst_ptr c) (Z.of_nat (length (dst c))));
    simpl; intros E; inversion E; subst; split; (lia || reflexivity).
Qed.

Lemma poke_not_OutOfFuel (c : mus_ctx) (v : Z) : poke c v <> OutOfFuel.
Proof. unfold poke. destruct (_ && _); discriminate. Qed.

Lemma poke_all_not_OutOfFuel (bytes : list Z) :
  forall c, poke_all c bytes <> OutOfFuel.
Proof.
  induction bytes as [| b bytes IH]; intros c H; [discriminate |].
  cbn [poke_all] in H.
  apply bind_OutOfFuel in H as [H | (c1 & _ & H)].
  - exact (poke_not_OutOfFuel _ _ H).
  - exact (IH _ H).
Qed.

(** A copy of [bytes] to the sink overwrites the cells from the cursor on
    and moves the cursor past them; nothing else changes. *)
Lemma poke_all_inv (bytes : list Z) :
  forall c c',
    poke_all c bytes = Ok c' ->
    dst_ptr c' = dst_ptr c + Z.of_nat (length bytes) /\
    dstsize c' = dstsize c /\ dstrem c' = dstrem c /\
    src_ptr c' = src_ptr c /\ srcsize c' = srcsize c /\
    dst c' = take (Z.to_nat (dst_ptr c)) (dst c) ++ map u8 bytes
               ++ drop (Z.to_nat (dst_ptr c) + length bytes) (dst c).
Proof.
  induction bytes as [| b bytes IH]; intros c c' H.
  - inversion H; subst. simpl. rewrite Nat.add_0_r, take_drop.
    repeat split; lia.
  - cbn [poke_all] in H. bind_inv H as c1 H1.
    apply poke_inv in H1 as [Hp ->].
    apply IH in H as (Hptr & Hsz & Hrem & Hsp & Hss & Hdst).
    cbn [set_sink dst_ptr dstsize dstrem dst src_ptr srcsize] in *.
    repeat split; try assumption.
    + rewrite Hptr. simpl length. lia.
    + rewrite Hdst.
      replace (Z.to_nat (dst_ptr c + 1)) with (S (Z.to_nat (dst_ptr c))) by lia.
      rewrite (take_S_r _ _ (u8 b))
        by (apply list_lookup_insert_eq; lia).
      rewrite take_insert_ge by lia.
      rewrite drop_insert_lt by lia.
      rewrite <- app_assoc. simpl. do 4 f_equal. lia.
Qed.

Lemma length_poke_all (bytes : list Z) (c c' : mus_ctx) :
  poke_all c bytes = Ok c' -> length (dst c') = length (dst c).
Proof.
  revert c c'. induction bytes as [| b bytes IH]; intros c c' H.
  - now inversion H.
  - cbn [poke_all] in H. bind_inv H as c1 H1.
    apply poke_inv in H1 as [Hp ->]. apply IH in H.
    rewrite H. cbn [set_sink dst]. apply length_insert.
Qed.

Lemma write4_inv (c c' : mus_ctx) (v : Z) :
  write4 c v = Ok c' ->
  exists c2,
    poke_all (grow_if c 4)
      [Z.land (Z.shiftr v 24) 0xff; Z.land (Z.shiftr v 16) 0xff;
       Z.land (Z.shiftr v 8) 0xff; Z.land v 0xff] = Ok c2 /\
    c' = set_dstrem c2 (u32 (dstrem c2 - 4)).
Proof.
  unfold write4. intros H.
  bind_inv H as c1 H1. bind_inv H as c2 H2.
  bind_inv H as c3 H3. bind_inv H as c4 H4.
  inversion H; subst; clear H.
  exists c4. split; [| reflexivity].
  cbn [poke_all]. rewrite H1. cbn [bind]. rewrite H2. cbn [bind].
  rewrite H3. cbn [bind]. rewrite H4. reflexivity.
Qed.

(** ** Fuel *)

(** More fuel does not change a run that came back. *)

Lemma bind_fuel {A B : Type} (r1 r1' : result A) (k k' : A -> result B) :
  bind r1 k <> OutOfFuel ->
  (r1 <> OutOfFuel -> r1' = r1) ->
  (forall a, r1 = Ok a -> k a <> OutOfFuel -> k' a = k a) ->
  bind r1' k' = bind r1 k.
Proof.
  intros H H1 Hk. destruct r1 as [a | f |]; simpl in H.
  - rewrite H1 by discriminate. simpl. apply Hk; [reflexivity | exact H].
  - rewrite H1 by discriminate. reflexivity.
  - now destruct H.
Qed.

(** One step through a bind whose first run does not take fuel. *)
Ltac fuel_bind :=
  match goal with
  | H : bind ?r1 ?k <> OutOfFuel |- bind ?r1 ?k' = bind ?r1 ?k =>
      apply (bind_fuel r1 r1 k k' H); clear H;
      [intros _; reflexivity | intros ? _ H; cbv beta in H |- *]
  end.

Lemma grow_to_fuel (n : nat) :
  forall m c pos,
    grow_to n c pos <> OutOfFuel -> (n <= m)%nat ->
    grow_to m c pos = grow_to n c pos.
Proof.
  induction n as [| n IH]; intros m c pos H Hle.
  - now destruct H.
  - destruct m as [| m]; [lia |]. cbn [grow_to] in *.
    destruct (dstsize c <? pos); [| reflexivity].
    apply IH; [exact H | lia].
Qed.

Lemma seekdst_fuel (n m : nat) (c : mus_ctx) (pos : Z) :
  seekdst n c pos <> OutOfFuel -> (n <= m)%nat ->
  seekdst m c pos = seekdst n c pos.
Proof.
  unfold seekdst. intros H Hle.
  apply bind_fuel; [exact H | | reflexivity].
  intros Hg. apply grow_to_fuel; assumption.
Qed.

Lemma skipdst_fuel (n m : nat) (c : mus_ctx) (pos : Z) :
  skipdst n c pos <> OutOfFuel -> (n <= m)%nat ->
  skipdst m c pos = skipdst n c pos.
Proof.
  unfold skipdst. intros H Hle.
  apply bind_fuel; [exact H | | reflexivity].
  intros Hg. apply grow_to_fuel; assumption.
Qed.

Lemma main_loop_fuel (data : list Z) (channels end_ : Z) (uninit : Z -> Z * Z)
  (n : nat) :
  forall m s,
    main_loop data channels end_ uninit n s <> OutOfFuel -> (n <= m)%nat ->
    main_loop data channels end_ uninit m s
      = main_loop data channels end_ uninit n s.
Proof.
  induction n as [| n IH]; intros m s H Hle.
  - now destruct H.
  - destruct m as [| m]; [lia |]. cbn [main_loop] in *.
    destruct (cur s <? end_); [| reflexivity].
    apply bind_fuel; [exact H | reflexivity |].
    intros s' _ Hk. apply IH; [exact Hk | lia].
Qed.

Lemma write_prelude_fuel (n m : nat) (c : mus_ctx) :
  write_prelude n c <> OutOfFuel -> (n <= m)%nat ->
  write_prelude m c = write_prelude n c.
Proof.
  unfold write_prelude. intros H Hle.
  do 12 fuel_bind.
  apply bind_fuel; [exact H | intros Hs; apply skipdst_fuel; assumption |].
  reflexivity.
Qed.

Lemma finish_fuel (n m : nat) (c : mus_ctx) (b t : Z) :
  finish n c b t <> OutOfFuel -> (n <= m)%nat ->
  finish m c b t = finish n c b t.
Proof.
  unfold finish. intros H Hle.
  apply bind_fuel; [exact H | intros Hs; apply seekdst_fuel; assumption |].
  clear H. intros c1 _ H. cbv beta in H |- *. fuel_bind.
  apply bind_fuel; [exact H | intros Hs; apply seekdst_fuel; assumption |].
  reflexivity.
Qed.

Lemma translate_fuel (n m : nat) (uninit : Z -> Z * Z) (data : list Z)
  (header : MUSheader) (c : mus_ctx) :
  translate n uninit data header c <> OutOfFuel -> (n <= m)%nat ->
  translate m uninit data header c = translate n uninit data header c.
Proof.
  unfold translate. intros H Hle.
  apply bind_fuel;
    [exact H | intros Hs; apply write_prelude_fuel; assumption |].
  clear H. intros [[c1 b] t] _ H. cbv beta iota in H |- *.
  apply bind_fuel;
    [exact H | intros Hs; apply main_loop_fuel; assumption |].
  clear H. intros s _ H. apply finish_fuel; assumption.
Qed.

(** The result of [mus2midi] does not depend on the fuel, once there is
    enough of it. *)
Lemma mus2midi_fuel (n m : nat) (uninit : Z -> Z * Z) (data : list Z) :
  mus2midi n uninit data <> OutOfFuel -> (n <= m)%nat ->
  mus2midi m uninit data = mus2midi n uninit data.
Proof.
  unfold mus2midi. intros H Hle.
  apply bind_fuel; [exact H | reflexivity |].
  clear H. intros header _ H. cbv beta in H |- *.
  destruct (channels header >? MIDI_MAXCHANNELS - 1); [reflexivity |].
  apply bind_fuel;
    [exact H | intros Hs; apply translate_fuel; assumption | reflexivity].
Qed.

(** ** One iteration of the main loop *)

(** Takes a run [H : ... = Ok _] apart, bind by bind and test by test. *)
Ltac bind_inv' H :=
  let a := fresh "x" in
  let Ha := fresh "E" in
  apply bind_Ok in H; destruct H as (a & Ha & H).

Ltac crunch H :=
  repeat match type of H with
    | bind _ _ = Ok _ => bind_inv' H
    | (if ?b then _ else _) = Ok _ => destruct b eqn:?
    | Ok _ = Ok _ => inversion H; subst; clear H
    end.

Lemma local_at_inv (a : list Z) (i v : Z) :
  local_at a i = Ok v -> 0 <= i /\ a !! Z.to_nat i = Some v.
Proof.
  unfold local_at. destruct (Z.ltb_spec i 0); [discriminate |].
  destruct (a !! Z.to_nat i); intros E; inversion E; subst. split; [lia | reflexivity].
Qed.

Lemma local_set_inv (a a' : list Z) (i v : Z) :
  local_set a i v = Ok a' ->
  0 <= i < Z.of_nat (length a) /\ a' = <[Z.to_nat i := v]> a.
Proof.
  unfold local_set.
  destruct (Z.leb_spec 0 i), (Z.ltb_spec i (Z.of_nat (length a))); simpl;
    intros E; inversion E; subst; split; (lia || reflexivity).
Qed.

Lemma local_at_not_OutOfFuel (a : list Z) (i : Z) : local_at a i <> OutOfFuel.
Proof.
  unfold local_at. destruct (i <? 0); [discriminate |].
  destruct (a !! Z.to_nat i); discriminate.
Qed.

Lemma local_set_not_OutOfFuel (a : list Z) (i v : Z) :
  local_set a i v <> OutOfFuel.
Proof. unfold local_set. destruct (_ && _); discriminate. Qed.

Lemma midimap_at_not_OutOfFuel (i : Z) : midimap_at i <> OutOfFuel.
Proof. unfold midimap_at. destruct (midimap !! Z.to_nat i); discriminate. Qed.

Lemma read_delta_not_OutOfFuel (cells : list Z) :
  forall delta off, read_delta cells delta off <> OutOfFuel.
Proof.
  induction cells as [| b cells IH]; intros delta off H; [discriminate |].
  cbn [read_delta] in H.
  apply bind_OutOfFuel in H as [H | (d1 & _ & H)];
    [exact (as_int_not_OutOfFuel _ H) |].
  apply bind_OutOfFuel in H as [H | (d2 & _ & H)];
    [exact (as_int_not_OutOfFuel _ H) |].
  destruct (_ =? 0); [discriminate | exact (IH _ _ H)].
Qed.

(** Reading a delta time takes at least one cell. *)
Lemma read_delta_cur (cells : list Z) :
  forall delta off r, read_delta cells delta off = Ok r -> off < snd r.
Proof.
  induction cells as [| b cells IH]; intros delta off r H; [discriminate |].
  cbn [read_delta] in H.
  bind_inv H as d1 H1. bind_inv H as d2 H2.
  destruct (_ =? 0).
  - inversion H; subst; simpl. lia.
  - apply IH in H. lia.
Qed.

Section Iteration.

Context (data : list Z) (channels end_ : Z) (uninit : Z -> Z * Z).

Lemma peek_not_OutOfFuel (off : Z) : peek data off <> OutOfFuel.
Proof.
  unfold peek. destruct (off <? 0); [discriminate |].
  destruct (data !! Z.to_nat off); discriminate.
Qed.

Lemma peek_inv (off b : Z) :
  peek data off = Ok b ->
  0 <= off < Z.of_nat (length data) /\ 0 <= b < 256.
Proof.
  unfold peek. destruct (Z.ltb_spec off 0); [discriminate |].
  destruct (data !! Z.to_nat off) as [x |] eqn:E; [| discriminate].
  intros E0; inversion E0; subst. apply lookup_lt_Some in E.
  split; [lia |]. unfold u8. apply Z.mod_pos_bound. lia.
Qed.

Lemma next_delta_cur (event c : Z) (dt : Z * Z) :
  next_delta data event c = Ok dt -> c <= snd dt.
Proof.
  unfold next_delta. destruct (_ =? 0).
  - intros H; inversion H; subst; simpl. lia.
  - intros H. apply read_delta_cur in H. lia.
Qed.

Lemma next_delta_not_OutOfFuel (event c : Z) :
  next_delta data event c <> OutOfFuel.
Proof.
  unfold next_delta. destruct (_ =? 0); [discriminate |].
  apply read_delta_not_OutOfFuel.
Qed.

(** The [switch] moves [cur] over at most two payload cells and leaves
    two or three bytes for the event. *)
Lemma decode_event_cur (event m : Z) (s : locals) (c : Z) (d : decoded) :
  decode_event data channels end_ uninit event m s c = Ok d ->
  c <= d_cur d <= c + 2 /\ (length (event_bytes d) <= 3)%nat.
Proof.
  unfold decode_event, event_bytes. intros H.
  destruct (uninit (c - 1)) as [u1 u2].
  crunch H; cbn [d_cur d_bitc d_status d_bit1 d_bit2];
    (split; [lia | simpl; lia]).
Qed.

Lemma decode_event_not_OutOfFuel (event m : Z) (s : locals) (c : Z) :
  decode_event data channels end_ uninit event m s c <> OutOfFuel.
Proof.
  unfold decode_event. intros H.
  destruct (uninit (c - 1)) as [u1 u2].
  repeat match type of H with
    | (if ?b then _ else _) = OutOfFuel => destruct b
    | bind _ _ = OutOfFuel =>
        let x := fresh "x" in
        apply bind_OutOfFuel in H as [H | (x & _ & H)];
        [ first [ exact (peek_not_OutOfFuel _ H)
                | exact (local_at_not_OutOfFuel _ _ H)
                | exact (local_set_not_OutOfFuel _ _ _ H)
                | exact (midimap_at_not_OutOfFuel _ H) ] |]
    | Ok _ = OutOfFuel => discriminate H
    end.
Qed.

Lemma allocate_inv (s : locals) (channel : Z) (temp temp' cm : list Z) (cc : Z) :
  allocate s channel temp = Ok (temp', cm, cc) ->
  exists m,
    local_at (channelMap s) channel = Ok m /\
    ((m < 0 /\
      temp' = temp ++ [u8 (0xB0 + currentChannel s); 0x07; 127; 0x00] /\
      cm = <[Z.to_nat channel := currentChannel s]> (channelMap s) /\
      cc = (if currentChannel s + 1 =? 9 then currentChannel s + 1 + 1
            else currentChannel s + 1)) \/
     (0 <= m /\ temp' = temp /\ cm = channelMap s /\ cc = currentChannel s)).
Proof.
  unfold allocate. intros H. bind_inv H as m Hm. exists m.
  split; [exact Hm |].
  destruct (Z.ltb_spec m 0).
  - bind_inv H as cm' Hcm. apply local_set_inv in Hcm as [_ ->].
    inversion H; subst. left. repeat split. exact H0.
  - inversion H; subst. right. repeat split. exact H0.
Qed.

Lemma allocate_not_OutOfFuel (s : locals) (channel : Z) (temp : list Z) :
  allocate s channel temp <> OutOfFuel.
Proof.
  unfold allocate. intros H.
  apply bind_OutOfFuel in H as [H | (m & _ & H)];
    [exact (local_at_not_OutOfFuel _ _ H) |].
  destruct (m <? 0); [| discriminate].
  apply bind_OutOfFuel in H as [H | (cm & _ & H)];
    [exact (local_set_not_OutOfFuel _ _ _ H) | discriminate].
Qed.

Lemma flush_not_OutOfFuel (c : mus_ctx) (temp : list Z) :
  flush c temp <> OutOfFuel.
Proof.
  unfold flush. intros H. destruct (_ =? 0); [discriminate |].
  apply bind_OutOfFuel in H as [H | (c' & _ & H)];
    [exact (poke_all_not_OutOfFuel _ _ H) | discriminate].
Qed.

(** The runs one completed iteration is made of. *)
Lemma loop_body_inv (s s' : locals) :
  loop_body data channels end_ uninit s = Ok s' ->
  exists event vl temp cm cc m d dt,
    peek data (cur s) = Ok event /\
    WriteVarLen (delta_time s) = Ok vl /\
    allocate s (Z.land event 15) (take (Z.to_nat (snd vl)) (fst vl))
      = Ok (temp, cm, cc) /\
    local_at cm (Z.land event 15) = Ok m /\
    decode_event data channels end_ uninit event m s (cur s + 1) = Ok d /\
    flush (ctx s) (temp ++ event_bytes d) = Ok (ctx s') /\
    next_delta data event (d_cur d) = Ok dt /\
    s' = Locals (ctx s') (snd dt) (fst dt) (d_volume d) cm cc (d_printed d).
Proof.
  unfold loop_body. intros H.
  bind_inv H as event Hev. bind_inv H as vl Hvl.
  bind_inv H as al Hal. destruct al as [[temp cm] cc].
  bind_inv H as m Hm. bind_inv H as d Hd.
  bind_inv H as cx Hcx. bind_inv H as dt Hdt.
  inversion H; subst; clear H. cbn [ctx].
  exists event, vl, temp, cm, cc, m, d, dt. repeat split; assumption.
Qed.

Lemma loop_body_not_OutOfFuel (s : locals) :
  loop_body data channels end_ uninit s <> OutOfFuel.
Proof.
  unfold loop_body. intros H.
  apply bind_OutOfFuel in H as [H | (event & _ & H)];
    [exact (peek_not_OutOfFuel _ H) |].
  apply bind_OutOfFuel in H as [H | (vl & _ & H)];
    [exact (WriteVarLen_returns _ H) |].
  apply bind_OutOfFuel in H as [H | (al & _ & H)];
    [exact (allocate_not_OutOfFuel _ _ _ H) |].
  destruct al as [[temp cm] cc].
  apply bind_OutOfFuel in H as [H | (m & _ & H)];
    [exact (local_at_not_OutOfFuel _ _ H) |].
  apply bind_OutOfFuel in H as [H | (d & _ & H)];
    [exact (decode_event_not_OutOfFuel _ _ _ _ H) |].
  apply bind_OutOfFuel in H as [H | (cx & _ & H)];
    [exact (flush_not_OutOfFuel _ _ H) |].
  apply bind_OutOfFuel in H as [H | (dt & _ & H)];
    [exact (next_delta_not_OutOfFuel _ _ H) | discriminate].
Qed.

(** Every completed iteration moves [cur] forward. *)
Lemma loop_body_cur (s s' : locals) :
  loop_body data channels end_ uninit s = Ok s' -> cur s + 1 <= cur s'.
Proof.
  intros H. apply loop_body_inv in H
    as (event & vl & temp & cm & cc & m & d & dt
        & _ & _ & _ & _ & Hd & _ & Hdt & ->).
  apply decode_event_cur in Hd as [Hd _]. apply next_delta_cur in Hdt.
  cbn [cur]. lia.
Qed.

(** Every completed iteration copies at most 16 bytes to the sink. *)
Lemma loop_body_flush (s s' : locals) :
  loop_body data channels end_ uninit s = Ok s' ->
  exists temp,
    flush (ctx s) temp = Ok (ctx s') /\ (length temp <= 16)%nat.
Proof.
  intros H. apply loop_body_inv in H
    as (event & vl & temp & cm & cc & m & d & dt
        & _ & Hvl & Hal & _ & Hd & Hfl & _ & _).
  exists (temp ++ event_bytes d). split; [exact Hfl |].
  apply decode_event_cur in Hd as [_ Hd].
  apply WriteVarLen_count in Hvl as [_ Hvl].
  apply allocate_inv in Hal as (m0 & _ & [(_ & -> & _) | (_ & -> & _)]);
    rewrite ?length_app, length_take; cbn [length]; lia.
Qed.

End Iteration.

(** ** Termination of the main loop *)

Section MainLoop.

Context (data : list Z) (channels end_ : Z) (uninit : Z -> Z * Z).

Lemma main_loop_returns (fuel : nat) :
  forall s,
    (Z.to_nat (end_ - cur s) < fuel)%nat ->
    main_loop data channels end_ uninit fuel s <> OutOfFuel.
Proof.
  induction fuel as [| fuel IH]; intros s Hfuel H; [lia |].
  cbn [main_loop] in H.
  destruct (Z.ltb_spec (cur s) end_) as [Hlt | Hge]; [| discriminate].
  apply bind_OutOfFuel in H as [H | (s' & Hs' & H)].
  - exact (loop_body_not_OutOfFuel _ _ _ _ _ H).
  - apply loop_body_cur in Hs'. revert H. apply IH. lia.
Qed.

Lemma main_loop_exit (fuel : nat) :
  forall s s',
    main_loop data channels end_ uninit fuel s = Ok s' -> end_ <= cur s'.
Proof.
  induction fuel as [| fuel IH]; intros s s' H; [discriminate |].
  cbn [main_loop] in H.
  destruct (Z.ltb_spec (cur s) end_) as [Hlt | Hge].
  - bind_inv H as s1 Hs1. exact (IH _ _ H).
  - inversion H; subst. exact Hge.
Qed.

Lemma main_loop_reachable (fuel : nat) :
  forall s0 s s',
    reachable data channels end_ uninit s0 s ->
    main_loop data channels end_ uninit fuel s = Ok s' ->
    reachable data channels end_ uninit s0 s'.
Proof.
  induction fuel as [| fuel IH]; intros s0 s s' Hr H; [discriminate |].
  cbn [main_loop] in H.
  destruct (Z.ltb_spec (cur s) end_) as [Hlt | Hge].
  - bind_inv H as s1 Hs1. apply (IH s0 s1); [| exact H].
    eapply reach_step; eassumption.
  - inversion H; subst. exact Hr.
Qed.

End MainLoop.

(** ** The channel allocator *)

Section Allocator.

Context (data : list Z) (channels end_ : Z) (uninit : Z -> Z * Z).

Lemma land_15_range (event : Z) : 0 <= event -> 0 <= Z.land event 15 < 16.
Proof.
  intros H. change 15 with (Z.ones 4). rewrite Z.land_ones by lia.
  apply Z.mod_pos_bound. lia.
Qed.

Lemma allocator_ok_step (s s' : locals) :
  allocator_ok s ->
  loop_body data channels end_ uninit s = Ok s' ->
  allocator_ok s' /\
  exists event,
    peek data (cur s) = Ok event /\ first_use_step (Z.land event 15) s s'.
Proof.
  intros (Hlen & H15 & Hcc0 & Hcc9 & Hmel) H.
  apply loop_body_inv in H
    as (event & vl & temp & cm & cc & m & d & dt
        & Hev & _ & Hal & _ & _ & _ & _ & ->).
  pose proof Hev as Hpeek.
  apply peek_inv in Hev as [_ Hev].
  pose proof (land_15_range event ltac:(lia)) as Hch.
  apply allocate_inv in Hal
    as (m0 & Hm0 & [(Hneg & _ & -> & ->) | (Hpos & _ & -> & ->)]);
    unfold allocator_ok, first_use_step;
    cbn [channelMap currentChannel].
  - apply local_at_inv in Hm0 as [_ Hm0].
    set (ch := Z.to_nat (Z.land event 15)) in *.
    assert (Hne : ch <> 15%nat)
      by (intros E; rewrite E, H15 in Hm0; inversion Hm0; lia).
    assert (Hlt : melodic ch) by (unfold melodic, ch; lia).
    destruct (Hmel ch m0 Hlt Hm0) as [-> | [Hr _]]; [| lia].
    fold (skip9 (currentChannel s)).
    assert (Hs : currentChannel s < skip9 (currentChannel s)
                 /\ skip9 (currentChannel s) <> 9).
    { unfold skip9. destruct (Z.eqb_spec (currentChannel s + 1) 9); lia. }
    split; [split; [| split; [| split; [| split]]] |].
    + rewrite length_insert. exact Hlen.
    + rewrite list_lookup_insert_ne by exact Hne. exact H15.
    + lia.
    + lia.
    + intros c mc Hc Hlk.
      destruct (Nat.eq_dec ch c) as [<- | Hcne].
      * rewrite list_lookup_insert_eq in Hlk by lia.
        inversion Hlk; subst. right. lia.
      * rewrite list_lookup_insert_ne in Hlk by exact Hcne.
        destruct (Hmel c mc Hc Hlk) as [-> | [Hr Hn]]; [now left |].
        right. lia.
    + exists event. split; [exact Hpeek |]. exists (-1).
      split; [exact Hm0 |]. split; reflexivity.
  - split; [repeat split; assumption |].
    exists event. split; [exact Hpeek |].
    apply local_at_inv in Hm0 as [_ Hm0]. exists m0.
    split; [exact Hm0 |].
    destruct (Z.ltb_spec m0 0); [lia |]. split; reflexivity.
Qed.

Lemma allocator_ok_initial (header : MUSheader) (c : mus_ctx) :
  allocator_ok (initial_locals header c).
Proof.
  unfold allocator_ok, initial_locals. cbn [channelMap currentChannel].
  repeat split; try (vm_compute; congruence).
  intros c0 m Hc Hlk. left. unfold melodic in Hc.
  do 15 (destruct c0 as [| c0]; [vm_compute in Hlk; congruence |]). lia.
Qed.

Lemma allocator_ok_reachable (s0 s : locals) :
  allocator_ok s0 ->
  reachable data channels end_ uninit s0 s ->
  allocator_ok s.
Proof.
  intros H0 Hr. induction Hr as [| s s' Hr IH Hlt Hstep]; [exact H0 |].
  exact (proj1 (allocator_ok_step s s' IH Hstep)).
Qed.

End Allocator.

(** ** The sink through a translation *)

Lemma u32_small (z : Z) : 0 <= z < 2 ^ 32 -> u32 z = z.
Proof. intros H. unfold u32. apply Z.mod_small. exact H. Qed.

Lemma write_prelude_run (fuel : nat) (sp ss : Z) :
  write_prelude (S fuel)
    (MusCtx sp ss (replicate (Z.to_nat DST_CHUNK) 0) 0 DST_CHUNK DST_CHUNK)
  = Ok (MusCtx sp ss (prelude_bytes ++ replicate (Z.to_nat 8159) 0) 33 DST_CHUNK 8159,
        MIDIHEADERSIZE, MIDIHEADERSIZE + 4).
Proof. vm_compute. reflexivity. Qed.

Lemma sink_ok_prelude (sp ss room : Z) :
  0 <= room -> DST_CHUNK + room <= LIMIT ->
  sink_ok room (MusCtx sp ss (prelude_bytes ++ replicate (Z.to_nat 8159) 0) 33 DST_CHUNK 8159).
Proof.
  intros H0 H1. unfold sink_ok. cbn [dst_ptr dstsize dst].
  repeat split; try assumption; try (unfold DST_CHUNK; lia).
  rewrite length_app, length_replicate. simpl. lia.
Qed.

Lemma sink_ok_less (room room' : Z) (c : mus_ctx) :
  sink_ok room c -> 0 <= room' <= room -> sink_ok room' c.
Proof. unfold sink_ok. intros (? & ? & ? & ? & ? & ?) ?. repeat split; try assumption; lia. Qed.

Lemma LIMIT_u32 : LIMIT + STEP < 2 ^ 32.
Proof. vm_compute. reflexivity. Qed.

(** [grow_if] on a sink with a chunk of room: the cursor and the prelude
    stay, [dstsize] grows by at most a chunk. *)
Lemma grow_if_sink (room need : Z) (c : mus_ctx) :
  sink_ok room c -> DST_CHUNK <= room ->
  let c1 := grow_if c need in
  dst_ptr c1 = dst_ptr c /\
  dstsize c <= dstsize c1 <= dstsize c + DST_CHUNK /\
  (33 <= length (dst c1))%nat /\ take 33 (dst c1) = prelude_bytes.
Proof.
  intros (Hp & Hsz & Hr & Hlim & Hlen & Hpre) Hroom. unfold grow_if.
  pose proof LIMIT_u32 as HL. unfold STEP, DST_CHUNK in *.
  destruct (dstrem c <? need); cbn zeta.
  - unfold resize_dst, realloc, DST_CHUNK. cbn [set_sink dst_ptr dstsize dst].
    rewrite !u32_small by lia. rewrite length_resize.
    repeat split; try lia.
    rewrite take_resize_le by lia. rewrite resize_le by lia. exact Hpre.
  - repeat split; try assumption; lia.
Qed.

Lemma flush_sink (room : Z) (c c' : mus_ctx) (temp : list Z) :
  sink_ok room c -> STEP <= room -> (length temp <= 16)%nat ->
  flush c temp = Ok c' ->
  sink_ok (room - STEP) c'.
Proof.
  intros Hok Hroom Hlen H. unfold flush in H.
  destruct (Z.eqb_spec (Z.of_nat (length temp)) 0) as [Hz | Hnz].
  { inversion H; subst. eapply sink_ok_less; [exact Hok |].
    unfold STEP, DST_CHUNK in *. lia. }
  bind_inv H as c2 H2. inversion H; subst; clear H.
  pose proof (grow_if_sink room (sizeof_temp_buffer * 32) c Hok
                ltac:(unfold STEP in Hroom; lia)) as (Hp1 & Hs1 & Hl1 & Hpre1).
  cbv zeta in Hp1, Hs1, Hl1, Hpre1.
  pose proof (length_poke_all _ _ _ H2) as Hl2.
  apply poke_all_inv in H2 as (Hp2 & Hs2 & _ & _ & _ & Hd2).
  destruct Hok as (Hp & Hsz & Hr & Hlim & Hlen0 & Hpre).
  pose proof LIMIT_u32 as HL. unfold STEP, DST_CHUNK in *.
  unfold sink_ok. cbn [set_sink dst_ptr dstsize dst].
  rewrite Hs2, u32_small by lia.
  repeat split; try lia.
  rewrite Hd2. rewrite take_app_le by (rewrite length_take; lia).
  rewrite take_take. replace (33 `min` Z.to_nat (dst_ptr (grow_if c (sizeof_temp_buffer * 32))))%nat
    with 33%nat by lia.
  exact Hpre1.
Qed.

Section SinkLoop.

Context (data : list Z) (channels end_ : Z) (uninit : Z -> Z * Z).

Lemma main_loop_sink (fuel : nat) :
  forall s s',
    sink_ok (STEP * Z.max 0 (end_ - cur s)) (ctx s) ->
    main_loop data channels end_ uninit fuel s = Ok s' ->
    sink_ok 0 (ctx s').
Proof.
  induction fuel as [| fuel IH]; intros s s' Hok H; [discriminate |].
  cbn [main_loop] in H.
  destruct (Z.ltb_spec (cur s) end_) as [Hlt | Hge].
  - bind_inv H as s1 Hs1.
    pose proof (loop_body_cur _ _ _ _ _ _ Hs1) as Hcur.
    apply loop_body_flush in Hs1 as (temp & Hfl & Hlen).
    apply (IH s1 s'); [| exact H].
    unfold STEP in *.
    eapply sink_ok_less;
      [eapply flush_sink; [exact Hok | | exact Hlen | exact Hfl] |];
      unfold STEP, DST_CHUNK; lia.
  - inversion H; subst.
    eapply sink_ok_less; [exact Hok |]. lia.
Qed.

End SinkLoop.

Lemma grow_to_enough (fuel : nat) (c : mus_ctx) (pos : Z) :
  pos <= dstsize c -> grow_to (S fuel) c pos = Ok c.
Proof.
  intros H. cbn [grow_to]. destruct (Z.ltb_spec (dstsize c) pos); [lia | reflexivity].
Qed.

(** The end of [mus2midi] on the sink the main loop leaves. *)
Lemma finish_inv (fuel : nat) (c c' : mus_ctx) :
  sink_ok 0 c ->
  finish fuel c MIDIHEADERSIZE (MIDIHEADERSIZE + 4) = Ok c' ->
  dst_ptr c' = dst_ptr c /\ dstsize c' = dst_ptr c /\
  dstrem c' = dstsize c - dst_ptr c /\
  take 22 (dst c') = take 18 prelude_bytes ++ be32_bytes (dst_ptr c - trackDataStart) /\
  drop 22 (dst c') = drop 22 (dst c).
Proof.
  intros (Hp & Hsz & _ & Hlim & Hlen & Hpre) H.
  pose proof LIMIT_u32 as HL. unfold STEP, DST_CHUNK in HL.
  destruct fuel as [| fuel]; [discriminate |].
  unfold finish, getdstpos in H.
  rewrite (u32_small (dst_ptr c)) in H by lia.
  unfold seekdst at 1 in H.
  rewrite grow_to_enough in H
    by (cbn [set_sink dstsize]; unfold MIDIHEADERSIZE; lia).
  cbn [bind] in H. bind_inv H as c3 H3.
  apply write4_inv in H3 as (c2 & H2 & ->).
  unfold grow_if in H2.
  cbn [set_dstrem set_sink dstrem dstsize dst dst_ptr] in H2.
  rewrite u32_small in H2 by (unfold MIDIHEADERSIZE; lia).
  destruct (Z.ltb_spec (dstsize c - (MIDIHEADERSIZE + 4)) 4) as [Hbad | _];
    [unfold MIDIHEADERSIZE in Hbad; lia |].
  apply poke_all_inv in H2 as (Hp2 & Hs2 & Hr2 & _ & _ & Hd2).
  cbn [set_dstrem set_sink dstrem dstsize dst dst_ptr length map]
    in Hp2, Hs2, Hr2, Hd2.
  unfold seekdst in H.
  rewrite grow_to_enough in H
    by (cbn [set_dstrem set_sink dstsize]; rewrite Hs2; lia).
  cbn [bind] in H. inversion H; subst; clear H.
  cbn [set_dstrem set_sink dstrem dstsize dst dst_ptr].
  rewrite Hs2, (u32_small (dst_ptr c)), (u32_small (dstsize c - dst_ptr c)) by lia.
  repeat split.
  - rewrite Hd2. change (Z.to_nat (MIDIHEADERSIZE + 4)) with 18%nat.
    rewrite app_assoc, take_app_length'
      by (rewrite length_app, length_take; cbn [length]; lia).
    f_equal.
    + rewrite <- Hpre, take_take. reflexivity.
    + rewrite (u32_small (dst_ptr c - MIDIHEADERSIZE - sizeof_MidiTrackChunk))
        by (unfold MIDIHEADERSIZE, sizeof_MidiTrackChunk; lia).
      unfold be32_bytes, trackDataStart, u8.
      rewrite !land_0xff, !Z.shiftr_div_pow2 by lia.
      rewrite !Z.mod_mod by lia.
      replace (dst_ptr c - MIDIHEADERSIZE - sizeof_MidiTrackChunk)
        with (dst_ptr c - (MIDIHEADERSIZE + sizeof_MidiTrackChunk)) by lia.
      reflexivity.
  - rewrite Hd2. change (Z.to_nat (MIDIHEADERSIZE + 4)) with 18%nat.
    rewrite app_assoc, drop_app_length'
      by (rewrite length_app, length_take; cbn [length]; lia).
    reflexivity.
Qed.

Lemma be32_be32_bytes (v : Z) : 0 <= v < 2 ^ 32 -> be32 (be32_bytes v) = v.
Proof.
  intros Hv. unfold be32, be32_bytes. cbn [fold_left].
  change (2 ^ 24) with 16777216. change (2 ^ 16) with 65536.
  change (2 ^ 8) with 256. change (2 ^ 32) with 4294967296 in Hv.
  dlia.
Qed.

Lemma read_header_inv (data : list Z) (header : MUSheader) :
  read_header data = Ok header ->
  0 <= scoreLen header <= 65535 /\ 0 <= scoreStart header <= 65535 /\
  0 <= channels header <= 65535.
Proof.
  unfold read_header. intros H.
  do 16 (destruct data as [| ? data]; [discriminate |]).
  inversion H; subst; clear H. cbn [scoreLen scoreStart channels].
  unfold le16, u8.
  repeat match goal with
    | |- context [?x mod 256] =>
        let Hx := fresh "Hx" in
        pose proof (Z.mod_pos_bound x 256 ltac:(lia)) as Hx;
        generalize dependent (x mod 256); intros
    end.
  lia.
Qed.

Lemma translate_unfold (fuel : nat) (uninit : Z -> Z * Z) (data : list Z)
  (header : MUSheader) (ctx0 : mus_ctx) :
  translate fuel uninit data header ctx0 =
  do pre <- write_prelude fuel ctx0;
  do s <- main_loop data (channels header)
            (scoreStart header + scoreLen header) uninit fuel
            (initial_locals header (fst (fst pre)));
  finish fuel (ctx s) (snd (fst pre)) (snd pre).
Proof.
  unfold translate. destruct (write_prelude fuel ctx0) as [[[c b] t] | |];
    reflexivity.
Qed.

Example read_header_scenario : read_header scenario = Ok scenario_header.
Proof. reflexivity. Qed.

(** What a completed [mus2midi] went through. *)
Lemma mus2midi_inv (fuel : nat) (uninit : Z -> Z * Z) (data : list Z) (c : mus_ctx) :
  mus2midi fuel uninit data = Ok (Some c) ->
  exists header s c1,
    read_header data = Ok header /\ channels header <= 15 /\
    sink_ok (STEP * scoreLen header) c1 /\
    main_loop data (channels header) (scoreStart header + scoreLen header)
      uninit fuel (initial_locals header c1) = Ok s /\
    sink_ok 0 (ctx s) /\
    finish fuel (ctx s) MIDIHEADERSIZE (MIDIHEADERSIZE + 4) = Ok c.
Proof.
  unfold mus2midi. intros H. bind_inv H as header Hh.
  destruct (Z.gtb_spec (channels header) (MIDI_MAXCHANNELS - 1)) as [| Hch];
    [discriminate |].
  bind_inv H as c' Ht. inversion H; subst; clear H.
  rewrite translate_unfold in Ht.
  bind_inv Ht as pre Hpre. destruct pre as [[c1 b] t].
  cbn [fst snd] in Ht. bind_inv Ht as s Hs.
  destruct fuel as [| fuel]; [discriminate Hs |].
  unfold fresh_ctx in Hpre.
  cbn [src_ptr srcsize dst dst_ptr dstsize dstrem] in Hpre.
  rewrite write_prelude_run in Hpre. inversion Hpre; subst; clear Hpre.
  pose proof (read_header_inv _ _ Hh) as (Hlen & Hstart & _).
  match type of Hs with
  | main_loop _ _ _ _ _ (initial_locals _ ?c1) = _ =>
      assert (Hok : sink_ok (STEP * scoreLen header) c1);
      [| exists header, s, c1]
  end.
  { apply sink_ok_prelude; unfold LIMIT, STEP, DST_CHUNK; lia. }
  split; [exact Hh |].
  split; [unfold MIDI_MAXCHANNELS in Hch; lia |].
  split; [exact Hok |]. split; [exact Hs |]. split; [| exact Ht].
  eapply main_loop_sink; [| exact Hs].
  cbn [initial_locals ctx cur].
  replace (scoreStart header + scoreLen header - scoreStart header)
    with (scoreLen header) by lia.
  rewrite Z.max_r by lia. exact Hok.
Qed.

Lemma write4_not_OutOfFuel (c : mus_ctx) (v : Z) : write4 c v <> OutOfFuel.
Proof.
  unfold write4. intros H.
  repeat (apply bind_OutOfFuel in H as [H | (? & _ & H)];
          [exact (poke_not_OutOfFuel _ _ H) |]).
  discriminate.
Qed.

Lemma finish_returns (fuel : nat) (c : mus_ctx) :
  sink_ok 0 c ->
  finish (S fuel) c MIDIHEADERSIZE (MIDIHEADERSIZE + 4) <> OutOfFuel.
Proof.
  intros (Hp & Hsz & _ & Hlim & Hlen & Hpre) H.
  pose proof LIMIT_u32 as HL. unfold STEP, DST_CHUNK in HL.
  unfold finish, getdstpos in H.
  rewrite (u32_small (dst_ptr c)) in H by lia.
  unfold seekdst at 1 in H.
  rewrite grow_to_enough in H
    by (cbn [set_sink dstsize]; unfold MIDIHEADERSIZE; lia).
  cbn [bind] in H.
  apply bind_OutOfFuel in H as [H | (c3 & H3 & H)];
    [exact (write4_not_OutOfFuel _ _ H) |].
  apply write4_inv in H3 as (c2 & H2 & ->).
  apply poke_all_inv in H2 as (_ & Hs2 & _).
  assert (Hsame : dstsize c2 = dstsize c).
  { rewrite Hs2. unfold grow_if.
    cbn [set_dstrem set_sink dstrem dstsize].
    rewrite u32_small by (unfold MIDIHEADERSIZE; lia).
    destruct (Z.ltb_spec (dstsize c - (MIDIHEADERSIZE + 4)) 4) as [Hbad | _];
      [unfold MIDIHEADERSIZE in Hbad; lia | reflexivity]. }
  unfold seekdst in H.
  rewrite grow_to_enough in H
    by (cbn [set_dstrem set_sink dstsize]; rewrite Hsame; lia).
  discriminate.
Qed.

(** No run of [mus2midi] is cut short once the fuel exceeds the longest
    score a header can declare. *)
Lemma mus2midi_fuel_enough (fuel : nat) (uninit : Z -> Z * Z) (data : list Z) :
  65535 < Z.of_nat fuel -> mus2midi fuel uninit data <> OutOfFuel.
Proof.
  intros Hfuel E. unfold mus2midi in E.
  apply bind_OutOfFuel in E as [E | (header & Hh & E)].
  { unfold read_header in E.
    do 16 (destruct data as [| ? data]; [discriminate |]). discriminate. }
  destruct (channels header >? MIDI_MAXCHANNELS - 1); [discriminate |].
  apply bind_OutOfFuel in E as [E | (c & _ & E)]; [| discriminate].
  rewrite translate_unfold in E.
  destruct fuel as [| fuel]; [lia |].
  unfold fresh_ctx in E. cbn [src_ptr srcsize dst dst_ptr dstsize dstrem] in E.
  rewrite write_prelude_run in E. cbn [bind fst snd] in E.
  pose proof (read_header_inv _ _ Hh) as (Hlen & Hstart & _).
  apply bind_OutOfFuel in E as [E | (s & Hs & E)].
  - revert E. apply main_loop_returns. cbn [initial_locals cur]. lia.
  - revert E. apply finish_returns.
    eapply main_loop_sink; [| exact Hs].
    cbn [initial_locals ctx cur].
    replace (scoreStart header + scoreLen header - scoreStart header)
      with (scoreLen header) by lia.
    rewrite Z.max_r by lia.
    apply sink_ok_prelude; unfold LIMIT, STEP, DST_CHUNK; lia.
Qed.

(** * The statements of the specification *)

(** ** The round-trip scenario *)

(** C1. On the scenario buffer (one channel; KeyOn on MUS channel 0, note
    60, explicit volume 100; End with no delta bytes) [mus2midi] succeeds
    with any fuel from 3 on, and the file it leaves is [scenario_midi]: after
    the tempo event the track holds delta 0 / controller 7 / 127 on MIDI
    channel 9, delta 0 / controller 7 / 127 on MIDI channel 0, delta 0 /
    0x90 0x3C 0x64, delta 0 / 0xFF 0x2F 0x00, and the length field of the
    track holds the number of bytes of the track data. *)
Theorem scenario_round_trip (extra : nat) (uninit : Z -> Z * Z) :
  exists c,
    mus2midi (3 + extra) uninit scenario = Ok (Some c) /\
    midi_bytes c (dstsize c) = scenario_midi /\
    drop (Z.to_nat trackDataStart) scenario_midi =
      [0x00; 0xff; 0x51; 0x03; 0x09; 0xa3; 0x1a]
      ++ [0x00; Z.lor 0xB0 9; 0x07; 127]
      ++ [0x00; Z.lor 0xB0 0; 0x07; 127]
      ++ [0x00; 0x90; 0x3C; 0x64]
      ++ [0x00; 0xFF; 0x2F; 0x00] /\
    be32 (take 4 (drop 18 scenario_midi)) =
      Z.of_nat (length (drop (Z.to_nat trackDataStart) scenario_midi)).
Proof.
  exists (MusCtx 16 20 (scenario_midi ++ replicate (Z.to_nat 8147) 0) 45 45 8159).
  split; [vm_compute; reflexivity |].
  split; [vm_compute; reflexivity |].
  split; vm_compute; reflexivity.
Qed.

(** ** The reported size *)

(** C2, at the scenario buffer: the translation completes with the write
    cursor at offset 45, the length of the file, and [mus_getmidisize]
    reports 4294959182: [dstrem] is left at 8159 when [dstsize] is
    corrected. *)
Theorem scenario_reported_size (extra : nat) (uninit : Z -> Z * Z) :
  exists c,
    mus2midi (3 + extra) uninit scenario = Ok (Some c) /\
    getdstpos c = 45 /\ dstsize c = 45 /\ dstrem c = 8159 /\
    mus_getmidisize c = 4294959182.
Proof.
  exists (MusCtx 16 20 (scenario_midi ++ replicate (Z.to_nat 8147) 0) 45 45 8159).
  split; [vm_compute; reflexivity |].
  repeat split; vm_compute; reflexivity.
Qed.

(** On every completed translation [dstsize] is the offset of the write
    cursor, and [mus_getmidisize] is not: [dstrem] keeps the room left in
    the sink, at least 8159. *)
Lemma mus_getmidisize_misses_cursor (fuel : nat) (uninit : Z -> Z * Z)
  (data : list Z) (c : mus_ctx) :
  mus2midi fuel uninit data = Ok (Some c) ->
  dstsize c = getdstpos c /\ 8159 <= dstrem c /\
  mus_getmidisize c <> getdstpos c.
Proof.
  intros H. apply mus2midi_inv in H
    as (header & s & c1 & _ & _ & _ & _ & Hok & Hfin).
  pose proof Hok as (Hp & Hsz & _ & Hlim & _ & _).
  apply finish_inv in Hfin as (Hptr & Hsize & Hrem & _ & _); [| exact Hok].
  pose proof LIMIT_u32 as HL. unfold STEP, DST_CHUNK in HL.
  unfold getdstpos, mus_getmidisize. rewrite Hptr, Hsize, Hrem.
  rewrite (u32_small (dst_ptr (ctx s))) by lia.
  split; [reflexivity |]. split; [lia |].
  unfold u32. intros E.
  assert (Hmod : (dst_ptr (ctx s) - (dstsize (ctx s) - dst_ptr (ctx s))
                  - dst_ptr (ctx s)) mod 2 ^ 32 = 0).
  { rewrite Zminus_mod, E, Z.mod_small with (a := dst_ptr (ctx s)) by lia.
    rewrite Z.sub_diag. reflexivity. }
  change (2 ^ 32) with 4294967296 in *. dlia.
Qed.

(** ** The track length *)

(** C7. On every completed translation the big-endian value in the four
    cells after the [MTrk] tag is the final length ([dstsize], the offset
    of the write cursor) less [trackDataStart], the offset just after
    that field, 8 cells past the start of the tag. *)
Theorem track_length_patched (fuel : nat) (uninit : Z -> Z * Z)
  (data : list Z) (c : mus_ctx) :
  mus2midi fuel uninit data = Ok (Some c) ->
  let finalLength := dstsize c in
  finalLength = getdstpos c /\
  take 4 (drop (Z.to_nat MIDIHEADERSIZE) (dst c))
    = [chr "M"; chr "T"; chr "r"; chr "k"] /\
  trackDataStart = MIDIHEADERSIZE + 8 /\
  be32 (take 4 (drop (Z.to_nat (MIDIHEADERSIZE + 4)) (dst c)))
    = finalLength - trackDataStart.
Proof.
  intros H. apply mus2midi_inv in H
    as (header & s & c1 & _ & _ & _ & _ & Hok & Hfin).
  pose proof Hok as (Hp & Hsz & _ & Hlim & _ & _).
  apply finish_inv in Hfin as (Hptr & Hsize & _ & Htake & _); [| exact Hok].
  pose proof LIMIT_u32 as HL. unfold STEP, DST_CHUNK in HL.
  cbv zeta. unfold getdstpos. rewrite Hptr, Hsize.
  rewrite (u32_small (dst_ptr (ctx s))) by lia.
  change (Z.to_nat MIDIHEADERSIZE) with 14%nat.
  change (Z.to_nat (MIDIHEADERSIZE + 4)) with 18%nat.
  assert (H14 : take 4 (drop 14 (dst c)) = take 4 (drop 14 (take 22 (dst c))))
    by (rewrite !take_drop_commute, take_take; reflexivity).
  assert (H18 : take 4 (drop 18 (dst c)) = take 4 (drop 18 (take 22 (dst c))))
    by (rewrite !take_drop_commute, take_take; reflexivity).
  rewrite H14, H18, Htake.
  repeat split.
  change (take 18 prelude_bytes) with (take 18 prelude_bytes ++ []).
  rewrite <- app_assoc, drop_app_length' by reflexivity.
  cbn [app]. unfold be32_bytes. cbn [take].
  apply be32_be32_bytes. unfold trackDataStart, MIDIHEADERSIZE, sizeof_MidiTrackChunk.
  change (2 ^ 32) with 4294967296 in *. lia.
Qed.

(** ** ChannelMode events *)

Section EventKinds.

Context (data : list Z) (channels end_ : Z) (uninit : Z -> Z * Z).

(** What the [switch] leaves for a ChannelMode event: the controller is
    looked up with the first payload cell, and the test against 12 is on
    the cell after it. *)
Lemma decode_channel_mode (event m : Z) (s : locals) (c : Z) (d : decoded) :
  Z.shiftr (Z.land event 122) 4 = MUSEVENT_CHANNELMODE ->
  decode_event data channels end_ uninit event m s c = Ok d ->
  exists b x,
    peek data c = Ok b /\ peek data (c + 1) = Ok x /\
    d_status d = Z.lor (u8 m) 0xB0 /\
    midimap_at b = Ok (d_bit1 d) /\
    d_bit2 d = (if x =? 12 then u8 (channels + 1) else 0) /\
    d_bitc d = 2 /\ d_cur d = c + 2.
Proof.
  intros Hk H. unfold decode_event in H. rewrite Hk in H.
  cbn [MUSEVENT_CHANNELMODE MUSEVENT_KEYOFF MUSEVENT_KEYON
       MUSEVENT_PITCHWHEEL Z.eqb Pos.eqb] in H.
  bind_inv H as b Hb. bind_inv H as b1 Hb1. bind_inv H as x Hx.
  inversion H; subst; clear H. cbn [d_status d_bit1 d_bit2 d_bitc d_cur].
  exists b, x. repeat split; assumption.
Qed.

(** An event of type 5 or 7 assigns nothing in the [switch]: the bytes
    written for it are the MIDI channel number left in [status] and the
    two indeterminate values of [bit1] and [bit2]. *)
Lemma decode_unknown (event m : Z) (s : locals) (c : Z) :
  Z.shiftr (Z.land event 122) 4 = 5 \/ Z.shiftr (Z.land event 122) 4 = 7 ->
  exists d,
    decode_event data channels end_ uninit event m s c = Ok d /\
    event_bytes d = [u8 m; fst (uninit (c - 1)); snd (uninit (c - 1))] /\
    d_cur d = c.
Proof.
  intros [Hk | Hk]; unfold decode_event; rewrite Hk;
    cbn [MUSEVENT_CHANNELMODE MUSEVENT_KEYOFF MUSEVENT_KEYON
         MUSEVENT_PITCHWHEEL MUSEVENT_CONTROLLERCHANGE MUSEVENT_END
         Z.eqb Pos.eqb];
    eexists; (split; [reflexivity |]); split; reflexivity.
Qed.

(** A controller index of 15 or more, in a ChannelMode event or in a
    ControllerChange event, is used as it is to index [midimap]. *)
Lemma decode_controller_out_of_bounds (event m : Z) (s : locals) (c b : Z) :
  Z.shiftr (Z.land event 122) 4 = MUSEVENT_CHANNELMODE \/
  Z.shiftr (Z.land event 122) 4 = MUSEVENT_CONTROLLERCHANGE ->
  peek data c = Ok b -> midimap_size <= b ->
  decode_event data channels end_ uninit event m s c
    = Undef (TableOutOfBounds b).
Proof.
  intros Hk Hb Hge.
  assert (Hat : midimap_at b = Undef (TableOutOfBounds b)).
  { unfold midimap_at. rewrite (proj2 (lookup_ge_None midimap (Z.to_nat b)));
      [reflexivity |]. unfold midimap_size in Hge. lia. }
  destruct Hk as [Hk | Hk]; unfold decode_event; rewrite Hk;
    cbn [MUSEVENT_CHANNELMODE MUSEVENT_KEYOFF MUSEVENT_KEYON
         MUSEVENT_PITCHWHEEL MUSEVENT_CONTROLLERCHANGE Z.eqb Pos.eqb];
    rewrite Hb; cbn [bind].
  - rewrite Hat. reflexivity.
  - destruct (Z.eqb_spec b 0) as [-> | _];
      [vm_compute in Hge; now destruct Hge |].
    rewrite Hat. reflexivity.
Qed.

End EventKinds.

(** C3, at [mono_score] (one channel; ChannelMode with controller 12;
    End): the event is emitted as 0xB0 0x7E 0x00.  The second data byte is
    0, not channels + 1 = 2: the test against 12 reads the cell after the
    controller index, here the End event byte 0x60, which is consumed with
    it, so that no End-of-track event follows. *)
Theorem mono_score_data2 (extra : nat) (uninit : Z -> Z * Z) :
  exists c,
    mus2midi (2 + extra) uninit mono_score = Ok (Some c) /\
    midimap_at 12 = Ok 0x7E /\
    drop 33 (midi_bytes c (dstsize c)) =
      [0x00; Z.lor 0xB0 0; 0x07; 127] ++ [0x00; Z.lor 0 0xB0; 0x7E; 0x00].
Proof.
  exists (MusCtx 16 19
            (midi_file (track_opening ++ [0; 0xB0; 7; 127; 0; 0xB0; 0x7E; 0])
               ++ replicate (Z.to_nat 8151) 0) 41 41 8159).
  split; [vm_compute; reflexivity |].
  split; vm_compute; reflexivity.
Qed.

(** ** Events of an unknown type *)

(** C4, at [unknown_score] (one channel; an event of type 5 on MUS channel
    0; End): after the volume event of the newly assigned channel, the
    iteration of the unknown event appends a delta time and three more
    bytes: the MIDI channel number 0 left in [status], and whatever
    [bit1] and [bit2] hold.  The End event follows. *)
Theorem unknown_event_bytes (extra : nat) (uninit : Z -> Z * Z) :
  exists c,
    mus2midi (3 + extra) uninit unknown_score = Ok (Some c) /\
    drop 33 (midi_bytes c (dstsize c)) =
      [0x00; Z.lor 0xB0 0; 0x07; 127]
      ++ [0x00; 0; u8 (fst (uninit 16)); u8 (snd (uninit 16))]
      ++ [0x00; 0xFF; 0x2F; 0x00].
Proof.
  exists (MusCtx 16 18
            (midi_file (track_opening
                        ++ [0; 0xB0; 7; 127;
                            0; 0; u8 (fst (uninit 16)); u8 (snd (uninit 16));
                            0; 0xFF; 0x2F; 0])
               ++ replicate (Z.to_nat 8147) 0) 45 45 8159).
  split; vm_compute; reflexivity.
Qed.

(** ** The controller table *)

(** C5, at [controller15_score] (one channel; ControllerChange with
    controller 15): the table has 15 entries, and the translation reads
    [midimap[15]], one entry past its end. *)
Theorem controller15_reads_past_midimap (extra : nat) (uninit : Z -> Z * Z) :
  midimap_size = 15 /\
  mus2midi (1 + extra) uninit controller15_score
    = Undef (TableOutOfBounds 15).
Proof. split; vm_compute; reflexivity. Qed.

(** ** The header check *)

(** C6. Once the header is read, [mus2midi] returns [NULL] exactly when
    the header declares more than 15 primary channels; it does so
    whatever the fuel, before any loop is entered, and a translation that
    goes on never ends in [NULL]. *)
Theorem too_many_channels (fuel : nat) (uninit : Z -> Z * Z) (data : list Z)
  (header : MUSheader) :
  read_header data = Ok header ->
  (mus2midi fuel uninit data = Ok None <-> MIDI_MAXCHANNELS - 1 < channels header).
Proof.
  intros Hh. unfold mus2midi. rewrite Hh. cbn [bind].
  destruct (Z.gtb_spec (channels header) (MIDI_MAXCHANNELS - 1)) as [Hgt | Hle].
  - split; [intros _; lia | reflexivity].
  - split; [| lia].
    destruct (translate _ _ _ _ _); discriminate.
Qed.

Lemma too_many_channels_witness :
  read_header sixteen_channels = Ok sixteen_channels_header /\
  (mus2midi 0 (fun _ => (0, 0)) sixteen_channels = Ok None
   <-> MIDI_MAXCHANNELS - 1 < channels sixteen_channels_header).
Proof.
  split; [reflexivity |].
  apply (too_many_channels 0 (fun _ => (0, 0)) sixteen_channels
           sixteen_channels_header).
  reflexivity.
Defined.

Lemma track_length_patched_witness :
  mus2midi 3 (fun _ => (0, 0)) scenario = Ok (Some scenario_ctx) /\
  (dstsize scenario_ctx = getdstpos scenario_ctx /\
   take 4 (drop (Z.to_nat MIDIHEADERSIZE) (dst scenario_ctx))
     = [chr "M"; chr "T"; chr "r"; chr "k"] /\
   trackDataStart = MIDIHEADERSIZE + 8 /\
   be32 (take 4 (drop (Z.to_nat (MIDIHEADERSIZE + 4)) (dst scenario_ctx)))
     = dstsize scenario_ctx - trackDataStart).
Proof.
  split; [vm_compute; reflexivity |].
  apply (track_length_patched 3 (fun _ => (0, 0)) scenario scenario_ctx).
  vm_compute. reflexivity.
Defined.

(** ** The variable-length quantity *)

(** C8. On every value of 28 bits [WriteVarLen] stores the standard MIDI
    variable-length quantity: the 7-bit groups of the value, the most
    significant first, every byte but the last with its high bit set;
    zero is the single byte 0x00; decoding the bytes gives the value
    back; and the count returned is the number of bytes stored. *)
Theorem WriteVarLen_standard_vlq (value : Z) :
  0 <= value < 2 ^ 28 ->
  exists bytes,
    WriteVarLen value = Ok (bytes, Z.of_nat (length bytes)) /\
    bytes = vlq_standard value /\
    Forall (fun b => Z.land b 0x80 = 0x80) (removelast bytes) /\
    Z.land (List.last bytes 0) 0x80 = 0 /\
    vlq_decode bytes 0 = Some (value, []) /\
    vlq_standard 0 = [0x00].
Proof.
  intros Hv. destruct (WriteVarLen_28 value Hv) as (bytes & H1 & H2 & H3 & H4 & H5).
  exists bytes. repeat split; assumption.
Qed.

Lemma WriteVarLen_standard_vlq_witness :
  0 <= 300 < 2 ^ 28 /\
  exists bytes,
    WriteVarLen 300 = Ok (bytes, Z.of_nat (length bytes)) /\
    bytes = vlq_standard 300 /\
    Forall (fun b => Z.land b 0x80 = 0x80) (removelast bytes) /\
    Z.land (List.last bytes 0) 0x80 = 0 /\
    vlq_decode bytes 0 = Some (300, []) /\
    vlq_standard 0 = [0x00].
Proof.
  split; [lia |]. apply (WriteVarLen_standard_vlq 300). lia.
Defined.

(** ** The channel map *)

(** C9. Before any event is processed MUS channel 15 is mapped to MIDI
    channel 9, no melodic channel is assigned and the counter is 0.  At
    every head of the main loop channel 15 still maps to 9, no melodic
    channel maps to 9, and every assigned melodic channel lies below the
    counter, which is never 9.  An iteration that completes on an event
    of a channel that is not assigned gives that channel, and no other,
    the counter, which is above every channel given before, and moves
    the counter to the next value that is not 9; on an event of an
    assigned channel it leaves the map and the counter as they are. *)
Theorem channel_allocation (data : list Z) (uninit : Z -> Z * Z)
  (header : MUSheader) (c1 : mus_ctx) (s : locals) :
  let end_ := scoreStart header + scoreLen header in
  let s0 := initial_locals header c1 in
  reachable data (channels header) end_ uninit s0 s ->
  (channelMap s0 !! 15%nat = Some 9 /\
   take 15 (channelMap s0) = replicate 15 (-1) /\
   currentChannel s0 = 0) /\
  allocator_ok s /\
  forall s',
    loop_body data (channels header) end_ uninit s = Ok s' ->
    exists event,
      peek data (cur s) = Ok event /\
      first_use_step (Z.land event 15) s s' /\
      currentChannel s <= currentChannel s' /\
      currentChannel s < skip9 (currentChannel s) /\
      skip9 (currentChannel s) <> 9.
Proof.
  intros end_ s0 Hr.
  split; [repeat split |].
  assert (Hok : allocator_ok s).
  { eapply allocator_ok_reachable; [| exact Hr]. apply allocator_ok_initial. }
  split; [exact Hok |].
  intros s' Hstep.
  destruct (allocator_ok_step data (channels header) end_ uninit s s' Hok Hstep)
    as (_ & event & Hev & Hfirst).
  assert (Hs : currentChannel s < skip9 (currentChannel s)
               /\ skip9 (currentChannel s) <> 9).
  { destruct Hok as (_ & _ & _ & Hcc9 & _). unfold skip9.
    destruct (Z.eqb_spec (currentChannel s + 1) 9); lia. }
  exists event. split; [exact Hev |]. split; [exact Hfirst |].
  split; [| exact Hs].
  destruct Hfirst as (m & _ & Hm).
  destruct (m <? 0); destruct Hm as [_ ->]; lia.
Qed.

Lemma iterate_reachable (data : list Z) (channels end_ : Z)
  (uninit : Z -> Z * Z) (s0 : locals) (n : nat) :
  forall s s',
    reachable data channels end_ uninit s0 s ->
    iterate data channels end_ uninit n s = Some s' ->
    reachable data channels end_ uninit s0 s'.
Proof.
  induction n as [| n IH]; intros s s' Hr H; cbn [iterate] in H.
  - inversion H; subst. exact Hr.
  - destruct (Z.ltb_spec (cur s) end_) as [Hlt |]; [| discriminate].
    destruct (loop_body data channels end_ uninit s) as [s1 | |] eqn:Hs1;
      try discriminate.
    apply (IH s1 s'); [| exact H]. eapply reach_step; eassumption.
Qed.

Lemma ten_channels_ninth_reachable :
  reachable ten_channels 10 36 (fun _ => (0, 0))
    (first_locals ten_channels ten_channels_header) ten_channels_ninth.
Proof.
  apply (iterate_reachable _ _ _ _ _ 9 _ _ (reach_start _ _ _ _ _)).
  vm_compute. reflexivity.
Qed.

Lemma channel_allocation_witness :
  reachable ten_channels 10 36 (fun _ => (0, 0))
    (first_locals ten_channels ten_channels_header) ten_channels_ninth /\
  (channelMap (first_locals ten_channels ten_channels_header) !! 15%nat
     = Some 9 /\
   take 15 (channelMap (first_locals ten_channels ten_channels_header))
     = replicate 15 (-1) /\
   currentChannel (first_locals ten_channels ten_channels_header) = 0) /\
  allocator_ok ten_channels_ninth /\
  forall s',
    loop_body ten_channels 10 36 (fun _ => (0, 0)) ten_channels_ninth = Ok s' ->
    exists event,
      peek ten_channels (cur ten_channels_ninth) = Ok event /\
      first_use_step (Z.land event 15) ten_channels_ninth s' /\
      currentChannel ten_channels_ninth <= currentChannel s' /\
      currentChannel ten_channels_ninth
        < skip9 (currentChannel ten_channels_ninth) /\
      skip9 (currentChannel ten_channels_ninth) <> 9.
Proof.
  split; [exact ten_channels_ninth_reachable |].
  apply (channel_allocation ten_channels (fun _ => (0, 0)) ten_channels_header
           (prelude_ctx (u32 (Z.of_nat (length ten_channels))))
           ten_channels_ninth).
  exact ten_channels_ninth_reachable.
Defined.

(** ** Termination *)

(** C10. On any buffer and from any locals, a run of the main loop that
    meets no undefined behaviour ends after at most [end - cur]
    iterations, with [cur] no longer below [end]: fuel above that
    distance is never used up.  Every iteration that completes leaves
    [cur] at least one cell further. *)
Theorem main_loop_terminates (data : list Z) (channels end_ : Z)
  (uninit : Z -> Z * Z) (s : locals) (extra : nat) :
  let fuel := (S (Z.to_nat (end_ - cur s)) + extra)%nat in
  (forall f, main_loop data channels end_ uninit fuel s <> Undef f) ->
  (exists s',
     main_loop data channels end_ uninit fuel s = Ok s' /\
     end_ <= cur s' /\
     reachable data channels end_ uninit s s') /\
  (forall s1 s2,
     loop_body data channels end_ uninit s1 = Ok s2 -> cur s1 + 1 <= cur s2).
Proof.
  intros fuel Hdef.
  pose proof (main_loop_returns data channels end_ uninit fuel s
                ltac:(unfold fuel; lia)) as Hret.
  split; [| intros s1 s2; apply loop_body_cur].
  destruct (main_loop data channels end_ uninit fuel s) as [s' | f |] eqn:E.
  - exists s'. split; [reflexivity |].
    split; [eapply main_loop_exit; exact E |].
    eapply main_loop_reachable; [apply reach_start | exact E].
  - destruct (Hdef f). reflexivity.
  - destruct Hret. reflexivity.
Qed.

Lemma main_loop_terminates_witness :
  (exists s',
     main_loop scenario 1 20 (fun _ => (0, 0))
       (S (Z.to_nat (20 - cur scenario_first)) + 0) scenario_first = Ok s' /\
     20 <= cur s' /\
     reachable scenario 1 20 (fun _ => (0, 0)) scenario_first s') /\
  (forall s1 s2,
     loop_body scenario 1 20 (fun _ => (0, 0)) s1 = Ok s2 ->
     cur s1 + 1 <= cur s2).
Proof.
  apply (main_loop_terminates scenario 1 20 (fun _ => (0, 0)) scenario_first 0).
  intros f H. vm_compute in H. discriminate H.
Defined.

(** On [long_delta] the first iteration of the main loop overflows the
    [int] that holds the delta time. *)
Lemma long_delta_iteration (uninit : Z -> Z * Z) :
  loop_body long_delta 1 23 uninit (first_locals long_delta long_delta_header)
  = Undef SignedOverflow.
Proof. vm_compute. reflexivity. Qed.

(** C10, as stated for every score, fails on [long_delta], a buffer with
    a well-formed header: whatever the fuel and the uninitialised locals,
    the run of the main loop meets undefined behaviour in its first
    iteration, where [delta_time * 128] leaves the range of [int], and
    never reaches the exit of the loop. *)
Lemma long_delta_overflows :
  read_header long_delta = Ok long_delta_header /\
  (forall uninit fuel,
     main_loop long_delta 1 23 uninit (S fuel)
       (first_locals long_delta long_delta_header) = Undef SignedOverflow) /\
  (forall uninit fuel s',
     main_loop long_delta 1 23 uninit fuel
       (first_locals long_delta long_delta_header) <> Ok s').
Proof.
  assert (H : forall uninit fuel,
             main_loop long_delta 1 23 uninit (S fuel)
               (first_locals long_delta long_delta_header)
             = Undef SignedOverflow).
  { intros uninit fuel. cbn [main_loop]. rewrite long_delta_iteration.
    reflexivity. }
  split; [reflexivity |]. split; [exact H |].
  intros uninit [| fuel] s' E; [discriminate E |].
  rewrite H in E. discriminate E.
Qed.

(** * Further properties of [mus.c] *)

(** ** [WriteVarLen] beyond 28 bits *)

Lemma vlq_decode_hi_groups (n : nat) :
  forall w tl,
    0 <= w < 128 ^ Z.of_nat n ->
    vlq_decode (hi_groups n w ++ tl) 0 = vlq_decode tl w.
Proof.
  induction n as [| n IH]; intros w tl Hw.
  - simpl in *. replace w with 0 by lia. reflexivity.
  - cbn [hi_groups]. destruct (Z.gtb_spec w 0) as [Hpos | Hz].
    + rewrite Nat2Z.inj_succ, Z.pow_succ_r in Hw by lia.
      pose proof (Z.mod_pos_bound w 128 ltac:(lia)) as Hg.
      rewrite <- app_assoc, IH by dlia.
      cbn [app]. rewrite vlq_decode_more by lia. f_equal. dlia.
    + replace w with 0 by lia. reflexivity.
Qed.

Lemma read_delta_hi_groups (n : nat) :
  forall w tl off,
    0 <= w < 128 ^ Z.of_nat n -> w <= INT_MAX ->
    read_delta (hi_groups n w ++ tl) 0 off
      = read_delta tl w (off + Z.of_nat (length (hi_groups n w))).
Proof.
  induction n as [| n IH]; intros w tl off Hw Hmax.
  - simpl in *. replace w with 0 by lia. now rewrite Z.add_0_r.
  - cbn [hi_groups]. destruct (Z.gtb_spec w 0) as [Hpos | Hz].
    + rewrite Nat2Z.inj_succ, Z.pow_succ_r in Hw by lia.
      pose proof (Z.mod_pos_bound w 128 ltac:(lia)) as Hg.
      rewrite <- app_assoc, IH by dlia.
      cbn [app read_delta]. unfold INT_MAX in Hmax.
      unfold as_int, INT_MIN, INT_MAX.
      destruct (Z.leb_spec (- 2 ^ 31) (w / 128 * 128)); [| dlia].
      destruct (Z.leb_spec (w / 128 * 128) (2 ^ 31 - 1)); [| dlia].
      cbn [andb bind]. unfold u8.
      replace ((128 + w mod 128) mod 256) with (128 + w mod 128)
        by (symmetry; apply Z.mod_small; lia).
      rewrite land_0x7f.
      replace ((128 + w mod 128) mod 128) with (w mod 128)
        by (apply Z.mod_unique with (q := 1); lia).
      replace (w / 128 * 128 + w mod 128) with w by dlia.
      destruct (Z.leb_spec (- 2 ^ 31) w); [| lia].
      destruct (Z.leb_spec w (2 ^ 31 - 1)); [| lia].
      cbn [andb bind].
      change 128 with 0x80 at 1. rewrite land_0x80_set by lia.
      change (0x80 =? 0) with false. cbv iota.
      f_equal. rewrite length_app. simpl length. lia.
    + replace w with 0 by lia. simpl. now rewrite Z.add_0_r.
Qed.

(** X1. On every value below [2^56] (every non-negative [int] among
    them) [WriteVarLen] stores at most 8 bytes, returns their number, and
    the bytes decode back to the value. *)
Theorem WriteVarLen_round_trip (value : Z) :
  0 <= value < 2 ^ 56 ->
  exists bytes,
    WriteVarLen value = Ok (bytes, Z.of_nat (length bytes)) /\
    (length bytes <= 8)%nat /\
    vlq_decode bytes 0 = Some (value, []).
Proof.
  intros Hv.
  pose proof (WriteVarLen_groups 7 value ltac:(lia) ltac:(exact Hv)) as Hrun.
  cbv zeta in Hrun. eexists. split; [exact Hrun |].
  pose proof (Z.mod_pos_bound value 128 ltac:(lia)) as Hg.
  split.
  - rewrite length_app. pose proof (hi_groups_length 7 (value / 128)).
    cbn [length]. lia.
  - rewrite vlq_decode_hi_groups
      by (change (128 ^ Z.of_nat 7) with (2 ^ 49);
          change (2 ^ 56) with (2 ^ 49 * 128) in Hv; dlia).
    rewrite vlq_decode_last by lia. f_equal. f_equal. dlia.
Qed.

Lemma WriteVarLen_round_trip_witness :
  0 <= 2147483647 < 2 ^ 56 /\
  exists bytes,
    WriteVarLen 2147483647 = Ok (bytes, Z.of_nat (length bytes)) /\
    (length bytes <= 8)%nat /\
    vlq_decode bytes 0 = Some (2147483647, []).
Proof.
  split; [lia |]. apply (WriteVarLen_round_trip 2147483647). lia.
Defined.

(** The first loop of [WriteVarLen] on a value of more than [n + 1]
    groups, with a buffer that [n + 1] more bytes overflow. *)
Lemma varlen_pack_overflow (n : nat) :
  forall fuel v buffer,
    (n < fuel)%nat -> 128 ^ (Z.of_nat n + 1) <= v -> 0 <= buffer ->
    LONG_MAX < (buffer * 256 + 128) * 256 ^ Z.of_nat n ->
    varlen_pack fuel v buffer = Undef SignedOverflow.
Proof.
  induction n as [| n IH]; intros fuel v buffer Hfuel Hv Hb Hbig;
    (destruct fuel as [| fuel]; [lia |]);
    rewrite varlen_pack_S, Z.shiftr_div_pow2 by lia;
    change (2 ^ 7) with 128.
  - change (128 ^ (Z.of_nat 0 + 1)) with 128 in Hv.
    change (256 ^ Z.of_nat 0) with 1 in Hbig.
    destruct (Z.gtb_spec (v / 128) 0); [| dlia].
    unfold as_long at 1.
    destruct (_ && _); [| reflexivity]. cbn [bind].
    rewrite Z.shiftl_mul_pow2 by lia. change (2 ^ 8) with 256.
    unfold as_long at 1.
    destruct (Z.leb_spec (buffer * 256 + 128) LONG_MAX); [lia |].
    rewrite andb_false_r. reflexivity.
  - assert (Hp : 0 < 256 ^ Z.of_nat n) by (apply Z.pow_pos_nonneg; lia).
    assert (Hq : 0 < 128 ^ (Z.of_nat n + 1)) by (apply Z.pow_pos_nonneg; lia).
    replace (Z.of_nat (S n) + 1) with (Z.succ (Z.of_nat n + 1)) in Hv by lia.
    rewrite Z.pow_succ_r in Hv by lia.
    rewrite Nat2Z.inj_succ, Z.pow_succ_r in Hbig by lia.
    assert (Hw : 128 ^ (Z.of_nat n + 1) <= v / 128)
      by (apply Z.div_le_lower_bound; lia).
    destruct (Z.gtb_spec (v / 128) 0); [| lia].
    destruct (as_long (Z.shiftl buffer 8)) as [b1 | f1 |] eqn:E1;
      [| unfold as_long in E1; destruct (_ && _); inversion E1; reflexivity
       | now apply as_long_not_OutOfFuel in E1].
    apply as_long_inv in E1 as [-> _]. cbn [bind].
    destruct (as_long (Z.shiftl buffer 8 + 128)) as [b2 | f2 |] eqn:E2;
      [| unfold as_long in E2; destruct (_ && _); inversion E2; reflexivity
       | now apply as_long_not_OutOfFuel in E2].
    apply as_long_inv in E2 as [-> _]. cbn [bind].
    destruct (as_long (Z.shiftl buffer 8 + 128 + Z.land (v / 128) 127))
      as [b3 | f3 |] eqn:E3;
      [| unfold as_long in E3; destruct (_ && _); inversion E3; reflexivity
       | now apply as_long_not_OutOfFuel in E3].
    apply as_long_inv in E3 as [-> _]. cbn [bind].
    rewrite Z.shiftl_mul_pow2, land_0x7f in * by lia.
    change (2 ^ 8) with 256 in *.
    pose proof (Z.mod_pos_bound (v / 128) 128 ltac:(lia)) as Hg.
    apply IH; [lia | exact Hw | lia | nia].
Qed.

(** X2. From [2^56] on, the packed bytes no longer fit the [long] that
    [WriteVarLen] builds them in: the shifts overflow. *)
Theorem WriteVarLen_overflow (value : Z) :
  2 ^ 56 <= value -> WriteVarLen value = Undef SignedOverflow.
Proof.
  intros Hv. unfold WriteVarLen. rewrite land_0x7f.
  pose proof (Z.mod_pos_bound value 128 ltac:(lia)) as Hg.
  rewrite (varlen_pack_overflow 7); [reflexivity | unfold long_bits; lia | | lia |].
  - exact Hv.
  - unfold LONG_MAX. change (256 ^ Z.of_nat 7) with (2 ^ 56).
    change (2 ^ 63) with (128 * 2 ^ 56).
    assert (0 < 2 ^ 56) by lia. nia.
Qed.

Lemma WriteVarLen_overflow_witness :
  2 ^ 56 <= 2 ^ 56 /\ WriteVarLen (2 ^ 56) = Undef SignedOverflow.
Proof.
  split; [lia |]. apply (WriteVarLen_overflow (2 ^ 56)). lia.
Defined.

(** X3. A value below 128, a negative one included, is stored as the one
    byte [value & 0x7f]: the first loop is not entered. *)
Theorem WriteVarLen_one_byte (value : Z) :
  value < 128 -> WriteVarLen value = Ok ([Z.land value 0x7f], 1).
Proof.
  intros Hv. unfold WriteVarLen, long_bits.
  rewrite varlen_pack_S, Z.shiftr_div_pow2 by lia. change (2 ^ 7) with 128.
  destruct (Z.gtb_spec (value / 128) 0); [dlia |]. cbn [bind].
  rewrite land_0x7f.
  pose proof (Z.mod_pos_bound value 128 ltac:(lia)) as Hg.
  cbn [varlen_emit]. rewrite land_0x80_clear by lia.
  change (0 =? 0) with true. cbv iota. unfold u8.
  rewrite (Z.mod_small (value mod 128) 256) by lia. reflexivity.
Qed.

Lemma WriteVarLen_one_byte_witness :
  -1 < 128 /\ WriteVarLen (-1) = Ok ([Z.land (-1) 0x7f], 1).
Proof.
  split; [lia |]. apply (WriteVarLen_one_byte (-1)). lia.
Defined.

(** X4. The loop that reads a MUS delta time undoes [WriteVarLen]: on
    the bytes stored for a non-negative [int], followed by anything, it
    returns that value and stops just after them. *)
Theorem read_delta_WriteVarLen (value : Z) (rest : list Z) (off : Z) :
  0 <= value <= INT_MAX ->
  exists bytes count,
    WriteVarLen value = Ok (bytes, count) /\
    read_delta (bytes ++ rest) 0 off = Ok (value, off + count).
Proof.
  intros Hv. unfold INT_MAX in Hv.
  pose proof (WriteVarLen_groups 4 value ltac:(lia)
                ltac:(change (128 ^ (Z.of_nat 4 + 1)) with (2 ^ 35); lia))
    as Hrun.
  cbv zeta in Hrun. do 2 eexists. split; [exact Hrun |].
  pose proof (Z.mod_pos_bound value 128 ltac:(lia)) as Hg.
  rewrite <- app_assoc.
  rewrite read_delta_hi_groups
    by (unfold INT_MAX; change (128 ^ Z.of_nat 4) with (2 ^ 28); dlia).
  cbn [app read_delta]. unfold as_int, INT_MIN, INT_MAX.
  destruct (Z.leb_spec (- 2 ^ 31) (value / 128 * 128)); [| dlia].
  destruct (Z.leb_spec (value / 128 * 128) (2 ^ 31 - 1)); [| dlia].
  cbn [andb bind]. unfold u8.
  rewrite (Z.mod_small (value mod 128) 256) by lia.
  rewrite land_0x7f, Z.mod_mod by lia.
  replace (value / 128 * 128 + value mod 128) with value by dlia.
  destruct (Z.leb_spec (- 2 ^ 31) value); [| lia].
  destruct (Z.leb_spec value (2 ^ 31 - 1)); [| lia].
  cbn [andb bind].
  change 128 with 0x80 at 1. rewrite land_0x80_clear by lia.
  change (0 =? 0) with true. cbv iota.
  f_equal. f_equal. rewrite length_app. cbn [length]. lia.
Qed.

Lemma read_delta_WriteVarLen_witness :
  0 <= 1000 <= INT_MAX /\
  exists bytes count,
    WriteVarLen 1000 = Ok (bytes, count) /\
    read_delta (bytes ++ [0x10; 0x3C]) 0 7 = Ok (1000, 7 + count).
Proof.
  split; [unfold INT_MAX; lia |].
  apply (read_delta_WriteVarLen 1000 [0x10; 0x3C] 7). unfold INT_MAX. lia.
Defined.

(** ** The [switch] on the event type *)

(** A check of all 256 values of a byte. *)
Lemma byte_cases (P : Z -> bool) :
  forallb P (map Z.of_nat (seq 0 256)) = true ->
  forall b, 0 <= b < 256 -> P b = true.
Proof.
  intros H b Hb. rewrite forallb_forall in H. apply H.
  apply in_map_iff. exists (Z.to_nat b). split; [lia |].
  apply in_seq. lia.
Qed.

Lemma event_kind_bits (event : Z) :
  0 <= event < 256 -> Z.shiftr (Z.land event 122) 4 = (event / 16) mod 8.
Proof.
  intros H. apply Z.eqb_eq.
  apply (byte_cases (fun e => Z.shiftr (Z.land e 122) 4 =? (e / 16) mod 8));
    [vm_compute; reflexivity | exact H].
Qed.

Section Switch.

Context (data : list Z) (channels end_ : Z) (uninit : Z -> Z * Z).

(** X5. What the [switch] does depends on bits 4 to 6 of the event byte
    alone: bits 1 and 3, which the mask 122 lets through, are shifted
    out, and bit 7 and the channel bits are not looked at. *)
Theorem decode_event_type_bits (event event' m : Z) (s : locals) (c : Z) :
  0 <= event < 256 -> 0 <= event' < 256 ->
  (event / 16) mod 8 = (event' / 16) mod 8 ->
  decode_event data channels end_ uninit event m s c
    = decode_event data channels end_ uninit event' m s c.
Proof.
  intros He He' Hk. unfold decode_event.
  rewrite (event_kind_bits event He), (event_kind_bits event' He'), Hk.
  reflexivity.
Qed.

(** X6. A PitchWheel event is written with status [0xE0 | channel], a
    first data byte that is always 0 and a second one that is half the
    payload byte. *)
Theorem decode_pitch_wheel (event m : Z) (s : locals) (c : Z) (d : decoded) :
  Z.shiftr (Z.land event 122) 4 = MUSEVENT_PITCHWHEEL ->
  decode_event data channels end_ uninit event m s c = Ok d ->
  exists b,
    peek data c = Ok b /\
    event_bytes d = [Z.lor (u8 m) 0xE0; 0; b / 2] /\
    d_cur d = c + 1.
Proof.
  intros Hk H. unfold decode_event in H. rewrite Hk in H.
  cbn [MUSEVENT_PITCHWHEEL MUSEVENT_KEYOFF MUSEVENT_KEYON Z.eqb Pos.eqb] in H.
  bind_inv H as b Hb. inversion H; subst; clear H.
  exists b. split; [exact Hb |].
  apply peek_inv in Hb as [_ Hb].
  unfold event_bytes. cbn [d_status d_bit1 d_bit2 d_bitc d_cur].
  change (2 =? 2) with true. cbv iota. cbn [app].
  split; [| reflexivity]. f_equal. f_equal.
  - change 1 with (Z.ones 1). rewrite Z.land_ones, Z.shiftr_div_pow2 by lia.
    change (2 ^ 1) with 2. change (2 ^ 6) with 64. dlia.
  - f_equal. rewrite land_0x7f, Z.shiftr_div_pow2 by lia.
    change (2 ^ 1) with 2. dlia.
Qed.

(** X7. A KeyOn with the volume bit stores the volume byte in the cache
    of its MIDI channel and plays it; a later KeyOn on that channel
    without the volume bit plays the same volume and leaves the cache as
    it is. *)
Theorem keyon_volume_cached (ev1 ev2 m : Z) (s1 s2 : locals) (c1 c2 b1 b2 : Z)
  (d1 d2 : decoded) :
  Z.shiftr (Z.land ev1 122) 4 = MUSEVENT_KEYON ->
  Z.shiftr (Z.land ev2 122) 4 = MUSEVENT_KEYON ->
  peek data c1 = Ok b1 -> Z.land b1 128 <> 0 ->
  decode_event data channels end_ uninit ev1 m s1 c1 = Ok d1 ->
  channel_volume s2 = d_volume d1 ->
  peek data c2 = Ok b2 -> Z.land b2 128 = 0 ->
  decode_event data channels end_ uninit ev2 m s2 c2 = Ok d2 ->
  peek data (c1 + 1) = Ok (d_bit2 d1) /\
  d_bit2 d2 = d_bit2 d1 /\ d_volume d2 = d_volume d1.
Proof.
  intros Hk1 Hk2 Hb1 Hv1 H1 Hvol Hb2 Hv2 H2.
  unfold decode_event in H1, H2. rewrite Hk1 in H1. rewrite Hk2 in H2.
  cbn [MUSEVENT_KEYOFF MUSEVENT_KEYON Z.eqb Pos.eqb] in H1, H2.
  rewrite Hb1 in H1. rewrite Hb2 in H2. cbn [bind] in H1, H2.
  rewrite Hv2 in H2. change (0 =? 0) with true in H2. cbv iota in H2.
  destruct (Z.eqb_spec (Z.land b1 128) 0) as [E | _]; [contradiction |].
  bind_inv H1 as x Hx. bind_inv H1 as vol Hset. bind_inv H1 as v Hat.
  inversion H1; subst; clear H1. cbn [d_bit2 d_volume] in *.
  bind_inv H2 as v2 Hat2. inversion H2; subst; clear H2.
  cbn [d_bit2 d_volume].
  assert (v2 = v) by congruence. subst v2.
  apply local_set_inv in Hset as [Hm Hset].
  apply local_at_inv in Hat as [_ Hat].
  rewrite Hset, list_lookup_insert_eq in Hat by lia.
  inversion Hat; subst v.
  pose proof (peek_inv _ _ _ Hx) as [_ Hxr].
  unfold u8. rewrite Z.mod_small by lia.
  repeat split. exact Hx.
Qed.

(** X8. Before any volume has been given on a MIDI channel, a KeyOn
    without the volume bit plays volume 64. *)
Theorem keyon_default_volume (event m : Z) (s : locals) (c b : Z) :
  Z.shiftr (Z.land event 122) 4 = MUSEVENT_KEYON ->
  channel_volume s = initial_channel_volume ->
  0 <= m < MIDI_MAXCHANNELS ->
  peek data c = Ok b -> Z.land b 128 = 0 ->
  exists d,
    decode_event data channels end_ uninit event m s c = Ok d /\
    event_bytes d = [Z.lor (u8 m) 0x90; b; 0x40] /\
    d_volume d = initial_channel_volume.
Proof.
  intros Hk Hvol Hm Hb Hv. unfold decode_event. rewrite Hk.
  cbn [MUSEVENT_KEYOFF MUSEVENT_KEYON Z.eqb Pos.eqb].
  rewrite Hb. cbn [bind]. rewrite Hv. change (0 =? 0) with true. cbv iota.
  rewrite Hvol.
  assert (Hat : local_at initial_channel_volume m = Ok 0x40).
  { unfold local_at, MIDI_MAXCHANNELS in *.
    destruct (Z.ltb_spec m 0); [lia |].
    unfold initial_channel_volume.
    rewrite lookup_replicate_2 by (unfold MIDI_MAXCHANNELS; lia).
    reflexivity. }
  rewrite Hat. cbn [bind]. eexists. split; [reflexivity |].
  unfold event_bytes. cbn [d_status d_bit1 d_bit2 d_bitc d_volume].
  split; [| reflexivity].
  apply peek_inv in Hb as [_ Hb].
  rewrite land_0x80 in Hv. rewrite land_0x7f.
  rewrite Z.mod_small by dlia. reflexivity.
Qed.

End Switch.

Lemma decode_event_type_bits_witness :
  0 <= 0x10 < 256 /\ 0 <= 0x9A < 256 /\
  (0x10 / 16) mod 8 = (0x9A / 16) mod 8 /\
  decode_event [60] 1 1 (fun _ => (0, 0)) 0x10 0
      (initial_locals scenario_header (fresh_ctx 20)) 0
    = decode_event [60] 1 1 (fun _ => (0, 0)) 0x9A 0
        (initial_locals scenario_header (fresh_ctx 20)) 0.
Proof.
  split; [lia |]. split; [lia |]. split; [reflexivity |].
  apply (decode_event_type_bits [60] 1 1 (fun _ => (0, 0)) 0x10 0x9A);
    [lia | lia | reflexivity].
Defined.

Lemma decode_pitch_wheel_witness :
  exists b,
    peek [0xFF] 0 = Ok b /\
    event_bytes (Decoded 0xE3 0 127 2 1 initial_channel_volume [])
      = [Z.lor (u8 3) 0xE0; 0; b / 2] /\
    d_cur (Decoded 0xE3 0 127 2 1 initial_channel_volume []) = 0 + 1.
Proof.
  apply (decode_pitch_wheel [0xFF] 1 1 (fun _ => (0, 0)) 0x20 3
           (initial_locals scenario_header (fresh_ctx 20)) 0);
    reflexivity.
Defined.

Lemma keyon_volume_cached_witness :
  let d1 := Decoded 0x92 60 100 2 2 (<[2%nat := 100]> initial_channel_volume) [] in
  let d2 := Decoded 0x92 62 100 2 3 (<[2%nat := 100]> initial_channel_volume) [] in
  peek [0xBC; 100; 0x3E] (0 + 1) = Ok (d_bit2 d1) /\
  d_bit2 d2 = d_bit2 d1 /\ d_volume d2 = d_volume d1.
Proof.
  intros d1 d2.
  apply (keyon_volume_cached [0xBC; 100; 0x3E] 1 3 (fun _ => (0, 0))
           0x10 0x10 2
           (initial_locals scenario_header (fresh_ctx 20))
           (Locals (fresh_ctx 20) 2 0
              (<[2%nat := 100]> initial_channel_volume) initial_channelMap 0 [])
           0 2 0xBC 0x3E
           (Decoded 0x92 60 100 2 2 (<[2%nat := 100]> initial_channel_volume) [])
           (Decoded 0x92 62 100 2 3 (<[2%nat := 100]> initial_channel_volume) []));
    try reflexivity.
  vm_compute. discriminate.
Defined.

Lemma keyon_default_volume_witness :
  exists d,
    decode_event [0x3C] 1 1 (fun _ => (0, 0)) 0x10 0
      (initial_locals scenario_header (fresh_ctx 20)) 0 = Ok d /\
    event_bytes d = [Z.lor (u8 0) 0x90; 0x3C; 0x40] /\
    d_volume d = initial_channel_volume.
Proof.
  apply (keyon_default_volume [0x3C] 1 1 (fun _ => (0, 0)) 0x10 0
           (initial_locals scenario_header (fresh_ctx 20)) 0 0x3C);
    try reflexivity.
  unfold MIDI_MAXCHANNELS. lia.
Defined.

(** ** Buffers that are too short *)

Lemma main_loop_S (data : list Z) (channels end_ : Z) (uninit : Z -> Z * Z)
  (fuel : nat) (s : locals) :
  main_loop data channels end_ uninit (S fuel) s =
  if cur s <? end_ then
    do s' <- loop_body data channels end_ uninit s;
    main_loop data channels end_ uninit fuel s'
  else Ok s.
Proof. reflexivity. Qed.

(** What [mus2midi] comes to when the header passes its check: the
    prelude is written and the main loop is entered. *)
Lemma mus2midi_translates (fuel : nat) (uninit : Z -> Z * Z) (data : list Z)
  (header : MUSheader) :
  read_header data = Ok header -> channels header <= 15 ->
  mus2midi (S fuel) uninit data =
  do s <- main_loop data (channels header)
            (scoreStart header + scoreLen header) uninit (S fuel)
            (initial_locals header
               (MusCtx (0 + sizeof_MUSheader) (u32 (Z.of_nat (length data)))
                  (prelude_bytes ++ replicate (Z.to_nat 8159) 0) 33
                  DST_CHUNK 8159));
  do c <- finish (S fuel) (ctx s) MIDIHEADERSIZE (MIDIHEADERSIZE + 4);
  Ok (Some c).
Proof.
  intros Hh Hch. unfold mus2midi. rewrite Hh. cbn [bind].
  destruct (Z.gtb_spec (channels header) (MIDI_MAXCHANNELS - 1)) as [Hgt | _];
    [unfold MIDI_MAXCHANNELS in Hgt; lia |].
  rewrite translate_unfold. unfold fresh_ctx.
  cbn [src_ptr srcsize dst dst_ptr dstsize dstrem].
  rewrite write_prelude_run. cbn [bind fst snd].
  destruct (main_loop _ _ _ _ _ _); reflexivity.
Qed.

(** X9. [mus2midi] copies the 16 bytes of the header without looking at
    [size]: on a buffer of fewer than 16 bytes it reads past the end. *)
Theorem mus2midi_short_header (fuel : nat) (uninit : Z -> Z * Z) (data : list Z) :
  (length data < 16)%nat ->
  mus2midi fuel uninit data = Undef (OverRead (Z.of_nat (length data))).
Proof.
  intros Hlen. unfold mus2midi.
  assert (Hh : read_header data = Undef (OverRead (Z.of_nat (length data)))).
  { unfold read_header.
    do 16 (destruct data as [| ? data]; [reflexivity |]).
    simpl in Hlen. lia. }
  rewrite Hh. reflexivity.
Qed.

Lemma mus2midi_short_header_witness :
  (length (take 4 scenario) < 16)%nat /\
  mus2midi 0 (fun _ => (0, 0)) (take 4 scenario)
    = Undef (OverRead (Z.of_nat (length (take 4 scenario)))).
Proof.
  split; [simpl; lia |].
  apply (mus2midi_short_header 0 (fun _ => (0, 0)) (take 4 scenario)).
  simpl. lia.
Defined.

(** X10. The score offset of the header is not checked against the
    size of the buffer either: when the score is not empty and starts at
    or after the end of the buffer, the first event byte is read outside
    it. *)
Theorem mus2midi_score_outside (fuel : nat) (uninit : Z -> Z * Z)
  (data : list Z) (header : MUSheader) :
  read_header data = Ok header -> channels header <= 15 ->
  0 < scoreLen header -> Z.of_nat (length data) <= scoreStart header ->
  mus2midi (S fuel) uninit data = Undef (OverRead (scoreStart header)).
Proof.
  intros Hh Hch Hlen Hout.
  rewrite (mus2midi_translates fuel uninit data header Hh Hch).
  rewrite main_loop_S. cbn [initial_locals cur].
  destruct (Z.ltb_spec (scoreStart header) (scoreStart header + scoreLen header));
    [| lia].
  unfold loop_body. cbn [cur initial_locals].
  assert (Hp : peek data (scoreStart header) = Undef (OverRead (scoreStart header))).
  { unfold peek. destruct (Z.ltb_spec (scoreStart header) 0); [reflexivity |].
    rewrite (proj2 (lookup_ge_None data _)) by lia. reflexivity. }
  rewrite Hp. reflexivity.
Qed.

(** A 16-byte buffer whose header places a 4-byte score at offset 16. *)
Lemma mus2midi_score_outside_witness :
  read_header (take 16 scenario) = Ok scenario_header /\
  mus2midi 1 (fun _ => (0, 0)) (take 16 scenario)
    = Undef (OverRead (scoreStart scenario_header)).
Proof.
  split; [reflexivity |].
  apply (mus2midi_score_outside 0 (fun _ => (0, 0)) (take 16 scenario)
           scenario_header); [reflexivity | | |]; vm_compute; congruence.
Defined.

Lemma finish_prelude (fuel : nat) (sp ss : Z) :
  finish (S fuel)
    (MusCtx sp ss (prelude_bytes ++ replicate (Z.to_nat 8159) 0) 33 DST_CHUNK 8159)
    MIDIHEADERSIZE (MIDIHEADERSIZE + 4)
  = Ok (MusCtx sp ss (midi_file track_opening ++ replicate (Z.to_nat 8159) 0)
          33 33 8159).
Proof. vm_compute. reflexivity. Qed.

(** X11. A header with an empty score is translated to the 33 bytes of
    the MIDI header and a track of the tempo event and the volume event
    of the percussion channel: the main loop is not entered, and no
    End-of-track event is written. *)
Theorem mus2midi_empty_score (fuel : nat) (uninit : Z -> Z * Z)
  (data : list Z) (header : MUSheader) :
  read_header data = Ok header -> channels header <= 15 ->
  scoreLen header = 0 ->
  exists c,
    mus2midi (S fuel) uninit data = Ok (Some c) /\
    dstsize c = 33 /\
    midi_bytes c (dstsize c) = midi_file track_opening.
Proof.
  intros Hh Hch Hlen.
  rewrite (mus2midi_translates fuel uninit data header Hh Hch).
  rewrite main_loop_S. cbn [initial_locals cur].
  destruct (Z.ltb_spec (scoreStart header) (scoreStart header + scoreLen header));
    [lia |].
  cbn [bind ctx initial_locals]. rewrite finish_prelude. cbn [bind].
  eexists. split; [reflexivity |]. split; reflexivity.
Qed.

Lemma mus2midi_empty_score_witness :
  read_header (mus_file 1 []) = Ok (MkMUSheader [chr "M"; chr "U"; chr "S"; 0x1A] 0 16 1 0 0 0) /\
  exists c,
    mus2midi 1 (fun _ => (0, 0)) (mus_file 1 []) = Ok (Some c) /\
    dstsize c = 33 /\
    midi_bytes c (dstsize c) = midi_file track_opening.
Proof.
  split; [reflexivity |].
  apply (mus2midi_empty_score 0 (fun _ => (0, 0)) (mus_file 1 [])
           (MkMUSheader [chr "M"; chr "U"; chr "S"; 0x1A] 0 16 1 0 0 0));
    [reflexivity | vm_compute; congruence | reflexivity].
Defined.

(** ** The order of allocation *)

Lemma count_assigned_bounds (l : list Z) :
  0 <= count_assigned l <= Z.of_nat (length l).
Proof.
  induction l as [| m l IH]; cbn [count_assigned length]; [lia |].
  destruct (0 <=? m); lia.
Qed.

Lemma count_assigned_insert (l : list Z) :
  forall (i : nat) (old v : Z),
    l !! i = Some old ->
    count_assigned (<[i := v]> l)
      = count_assigned l - (if 0 <=? old then 1 else 0)
        + (if 0 <=? v then 1 else 0).
Proof.
  induction l as [| m l IH]; intros i old v Hl; [discriminate |].
  destruct i as [| i]; cbn [count_assigned] in *.
  - inversion Hl; subst.
    change (<[0%nat := v]> (old :: l)) with (v :: l).
    cbn [count_assigned]. lia.
  - change (<[S i := v]> (m :: l)) with (m :: <[i := v]> l).
    cbn [count_assigned]. rewrite (IH i old v Hl). lia.
Qed.

Lemma nth_channel_next (k : Z) :
  0 <= k ->
  (if nth_channel k + 1 =? 9 then nth_channel k + 1 + 1 else nth_channel k + 1)
    = nth_channel (k + 1).
Proof.
  intros Hk. unfold nth_channel.
  destruct (Z.ltb_spec k 9), (Z.ltb_spec (k + 1) 9);
    match goal with |- context [?a =? 9] => destruct (Z.eqb_spec a 9) end; lia.
Qed.

Section Order.

Context (data : list Z) (channels end_ : Z) (uninit : Z -> Z * Z).

Lemma decode_event_volume (event m : Z) (s : locals) (c : Z) (d : decoded) :
  decode_event data channels end_ uninit event m s c = Ok d ->
  length (d_volume d) = length (channel_volume s).
Proof.
  unfold decode_event. intros H.
  crunch H; cbn [d_volume]; try reflexivity.
  match goal with
  | E : local_set _ _ _ = Ok _ |- _ => apply local_set_inv in E as [_ ->]
  end.
  apply length_insert.
Qed.

Lemma locals_ok_step (s s' : locals) :
  locals_ok s ->
  loop_body data channels end_ uninit s = Ok s' ->
  locals_ok s'.
Proof.
  intros (Hal & Hvol & Hcc) H.
  destruct (allocator_ok_step data channels end_ uninit s s' Hal H) as [Hal' _].
  split; [exact Hal' |].
  apply loop_body_inv in H
    as (event & vl & temp & cm & cc & m & d & dt
        & Hev & _ & Halloc & _ & Hd & _ & _ & ->).
  cbn [channel_volume channelMap currentChannel].
  split; [rewrite (decode_event_volume _ _ _ _ _ Hd); exact Hvol |].
  apply peek_inv in Hev as [_ Hev].
  pose proof (land_15_range event ltac:(lia)) as Hch.
  destruct Hal as (Hlen & H15 & Hcc0 & Hcc9 & Hmel).
  apply allocate_inv in Halloc
    as (m0 & Hm0 & [(Hneg & _ & -> & ->) | (Hpos & _ & -> & ->)]);
    [| exact Hcc].
  apply local_at_inv in Hm0 as [_ Hm0].
  set (ch := Z.to_nat (Z.land event 15)) in *.
  assert (Hne : ch <> 15%nat)
    by (intros E; rewrite E, H15 in Hm0; inversion Hm0; lia).
  assert (Hlt : (ch < 15)%nat) by (unfold ch; lia).
  destruct (Hmel ch m0 Hlt Hm0) as [-> | [Hr _]]; [| lia].
  rewrite take_insert_lt by exact Hlt.
  rewrite (count_assigned_insert _ ch (-1) (currentChannel s))
    by (rewrite lookup_take_lt by exact Hlt; exact Hm0).
  change (0 <=? -1) with false. cbv iota.
  destruct (Z.leb_spec 0 (currentChannel s)); [| lia].
  rewrite Hcc.
  pose proof (count_assigned_bounds (take 15 (channelMap s))) as Hb.
  rewrite nth_channel_next by lia. f_equal. lia.
Qed.

Lemma locals_ok_initial (header : MUSheader) (c : mus_ctx) :
  locals_ok (initial_locals header c).
Proof.
  split; [apply allocator_ok_initial |]. split; reflexivity.
Qed.

Lemma locals_ok_reachable (s0 s : locals) :
  locals_ok s0 ->
  reachable data channels end_ uninit s0 s ->
  locals_ok s.
Proof.
  intros H0 Hr. induction Hr as [| s s' Hr IH Hlt Hstep]; [exact H0 |].
  exact (locals_ok_step s s' IH Hstep).
Qed.

(** Every entry of the channel map is unassigned or a MIDI channel. *)
Lemma locals_ok_range (s : locals) (c : nat) (m : Z) :
  locals_ok s -> channelMap s !! c = Some m -> -1 <= m <= 15.
Proof.
  intros ((Hlen & H15 & Hcc0 & Hcc9 & Hmel) & _ & Hcc) Hl.
  pose proof (count_assigned_bounds (take 15 (channelMap s))) as Hb.
  rewrite length_take, Hlen in Hb.
  assert (Hmax : currentChannel s <= 16).
  { rewrite Hcc. unfold nth_channel. destruct (_ <? 9); lia. }
  destruct (Nat.lt_ge_cases c 15) as [Hc | Hc].
  - destruct (Hmel c m Hc Hl) as [-> | [Hr _]]; lia.
  - apply lookup_lt_Some in Hl as Hlt.
    replace c with 15%nat in Hl by lia.
    rewrite H15 in Hl. inversion Hl; subst. lia.
Qed.

End Order.

(** X12. At every head of the main loop the counter [currentChannel] is
    the MIDI channel of the next melodic channel to appear: the number of
    melodic channels assigned so far, plus one from nine on; and every
    entry of the channel map is -1 or a MIDI channel from 0 to 15.  An
    iteration that completes on an event of an unassigned channel gives
    that channel this MIDI channel and makes the number of assigned
    channels one more; on an event of an assigned channel the map stays
    as it is. *)
Theorem allocation_order (data : list Z) (uninit : Z -> Z * Z)
  (header : MUSheader) (c1 : mus_ctx) (s : locals) :
  let end_ := scoreStart header + scoreLen header in
  reachable data (channels header) end_ uninit (initial_locals header c1) s ->
  let k := count_assigned (take 15 (channelMap s)) in
  currentChannel s = nth_channel k /\
  Forall (fun m => -1 <= m <= 15) (channelMap s) /\
  forall s' event m,
    peek data (cur s) = Ok event ->
    channelMap s !! Z.to_nat (Z.land event 15) = Some m ->
    loop_body data (channels header) end_ uninit s = Ok s' ->
    if m <? 0 then
      channelMap s' !! Z.to_nat (Z.land event 15) = Some (nth_channel k) /\
      count_assigned (take 15 (channelMap s')) = k + 1 /\
      currentChannel s' = nth_channel (k + 1)
    else channelMap s' = channelMap s.
Proof.
  intros end_ Hr k.
  assert (Hok : locals_ok s).
  { eapply locals_ok_reachable; [| exact Hr]. apply locals_ok_initial. }
  split; [exact (proj2 (proj2 Hok)) |].
  split.
  { apply Forall_lookup. intros c m Hl.
    exact (locals_ok_range s c m Hok Hl). }
  intros s' event m Hev Hm Hstep.
  destruct Hok as (Hal & _ & Hcc).
  destruct (allocator_ok_step data (channels header) end_ uninit s s' Hal Hstep)
    as (_ & event' & Hev' & m' & Hm' & Hfirst).
  rewrite Hev in Hev'. inversion Hev'; subst event'; clear Hev'.
  rewrite Hm in Hm'. inversion Hm'; subst m'; clear Hm'.
  destruct (Z.ltb_spec m 0) as [Hneg | Hpos]; [| exact (proj1 Hfirst)].
  destruct Hfirst as [Hmap Hnext].
  destruct Hal as (Hlen & H15 & Hcc0 & _ & _).
  pose proof (lookup_lt_Some _ _ _ Hm) as Hlt.
  set (ch := Z.to_nat (Z.land event 15)) in *.
  assert (Hne : ch <> 15%nat)
    by (intros E; rewrite E, H15 in Hm; inversion Hm; lia).
  assert (Hmel : (ch < 15)%nat) by lia.
  pose proof (count_assigned_bounds (take 15 (channelMap s))) as Hb.
  fold k in Hb, Hcc.
  split; [| split].
  - rewrite Hmap, list_lookup_insert_eq by exact Hlt. rewrite Hcc. reflexivity.
  - rewrite Hmap, take_insert_lt by exact Hmel.
    rewrite (count_assigned_insert _ ch m (currentChannel s))
      by (rewrite lookup_take_lt by exact Hmel; exact Hm).
    destruct (Z.leb_spec 0 m); [lia |].
    destruct (Z.leb_spec 0 (currentChannel s)); [| lia].
    fold k. lia.
  - rewrite Hnext, Hcc. unfold skip9. apply nth_channel_next. lia.
Qed.

Lemma allocation_order_witness :
  currentChannel ten_channels_ninth
    = nth_channel (count_assigned (take 15 (channelMap ten_channels_ninth))) /\
  Forall (fun m => -1 <= m <= 15) (channelMap ten_channels_ninth) /\
  forall s' event m,
    peek ten_channels (cur ten_channels_ninth) = Ok event ->
    channelMap ten_channels_ninth !! Z.to_nat (Z.land event 15) = Some m ->
    loop_body ten_channels 10 36 (fun _ => (0, 0)) ten_channels_ninth = Ok s' ->
    if m <? 0 then
      channelMap s' !! Z.to_nat (Z.land event 15)
        = Some (nth_channel
                  (count_assigned (take 15 (channelMap ten_channels_ninth)))) /\
      count_assigned (take 15 (channelMap s'))
        = count_assigned (take 15 (channelMap ten_channels_ninth)) + 1 /\
      currentChannel s'
        = nth_channel
            (count_assigned (take 15 (channelMap ten_channels_ninth)) + 1)
    else channelMap s' = channelMap ten_channels_ninth.
Proof.
  apply (allocation_order ten_channels (fun _ => (0, 0)) ten_channels_header
           (prelude_ctx (u32 (Z.of_nat (length ten_channels))))
           ten_channels_ninth).
  exact ten_channels_ninth_reachable.
Defined.

(** ** Stores and local arrays stay in bounds *)

Lemma input_faults_bind {A B : Type} (r : result A) (k : A -> result B) :
  input_faults_only r ->
  (forall a, r = Ok a -> input_faults_only (k a)) ->
  input_faults_only (bind r k).
Proof.
  intros Hr Hk. destruct r as [a | f |]; cbn [bind].
  - apply Hk. reflexivity.
  - exact Hr.
  - exact I.
Qed.

Lemma as_long_input_faults (z : Z) : input_faults_only (as_long z).
Proof. unfold as_long. destruct (_ && _); simpl; auto. Qed.

Lemma as_int_input_faults (z : Z) : input_faults_only (as_int z).
Proof. unfold as_int. destruct (_ && _); simpl; auto. Qed.

Lemma midimap_at_input_faults (i : Z) : input_faults_only (midimap_at i).
Proof. unfold midimap_at. destruct (midimap !! Z.to_nat i); simpl; auto. Qed.

Lemma varlen_pack_input_faults (fuel : nat) :
  forall v buffer, input_faults_only (varlen_pack fuel v buffer).
Proof.
  induction fuel as [| fuel IH]; intros v buffer; [exact I |].
  rewrite varlen_pack_S. destruct (_ >? 0); [| exact I].
  repeat (apply input_faults_bind; [apply as_long_input_faults | intros ? _]).
  apply IH.
Qed.

Lemma varlen_emit_input_faults (fuel : nat) :
  forall buffer count, input_faults_only (varlen_emit fuel buffer count).
Proof.
  induction fuel as [| fuel IH]; intros buffer count; [exact I |].
  cbn [varlen_emit]. destruct (_ =? 0); [exact I |].
  apply input_faults_bind; [apply IH | intros ? _; exact I].
Qed.

Lemma WriteVarLen_input_faults (value : Z) : input_faults_only (WriteVarLen value).
Proof.
  unfold WriteVarLen.
  apply input_faults_bind; [apply varlen_pack_input_faults |].
  intros ? _. apply varlen_emit_input_faults.
Qed.

Lemma read_delta_input_faults (cells : list Z) :
  forall delta off, input_faults_only (read_delta cells delta off).
Proof.
  induction cells as [| b cells IH]; intros delta off; [reflexivity |].
  cbn [read_delta].
  repeat (apply input_faults_bind; [apply as_int_input_faults | intros ? _]).
  destruct (_ =? 0); [exact I | apply IH].
Qed.

Lemma local_at_Ok (a : list Z) (i : Z) :
  0 <= i < Z.of_nat (length a) -> exists v, local_at a i = Ok v.
Proof.
  intros Hi. unfold local_at. destruct (Z.ltb_spec i 0); [lia |].
  destruct (a !! Z.to_nat i) as [v |] eqn:E; [eauto |].
  apply lookup_ge_None in E. lia.
Qed.

Lemma local_set_Ok (a : list Z) (i v : Z) :
  0 <= i < Z.of_nat (length a) -> local_set a i v = Ok (<[Z.to_nat i := v]> a).
Proof.
  intros Hi. unfold local_set.
  destruct (Z.leb_spec 0 i), (Z.ltb_spec i (Z.of_nat (length a))); try lia.
  reflexivity.
Qed.

Lemma poke_all_Ok (bytes : list Z) :
  forall c,
    0 <= dst_ptr c ->
    dst_ptr c + Z.of_nat (length bytes) <= Z.of_nat (length (dst c)) ->
    exists c', poke_all c bytes = Ok c'.
Proof.
  induction bytes as [| b bytes IH]; intros c Hp Hfit; [eexists; reflexivity |].
  cbn [poke_all length] in *. unfold poke.
  destruct (Z.leb_spec 0 (dst_ptr c)); [| lia].
  destruct (Z.ltb_spec (dst_ptr c) (Z.of_nat (length (dst c)))); [| lia].
  cbn [andb bind]. apply IH; cbn [set_sink dst_ptr dst].
  - lia.
  - rewrite length_insert. lia.
Qed.

Section Safety.

Context (data : list Z) (channels end_ : Z) (uninit : Z -> Z * Z).

Lemma peek_input_faults (off : Z) : input_faults_only (peek data off).
Proof.
  unfold peek. destruct (off <? 0); [reflexivity |].
  destruct (data !! Z.to_nat off); simpl; auto.
Qed.

Lemma next_delta_input_faults (event c : Z) :
  input_faults_only (next_delta data event c).
Proof.
  unfold next_delta. destruct (_ =? 0); [exact I |].
  apply read_delta_input_faults.
Qed.

Lemma decode_event_input_faults (event m : Z) (s : locals) (c : Z) :
  0 <= m <= 15 -> length (channel_volume s) = 16%nat ->
  input_faults_only (decode_event data channels end_ uninit event m s c).
Proof.
  intros Hm Hvol. unfold decode_event.
  assert (Hat : forall vol, length vol = 16%nat ->
                 exists v, local_at vol m = Ok v)
    by (intros vol Hl; apply local_at_Ok; lia).
  repeat match goal with
    | |- input_faults_only (if ?b then _ else _) => destruct b
    | |- input_faults_only (Ok _) => exact I
    | |- input_faults_only (bind (peek _ _) _) =>
        apply input_faults_bind; [apply peek_input_faults | intros ? _]
    | |- input_faults_only (bind (midimap_at _) _) =>
        apply input_faults_bind; [apply midimap_at_input_faults | intros ? _]
    | |- input_faults_only (bind (local_set _ _ _) _) =>
        rewrite local_set_Ok by lia; cbn [bind]
    | |- input_faults_only (bind (local_at ?vol _) _) =>
        let v := fresh "v" in
        let E := fresh "E" in
        destruct (Hat vol ltac:(rewrite ?length_insert; exact Hvol)) as [v E];
        rewrite E; cbn [bind]
    end.
Qed.

(** [grow_if] on a safe sink with a chunk of room gives the room asked
    for and keeps every cell of the block. *)
Lemma grow_if_safe (room need : Z) (c : mus_ctx) :
  sink_ok room c -> DST_CHUNK <= room -> sink_safe c -> need <= DST_CHUNK ->
  let c1 := grow_if c need in
  dst_ptr c1 = dst_ptr c /\ need <= dstrem c1 /\ sink_safe c1 /\
  dstsize c1 <= dstsize c + DST_CHUNK /\
  take (length (dst c)) (dst c1) = dst c.
Proof.
  intros (Hp & Hsz & Hr & Hlim & Hlen & Hpre) Hroom (Hrem & Hfit & Hcap) Hneed.
  unfold grow_if. pose proof LIMIT_u32 as HL. unfold STEP, DST_CHUNK in *.
  destruct (Z.ltb_spec (dstrem c) need); cbv zeta.
  - unfold resize_dst, realloc, sink_safe, DST_CHUNK.
    cbn [set_sink dst_ptr dstsize dstrem dst].
    rewrite !u32_small by lia. rewrite length_resize.
    rewrite resize_ge by lia.
    repeat split; try lia. apply take_app_length.
  - unfold sink_safe. rewrite take_ge by lia. repeat split; lia.
Qed.

(** The copy at the end of an iteration stays inside the block, and
    appends: the cells before the cursor are kept, the bytes of
    [temp_buffer] follow, and the cursor moves past them. *)
Lemma flush_safe (room : Z) (c : mus_ctx) (temp : list Z) :
  sink_ok room c -> STEP <= room -> sink_safe c -> (length temp <= 16)%nat ->
  exists c',
    flush c temp = Ok c' /\ sink_safe c' /\
    dst_ptr c' = dst_ptr c + Z.of_nat (length temp) /\
    take (Z.to_nat (dst_ptr c)) (dst c') = take (Z.to_nat (dst_ptr c)) (dst c) /\
    take (length temp) (drop (Z.to_nat (dst_ptr c)) (dst c')) = map u8 temp.
Proof.
  intros Hok Hroom Hsafe Hlen. unfold flush.
  destruct (Z.eqb_spec (Z.of_nat (length temp)) 0) as [Hz | Hnz].
  { exists c. destruct temp; [| simpl in Hz; lia].
    repeat split; try apply Hsafe. simpl. lia. }
  pose proof (grow_if_safe room (sizeof_temp_buffer * 32) c Hok
                ltac:(unfold STEP in Hroom; lia) Hsafe
                ltac:(vm_compute; discriminate))
    as (Hp1 & Hr1 & (Hrem1 & Hfit1 & Hcap1) & Hs1 & Hkeep).
  cbv zeta in *.
  set (c1 := grow_if c (sizeof_temp_buffer * 32)) in *.
  destruct Hok as (Hp & Hsz & Hr & Hlim & Hlen0 & Hpre).
  destruct Hsafe as (Hrem & Hfit & Hcap).
  change (sizeof_temp_buffer * 32) with 1024 in Hr1.
  destruct (poke_all_Ok temp c1 ltac:(lia) ltac:(lia)) as [c2 H2].
  rewrite H2. cbn [bind]. eexists. split; [reflexivity |].
  pose proof (length_poke_all _ _ _ H2) as Hl2.
  apply poke_all_inv in H2 as (Hp2 & Hs2 & Hr2 & _ & _ & Hd2).
  pose proof LIMIT_u32 as HL. unfold STEP, DST_CHUNK in *.
  unfold sink_safe. cbn [set_sink dst_ptr dstsize dstrem dst].
  rewrite Hs2, Hr2, !u32_small by lia.
  assert (Hpre1 : take (Z.to_nat (dst_ptr c)) (dst c1)
                  = take (Z.to_nat (dst_ptr c)) (dst c)).
  { transitivity (take (Z.to_nat (dst_ptr c)) (take (length (dst c)) (dst c1)));
      [rewrite take_take; f_equal; lia | rewrite Hkeep; reflexivity]. }
  repeat split; try lia.
  - rewrite Hd2, Hp1, take_app_le by (rewrite length_take; lia).
    rewrite take_take, Nat.min_id. exact Hpre1.
  - rewrite Hd2, Hp1, drop_app_length' by (rewrite length_take; lia).
    rewrite take_app_length' by (rewrite length_map; reflexivity).
    reflexivity.
Qed.

Lemma allocate_Ok (s : locals) (channel : Z) (temp : list Z) :
  locals_ok s -> 0 <= channel < 16 ->
  exists temp' cm cc, allocate s channel temp = Ok (temp', cm, cc).
Proof.
  intros ((Hlen & _) & _) Hch. unfold allocate.
  destruct (local_at_Ok (channelMap s) channel ltac:(lia)) as [m Hm].
  rewrite Hm. cbn [bind]. destruct (m <? 0); [| eauto].
  rewrite local_set_Ok by lia. cbn [bind]. eauto.
Qed.

(** The entry of the event's channel after the allocation block. *)
Lemma allocate_post (s : locals) (channel : Z) (temp temp' cm : list Z) (cc : Z) :
  locals_ok s -> 0 <= channel < 16 ->
  allocate s channel temp = Ok (temp', cm, cc) ->
  (length temp' <= length temp + 4)%nat /\
  exists m, local_at cm channel = Ok m /\ 0 <= m <= 15.
Proof.
  intros Hloc Hch Hal.
  pose proof Hloc as ((Hlen & H15 & Hcc0 & Hcc9 & Hmel) & _ & Hcc).
  apply allocate_inv in Hal
    as (m0 & Hm0 & [(Hneg & -> & -> & _) | (Hpos & -> & -> & _)]).
  - split; [rewrite length_app; cbn [length]; lia |].
    apply local_at_inv in Hm0 as [_ Hm0].
    exists (currentChannel s). unfold local_at.
    destruct (Z.ltb_spec channel 0); [lia |].
    rewrite list_lookup_insert_eq by lia. split; [reflexivity |].
    assert (Hne : Z.to_nat channel <> 15%nat)
      by (intros E; rewrite E, H15 in Hm0; inversion Hm0; lia).
    assert (Hlt : (Z.to_nat channel < 15)%nat) by lia.
    destruct (Hmel _ m0 Hlt Hm0) as [-> | [Hr _]]; [| lia].
    pose proof (count_assigned_insert (take 15 (channelMap s))
                  (Z.to_nat channel) (-1) 0
                  ltac:(rewrite lookup_take_lt by exact Hlt; exact Hm0)) as Hins.
    pose proof (count_assigned_bounds
                  (<[Z.to_nat channel := 0]> (take 15 (channelMap s)))) as Hb.
    rewrite length_insert, length_take, Hins in Hb.
    change (0 <=? -1) with false in Hb. change (0 <=? 0) with true in Hb.
    cbv iota in Hb.
    pose proof (count_assigned_bounds (take 15 (channelMap s))) as Hb0.
    rewrite Hcc. unfold nth_channel.
    destruct (_ <? 9); lia.
  - split; [lia |]. exists m0. split; [exact Hm0 |].
    apply local_at_inv in Hm0 as [_ Hm0].
    pose proof (locals_ok_range s _ _ Hloc Hm0). lia.
Qed.

(** One iteration on safe locals: it stops only at a fault of the input,
    and it leaves safe locals and the cells before the cursor as they
    were. *)
Lemma loop_body_safe (room : Z) (s : locals) :
  sink_ok room (ctx s) -> STEP <= room -> sink_safe (ctx s) -> locals_ok s ->
  input_faults_only (loop_body data channels end_ uninit s) /\
  forall s', loop_body data channels end_ uninit s = Ok s' ->
    sink_safe (ctx s') /\ locals_ok s' /\
    dst_ptr (ctx s) <= dst_ptr (ctx s') /\
    take (Z.to_nat (dst_ptr (ctx s))) (dst (ctx s'))
      = take (Z.to_nat (dst_ptr (ctx s))) (dst (ctx s)).
Proof.
  intros Hok Hroom Hsafe Hloc. split.
  - unfold loop_body.
    apply input_faults_bind; [apply peek_input_faults | intros event Hev].
    apply input_faults_bind; [apply WriteVarLen_input_faults | intros vl Hvl].
    apply peek_inv in Hev as [_ Hev].
    pose proof (land_15_range event ltac:(lia)) as Hch.
    destruct (allocate_Ok s (Z.land event 15)
                (take (Z.to_nat (snd vl)) (fst vl)) Hloc Hch)
      as (temp & cm & cc & Hal).
    rewrite Hal. cbn [bind].
    destruct (allocate_post _ _ _ _ _ _ Hloc Hch Hal) as (Htemp & m & Hm & Hmr).
    rewrite Hm. cbn [bind].
    apply input_faults_bind;
      [apply decode_event_input_faults; [exact Hmr | apply Hloc] | intros d Hd].
    apply decode_event_cur in Hd as [_ Hd].
    apply WriteVarLen_count in Hvl as [_ Hvl].
    destruct (flush_safe room (ctx s) (temp ++ event_bytes d) Hok Hroom Hsafe)
      as (c' & Hfl & _).
    { rewrite length_app. rewrite length_take in Htemp. lia. }
    rewrite Hfl. cbn [bind].
    apply input_faults_bind; [apply next_delta_input_faults | intros ? _].
    exact I.
  - intros s' H. pose proof (locals_ok_step _ _ _ _ s s' Hloc H) as Hloc'.
    apply loop_body_flush in H as (temp & Hfl & Hlen).
    destruct (flush_safe room (ctx s) temp Hok Hroom Hsafe Hlen)
      as (c' & Hfl' & Hsafe' & Hptr & Hkeep & _).
    rewrite Hfl in Hfl'. inversion Hfl'; subst c'.
    split; [exact Hsafe' |]. split; [exact Hloc' |].
    split; [lia | exact Hkeep].
Qed.

(** The main loop on safe locals. *)
Lemma main_loop_safe (fuel : nat) :
  forall s,
    sink_ok (STEP * Z.max 0 (end_ - cur s)) (ctx s) ->
    sink_safe (ctx s) -> locals_ok s ->
    input_faults_only (main_loop data channels end_ uninit fuel s) /\
    forall s', main_loop data channels end_ uninit fuel s = Ok s' ->
      sink_safe (ctx s') /\ locals_ok s' /\
      dst_ptr (ctx s) <= dst_ptr (ctx s') /\
      take (Z.to_nat (dst_ptr (ctx s))) (dst (ctx s'))
        = take (Z.to_nat (dst_ptr (ctx s))) (dst (ctx s)).
Proof.
  induction fuel as [| fuel IH]; intros s Hok Hsafe Hloc;
    [split; [exact I | discriminate] |].
  rewrite main_loop_S.
  destruct (Z.ltb_spec (cur s) end_) as [Hlt | Hge].
  - assert (Hroom : STEP <= STEP * Z.max 0 (end_ - cur s))
      by (unfold STEP, DST_CHUNK; lia).
    destruct (loop_body_safe _ s Hok Hroom Hsafe Hloc) as [Hf Hpost].
    assert (Hnext : forall s1, loop_body data channels end_ uninit s = Ok s1 ->
              sink_ok (STEP * Z.max 0 (end_ - cur s1)) (ctx s1)).
    { intros s1 Hs1.
      pose proof (loop_body_cur _ _ _ _ _ _ Hs1) as Hcur.
      apply loop_body_flush in Hs1 as (temp & Hfl & Hlen).
      eapply sink_ok_less;
        [eapply flush_sink; [exact Hok | exact Hroom | exact Hlen | exact Hfl] |].
      unfold STEP, DST_CHUNK. lia. }
    split.
    + apply input_faults_bind; [exact Hf |]. intros s1 Hs1.
      destruct (Hpost s1 Hs1) as (Hsafe1 & Hloc1 & _).
      apply (IH s1 (Hnext s1 Hs1) Hsafe1 Hloc1).
    + intros s' H. bind_inv H as s1 Hs1.
      destruct (Hpost s1 Hs1) as (Hsafe1 & Hloc1 & Hle1 & Hkeep1).
      destruct (IH s1 (Hnext s1 Hs1) Hsafe1 Hloc1) as [_ Hrest].
      destruct (Hrest s' H) as (Hsafe' & Hloc' & Hle' & Hkeep').
      split; [exact Hsafe' |]. split; [exact Hloc' |]. split; [lia |].
      destruct Hok as (Hp & _).
      transitivity (take (Z.to_nat (dst_ptr (ctx s)))
                      (take (Z.to_nat (dst_ptr (ctx s1))) (dst (ctx s')))).
      { rewrite take_take. f_equal. lia. }
      rewrite Hkeep', take_take.
      replace (Z.to_nat (dst_ptr (ctx s)) `min` Z.to_nat (dst_ptr (ctx s1)))%nat
        with (Z.to_nat (dst_ptr (ctx s))) by lia.
      exact Hkeep1.
  - split; [exact I |]. intros s' H. inversion H; subst.
    split; [exact Hsafe |]. split; [exact Hloc |].
    split; [lia | reflexivity].
Qed.

End Safety.

Lemma write4_poke_all (c : mus_ctx) (v : Z) :
  write4 c v =
  do c2 <- poke_all (grow_if c 4)
             [Z.land (Z.shiftr v 24) 0xff; Z.land (Z.shiftr v 16) 0xff;
              Z.land (Z.shiftr v 8) 0xff; Z.land v 0xff];
  Ok (set_dstrem c2 (u32 (dstrem c2 - 4))).
Proof.
  unfold write4. cbn [poke_all].
  repeat (destruct (poke _ _) as [? | ? |]; cbn [bind]; [| reflexivity ..]).
  reflexivity.
Qed.

(** On the sink the main loop leaves, the end of [mus2midi] goes
    through. *)
Lemma finish_Ok (fuel : nat) (c : mus_ctx) :
  sink_ok 0 c ->
  exists c', finish (S fuel) c MIDIHEADERSIZE (MIDIHEADERSIZE + 4) = Ok c'.
Proof.
  intros (Hp & Hsz & _ & Hlim & Hlen & Hpre).
  pose proof LIMIT_u32 as HL. unfold STEP, DST_CHUNK in HL.
  unfold finish, getdstpos.
  rewrite (u32_small (dst_ptr c)) by lia.
  unfold seekdst at 1.
  rewrite grow_to_enough by (cbn [set_sink dstsize]; unfold MIDIHEADERSIZE; lia).
  cbn [bind]. rewrite write4_poke_all.
  match goal with
  | |- context [poke_all ?c1 ?bytes] =>
      destruct (poke_all_Ok bytes c1) as [c2 H2]
  end.
  - unfold grow_if. destruct (_ <? 4);
      [unfold resize_dst; cbn [set_dstrem set_sink dst_ptr] |
       cbn [set_dstrem set_sink dst_ptr]];
      rewrite ?u32_small by (unfold MIDIHEADERSIZE; lia);
      unfold MIDIHEADERSIZE; lia.
  - unfold grow_if.
    cbn [set_dstrem set_sink dstrem dstsize dst dst_ptr].
    rewrite u32_small by (unfold MIDIHEADERSIZE; lia).
    destruct (Z.ltb_spec (dstsize c - (MIDIHEADERSIZE + 4)) 4) as [Hbad | _];
      [unfold MIDIHEADERSIZE in Hbad; lia |].
    unfold set_dstrem. cbn [set_sink dst dst_ptr length].
    unfold MIDIHEADERSIZE. lia.
  - rewrite H2. cbn [bind].
    apply poke_all_inv in H2 as (_ & Hs2 & _).
    assert (Hsame : dstsize c2 = dstsize c).
    { rewrite Hs2. unfold grow_if.
      cbn [set_dstrem set_sink dstrem dstsize].
      rewrite u32_small by (unfold MIDIHEADERSIZE; lia).
      destruct (Z.ltb_spec (dstsize c - (MIDIHEADERSIZE + 4)) 4) as [Hbad | _];
        [unfold MIDIHEADERSIZE in Hbad; lia | reflexivity]. }
    unfold seekdst.
    rewrite grow_to_enough
      by (cbn [set_dstrem set_sink dstsize]; rewrite Hsame; lia).
    cbn [bind]. eexists. reflexivity.
Qed.

Lemma sink_safe_prelude (sp ss : Z) :
  sink_safe (MusCtx sp ss (prelude_bytes ++ replicate (Z.to_nat 8159) 0) 33
               DST_CHUNK 8159).
Proof.
  unfold sink_safe. cbn [dstrem dst_ptr dst dstsize].
  rewrite length_app, length_replicate. unfold DST_CHUNK. simpl length. lia.
Qed.

Lemma write_prelude_0 (sp ss : Z) :
  write_prelude 0
    (MusCtx sp ss (replicate (Z.to_nat DST_CHUNK) 0) 0 DST_CHUNK DST_CHUNK)
  = OutOfFuel.
Proof. vm_compute. reflexivity. Qed.

(** The locals a translation reaches the end of its main loop with. *)
Lemma mus2midi_loop_safe (fuel : nat) (uninit : Z -> Z * Z) (data : list Z)
  (header : MUSheader) :
  read_header data = Ok header ->
  let end_ := scoreStart header + scoreLen header in
  let s0 :=
    initial_locals header
      (MusCtx (0 + sizeof_MUSheader) (u32 (Z.of_nat (length data)))
         (prelude_bytes ++ replicate (Z.to_nat 8159) 0) 33 DST_CHUNK 8159) in
  input_faults_only (main_loop data (channels header) end_ uninit fuel s0) /\
  forall s, main_loop data (channels header) end_ uninit fuel s0 = Ok s ->
    sink_ok 0 (ctx s) /\ sink_safe (ctx s) /\
    take 33 (dst (ctx s)) = prelude_bytes.
Proof.
  intros Hh end_ s0.
  pose proof (read_header_inv _ _ Hh) as (Hlen & Hstart & _).
  assert (Hok : sink_ok (STEP * Z.max 0 (end_ - cur s0)) (ctx s0)).
  { unfold s0, end_. cbn [initial_locals cur ctx].
    replace (scoreStart header + scoreLen header - scoreStart header)
      with (scoreLen header) by lia.
    rewrite Z.max_r by lia.
    apply sink_ok_prelude; unfold LIMIT, STEP, DST_CHUNK; lia. }
  destruct (main_loop_safe data (channels header) end_ uninit fuel s0 Hok
              (sink_safe_prelude _ _) (locals_ok_initial _ _)) as [Hf Hpost].
  split; [exact Hf |]. intros s Hs.
  destruct (Hpost s Hs) as (Hsafe & _ & _ & Hkeep).
  split; [eapply main_loop_sink; [exact Hok | exact Hs] |].
  split; [exact Hsafe |].
  unfold s0 in Hkeep. cbn [initial_locals ctx dst_ptr dst] in Hkeep.
  change (Z.to_nat 33) with 33%nat in Hkeep. rewrite Hkeep.
  reflexivity.
Qed.

(** Whatever the buffer, [mus2midi] stops short only at a fault of its
    input. *)
Lemma mus2midi_input_faults (fuel : nat) (uninit : Z -> Z * Z) (data : list Z) :
  input_faults_only (mus2midi fuel uninit data).
Proof.
  destruct (read_header data) as [header | f |] eqn:Hh.
  - destruct (Z.gtb_spec (channels header) (MIDI_MAXCHANNELS - 1)) as [Hgt | Hle].
    + unfold mus2midi. rewrite Hh. cbn [bind].
      destruct (Z.gtb_spec (channels header) (MIDI_MAXCHANNELS - 1));
        [exact I | lia].
    + destruct fuel as [| fuel].
      * unfold mus2midi. rewrite Hh. cbn [bind].
        destruct (Z.gtb_spec (channels header) (MIDI_MAXCHANNELS - 1));
          [exact I |].
        rewrite translate_unfold. unfold fresh_ctx.
        cbn [src_ptr srcsize dst dst_ptr dstsize dstrem].
        rewrite write_prelude_0. exact I.
      * rewrite (mus2midi_translates fuel uninit data header Hh)
          by (unfold MIDI_MAXCHANNELS in Hle; lia).
        destruct (mus2midi_loop_safe (S fuel) uninit data header Hh)
          as [Hf Hpost].
        apply input_faults_bind; [exact Hf |]. intros s Hs.
        destruct (Hpost s Hs) as (Hok & _).
        destruct (finish_Ok fuel (ctx s) Hok) as [c' Hc'].
        rewrite Hc'. exact I.
  - unfold mus2midi. rewrite Hh. cbn [bind].
    unfold read_header in Hh.
    do 16 (destruct data as [| ? data]; [inversion Hh; reflexivity |]).
    discriminate.
  - unfold mus2midi. rewrite Hh. exact I.
Qed.

(** X13. On every buffer, well formed or not, [mus2midi] never stores
    outside the block it has allocated for the output: the first bytes,
    the copy of each event and the patch of the track length all lie
    inside it. *)
Theorem mus2midi_stores_in_bounds (fuel : nat) (uninit : Z -> Z * Z)
  (data : list Z) :
  is_sink_fault (mus2midi fuel uninit data) = false.
Proof.
  pose proof (mus2midi_input_faults fuel uninit data) as H.
  destruct (mus2midi fuel uninit data) as [? | f |]; try reflexivity.
  destruct f; try reflexivity; discriminate H.
Qed.

(** X14. On every buffer [mus2midi] indexes [channelMap] and
    [channel_volume] inside their 16 entries. *)
Theorem mus2midi_locals_in_bounds (fuel : nat) (uninit : Z -> Z * Z)
  (data : list Z) :
  is_local_fault (mus2midi fuel uninit data) = false.
Proof.
  pose proof (mus2midi_input_faults fuel uninit data) as H.
  destruct (mus2midi fuel uninit data) as [? | f |]; try reflexivity.
  destruct f; try reflexivity; discriminate H.
Qed.

(** ** The file a completed translation leaves *)

(** X15. Every completed translation leaves a well-formed one-track MIDI
    file in the first [dstsize] cells of the sink: the fixed 14-byte
    header, the [MTrk] tag, the big-endian length of the track data, and
    track data that opens with the tempo and percussion-volume events of
    the prelude; the file is [dstsize] cells long. *)
Theorem mus2midi_container (fuel : nat) (uninit : Z -> Z * Z)
  (data : list Z) (c : mus_ctx) :
  mus2midi fuel uninit data = Ok (Some c) ->
  exists events,
    midi_bytes c (dstsize c) = midi_file (track_opening ++ events) /\
    Z.of_nat (length (midi_file (track_opening ++ events))) = dstsize c.
Proof.
  intros H.
  pose proof (mus2midi_inv _ _ _ _ H)
    as (header & s' & c1 & Hh & Hch & _ & Hs0 & _).
  destruct fuel as [| fuel]; [discriminate Hs0 |]. clear s' c1 Hs0.
  rewrite (mus2midi_translates fuel uninit data header Hh Hch) in H.
  bind_inv H as s Hs. bind_inv H as c' Hfin.
  inversion H; subst c'; clear H.
  destruct (mus2midi_loop_safe (S fuel) uninit data header Hh) as [_ Hpost].
  destruct (Hpost s Hs) as (Hok & Hsafe & Hpre). clear Hpost.
  pose proof Hok as (Hp & _ & _ & _ & Hlen & _).
  destruct Hsafe as (Hrem0 & Hfit & _).
  apply finish_inv in Hfin as (_ & Hsize & _ & Htake & Hdrop); [| exact Hok].
  set (P := dst_ptr (ctx s)) in *.
  set (events := take (Z.to_nat P - 33) (drop 33 (dst (ctx s)))).
  assert (Htrack : take (Z.to_nat P - 22) (drop 22 (dst (ctx s)))
                   = track_opening ++ events).
  { replace (Z.to_nat P - 22)%nat with (11 + (Z.to_nat P - 33))%nat by lia.
    rewrite <- take_take_drop, drop_drop. f_equal.
    rewrite take_drop_commute. change (22 + 11)%nat with 33%nat.
    rewrite Hpre. reflexivity. }
  assert (Hlt : Z.of_nat (length (track_opening ++ events))
                = P - trackDataStart).
  { rewrite <- Htrack, length_take, length_drop.
    unfold trackDataStart, MIDIHEADERSIZE, sizeof_MidiTrackChunk. lia. }
  exists events. split.
  - unfold midi_bytes, mus_getmididata. rewrite Hsize.
    replace (Z.to_nat P) with (22 + (Z.to_nat P - 22))%nat by lia.
    rewrite <- take_take_drop, Htake, Hdrop, Htrack.
    unfold midi_file. rewrite Hlt, <- app_assoc. reflexivity.
  - unfold midi_file. rewrite !length_app, Nat2Z.inj_add, Nat2Z.inj_add.
    rewrite <- length_app, Hlt, Hsize.
    unfold trackDataStart, MIDIHEADERSIZE, sizeof_MidiTrackChunk.
    change (length (take 18 prelude_bytes)) with 18%nat.
    change (length (be32_bytes (P - (14 + 8)))) with 4%nat. lia.
Qed.

Lemma mus2midi_container_witness :
  mus2midi 3 (fun _ => (0, 0)) scenario = Ok (Some scenario_ctx) /\
  exists events,
    midi_bytes scenario_ctx (dstsize scenario_ctx)
      = midi_file (track_opening ++ events) /\
    Z.of_nat (length (midi_file (track_opening ++ events)))
      = dstsize scenario_ctx.
Proof.
  split; [vm_compute; reflexivity |].
  apply (mus2midi_container 3 (fun _ => (0, 0)) scenario scenario_ctx).
  vm_compute. reflexivity.
Defined.

(** ** The iterations of the main loop *)

Section Appending.

Context (data : list Z) (channels end_ : Z) (uninit : Z -> Z * Z).

(** What holds of the sink and the locals at every head of the main
    loop. *)
Lemma reachable_safe (s0 s : locals) :
  sink_ok (STEP * Z.max 0 (end_ - cur s0)) (ctx s0) ->
  sink_safe (ctx s0) -> locals_ok s0 ->
  reachable data channels end_ uninit s0 s ->
  sink_ok (STEP * Z.max 0 (end_ - cur s)) (ctx s) /\
  sink_safe (ctx s) /\ locals_ok s.
Proof.
  intros Hok0 Hsafe0 Hloc0 Hr.
  induction Hr as [| s s' Hr IH Hlt Hstep];
    [split; [exact Hok0 | split; [exact Hsafe0 | exact Hloc0]] |].
  destruct IH as (Hok & Hsafe & Hloc).
  assert (Hroom : STEP <= STEP * Z.max 0 (end_ - cur s))
    by (unfold STEP, DST_CHUNK; lia).
  destruct (loop_body_safe data channels end_ uninit _ s Hok Hroom Hsafe Hloc)
    as [_ Hpost].
  destruct (Hpost s' Hstep) as (Hsafe' & Hloc' & _).
  split; [| split; [exact Hsafe' | exact Hloc']].
  pose proof (loop_body_cur _ _ _ _ _ _ Hstep) as Hcur.
  apply loop_body_flush in Hstep as (temp & Hfl & Hlen).
  eapply sink_ok_less;
    [eapply flush_sink; [exact Hok | exact Hroom | exact Hlen | exact Hfl] |].
  unfold STEP, DST_CHUNK. lia.
Qed.

End Appending.

(** X16. Every iteration [mus2midi] completes appends to the file: it
    copies between 3 and 16 bytes from [temp_buffer], half of its 32
    cells at most, to the cursor, moves the cursor past them, and leaves
    every byte written before as it was. *)
Theorem iteration_appends (data : list Z) (uninit : Z -> Z * Z)
  (header : MUSheader) (s s' : locals) :
  read_header data = Ok header ->
  let end_ := scoreStart header + scoreLen header in
  reachable data (channels header) end_ uninit (first_locals data header) s ->
  cur s < end_ ->
  loop_body data (channels header) end_ uninit s = Ok s' ->
  exists temp,
    (3 <= length temp <= 16)%nat /\
    Z.of_nat (length temp) < sizeof_temp_buffer /\
    dst_ptr (ctx s') = dst_ptr (ctx s) + Z.of_nat (length temp) /\
    take (Z.to_nat (dst_ptr (ctx s'))) (dst (ctx s'))
      = take (Z.to_nat (dst_ptr (ctx s))) (dst (ctx s)) ++ map u8 temp.
Proof.
  intros Hh end_ Hr Hlt Hstep.
  pose proof (read_header_inv _ _ Hh) as (Hlen & Hstart & _).
  assert (Hok0 : sink_ok (STEP * Z.max 0 (end_ - cur (first_locals data header)))
                   (ctx (first_locals data header))).
  { unfold first_locals, end_. cbn [initial_locals cur ctx].
    replace (scoreStart header + scoreLen header - scoreStart header)
      with (scoreLen header) by lia.
    rewrite Z.max_r by lia.
    apply sink_ok_prelude; unfold LIMIT, STEP, DST_CHUNK; lia. }
  destruct (reachable_safe data (channels header) end_ uninit _ s Hok0
              (sink_safe_prelude _ _) (locals_ok_initial _ _) Hr)
    as (Hok & Hsafe & _).
  assert (Hroom : STEP <= STEP * Z.max 0 (end_ - cur s))
    by (unfold STEP, DST_CHUNK; lia).
  apply loop_body_inv in Hstep
    as (event & vl & temp & cm & cc & m & d & dt
        & _ & Hvl & Hal & _ & Hd & Hfl & _ & _).
  assert (Hlen3 : (3 <= length (temp ++ event_bytes d) <= 16)%nat).
  { pose proof (decode_event_cur _ _ _ _ _ _ _ _ _ Hd) as [_ Hd3].
    assert (Hd2 : (2 <= length (event_bytes d))%nat)
      by (unfold event_bytes; rewrite length_app; cbn [length]; lia).
    apply WriteVarLen_count in Hvl as [Hc Hvl].
    apply allocate_inv in Hal as (m0 & _ & [(_ & -> & _) | (_ & -> & _)]);
      rewrite ?length_app, length_take; cbn [length]; lia. }
  destruct (flush_safe _ (ctx s) (temp ++ event_bytes d) Hok Hroom Hsafe
              ltac:(lia)) as (c' & Hfl' & _ & Hptr & Hkeep & Hnew).
  rewrite Hfl in Hfl'. inversion Hfl'; subst c'; clear Hfl'.
  exists (temp ++ event_bytes d).
  split; [exact Hlen3 |].
  split; [unfold sizeof_temp_buffer; lia |].
  split; [exact Hptr |].
  destruct Hok as (Hp & _).
  rewrite Hptr.
  replace (Z.to_nat (dst_ptr (ctx s) + Z.of_nat (length (temp ++ event_bytes d))))
    with (Z.to_nat (dst_ptr (ctx s)) + length (temp ++ event_bytes d))%nat
    by lia.
  rewrite <- take_take_drop, Hkeep, Hnew. reflexivity.
Qed.

Lemma iteration_appends_witness :
  exists temp,
    (3 <= length temp <= 16)%nat /\
    Z.of_nat (length temp) < sizeof_temp_buffer /\
    dst_ptr (ctx scenario_second)
      = dst_ptr (ctx scenario_first) + Z.of_nat (length temp) /\
    take (Z.to_nat (dst_ptr (ctx scenario_second))) (dst (ctx scenario_second))
      = take (Z.to_nat (dst_ptr (ctx scenario_first)))
          (dst (ctx scenario_first)) ++ map u8 temp.
Proof.
  apply (iteration_appends scenario (fun _ => (0, 0)) scenario_header
           scenario_first scenario_second).
  - reflexivity.
  - apply reach_start.
  - vm_compute. reflexivity.
  - vm_compute. reflexivity.
Defined.

(** ** Termination of the translation *)

(** X17. A run of [mus2midi] that meets no undefined behaviour returns,
    with [NULL] or with a context: neither the main loop nor the loops
    that grow the sink run for ever.  A score has at most 65535 cells and
    every iteration takes at least one, so fuel above 65535 is never
    used up. *)
Theorem mus2midi_terminates (uninit : Z -> Z * Z) (data : list Z)
  (extra : nat) :
  (forall f, mus2midi (Z.to_nat 65536 + extra) uninit data <> Undef f) ->
  exists r, mus2midi (Z.to_nat 65536 + extra) uninit data = Ok r.
Proof.
  intros Hdef.
  pose proof (mus2midi_fuel_enough (Z.to_nat 65536 + extra) uninit data
                ltac:(lia)) as Hfuel.
  destruct (mus2midi (Z.to_nat 65536 + extra) uninit data) as [r | f |].
  - exists r. reflexivity.
  - destruct (Hdef f). reflexivity.
  - destruct Hfuel. reflexivity.
Qed.

Lemma mus2midi_terminates_witness :
  exists r, mus2midi (Z.to_nat 65536 + 0) (fun _ => (0, 0)) scenario = Ok r.
Proof.
  apply (mus2midi_terminates (fun _ => (0, 0)) scenario 0).
  intros f H. vm_compute in H. discriminate H.
Defined.

(** ** The writers *)

(** [grow_if] on a sink whose sizes do not wrap. *)
Lemma grow_if_room (c : mus_ctx) (need : Z) :
  0 <= dst_ptr c -> sink_safe c -> dstsize c + DST_CHUNK < 2 ^ 32 ->
  need <= DST_CHUNK ->
  let c1 := grow_if c need in
  dst_ptr c1 = dst_ptr c /\ need <= dstrem c1 /\ sink_safe c1 /\
  dstrem c1 < 2 ^ 32 /\
  take (length (dst c)) (dst c1) = dst c.
Proof.
  intros Hp (Hrem & Hfit & Hcap) Hlim Hneed. unfold grow_if.
  unfold DST_CHUNK in *.
  destruct (Z.ltb_spec (dstrem c) need); cbv zeta.
  - unfold resize_dst, realloc, sink_safe, DST_CHUNK.
    cbn [set_sink dst_ptr dstsize dstrem dst].
    rewrite !u32_small by lia. rewrite length_resize.
    rewrite resize_ge by lia.
    split; [reflexivity |]. split; [lia |].
    split; [split; [lia | split; lia] |].
    split; [lia |]. apply take_app_length.
  - split; [reflexivity |]. split; [lia |].
    split; [split; [lia | split; lia] |].
    split; [lia |]. apply firstn_all.
Qed.

(** The body the three writers share: room for the bytes, the bytes, the
    count of the room left. *)
Lemma store_run (c : mus_ctx) (bytes : list Z) :
  0 <= dst_ptr c -> sink_safe c -> dstsize c + DST_CHUNK < 2 ^ 32 ->
  Z.of_nat (length bytes) <= DST_CHUNK ->
  exists c',
    (do c2 <- poke_all (grow_if c (Z.of_nat (length bytes))) bytes;
     Ok (set_dstrem c2 (u32 (dstrem c2 - Z.of_nat (length bytes))))) = Ok c' /\
    stores c c' (map u8 bytes).
Proof.
  intros Hp Hsafe Hlim Hn.
  pose proof (grow_if_room c (Z.of_nat (length bytes)) Hp Hsafe Hlim Hn)
    as (Hp1 & Hrem1 & (Hr1 & Hfit1 & Hcap1) & Hsmall1 & Hkeep1).
  cbv zeta in Hp1, Hrem1, Hr1, Hfit1, Hcap1, Hsmall1, Hkeep1.
  set (c1 := grow_if c (Z.of_nat (length bytes))) in *.
  destruct (poke_all_Ok bytes c1) as [c2 H2]; [lia | lia |].
  rewrite H2. cbn [bind]. eexists. split; [reflexivity |].
  apply poke_all_inv in H2 as (Hptr2 & Hsz2 & Hrem2 & _ & _ & Hdst2).
  assert (Hlen2 : length (dst c2) = length (dst c1)).
  { rewrite Hdst2, !length_app, length_take, length_map, length_drop. lia. }
  assert (Hle : (Z.to_nat (dst_ptr c) <= length (dst c))%nat)
    by (destruct Hsafe as (? & ? & ?); lia).
  unfold stores, sink_safe, set_dstrem.
  cbn [set_sink dst_ptr dst dstrem dstsize].
  rewrite length_map, Hrem2, u32_small by lia.
  split; [lia |]. split; [split; [lia | split; lia] |].
  rewrite Hdst2, Hp1. split.
  - rewrite take_app_le by (rewrite length_take; lia).
    rewrite take_take, Nat.min_id.
    transitivity (take (Z.to_nat (dst_ptr c))
                    (take (length (dst c)) (dst c1)));
      [rewrite take_take; f_equal; lia | rewrite Hkeep1; reflexivity].
  - rewrite drop_app_length' by (rewrite length_take; lia).
    rewrite take_app_length' by (rewrite length_map; reflexivity).
    reflexivity.
Qed.

Lemma write1_poke_all (c : mus_ctx) (v : Z) :
  write1 c v =
  do c2 <- poke_all (grow_if c 1) [Z.land v 0xff];
  Ok (set_dstrem c2 (u32 (dstrem c2 - 1))).
Proof.
  unfold write1. cbn [poke_all].
  destruct (poke _ _) as [? | ? |]; reflexivity.
Qed.

Lemma write2_poke_all (c : mus_ctx) (v : Z) :
  write2 c v =
  do c2 <- poke_all (grow_if c 2) [Z.land (Z.shiftr v 8) 0xff; Z.land v 0xff];
  Ok (set_dstrem c2 (u32 (dstrem c2 - 2))).
Proof.
  unfold write2. cbn [poke_all].
  repeat (destruct (poke _ _) as [? | ? |]; cbn [bind]; [| reflexivity ..]).
  reflexivity.
Qed.

Lemma u8_byte_of (v : Z) (k : Z) :
  0 <= k -> u8 (Z.land (Z.shiftr v k) 0xff) = (v / 2 ^ k) mod 256.
Proof.
  intros Hk. unfold u8. rewrite land_0xff, Z.shiftr_div_pow2 by exact Hk.
  apply Z.mod_mod. lia.
Qed.

(** X18. On a sink in order (the room counted lies inside the block, and
    the sizes are short of the [uint32_t] range by a chunk) the writers
    store the low 8, 16 and 32 bits of the value at the cursor, the most
    significant byte first, move the cursor past them, change no cell
    before it and leave the sink in order; the block grows by a chunk
    when the room is short. *)
Theorem writers_big_endian (c : mus_ctx) (v : Z) :
  0 <= dst_ptr c -> sink_safe c -> dstsize c + DST_CHUNK < 2 ^ 32 ->
  (exists c', write1 c v = Ok c' /\ stores c c' [v mod 256]) /\
  (exists c', write2 c v = Ok c' /\
              stores c c' [(v / 2 ^ 8) mod 256; v mod 256]) /\
  (exists c', write4 c v = Ok c' /\
              stores c c' [(v / 2 ^ 24) mod 256; (v / 2 ^ 16) mod 256;
                           (v / 2 ^ 8) mod 256; v mod 256] /\
              (0 <= v < 2 ^ 32 ->
               be32 (take 4 (drop (Z.to_nat (dst_ptr c)) (dst c'))) = v)).
Proof.
  intros Hp Hsafe Hlim.
  assert (H0 : forall x, u8 (Z.land x 0xff) = x mod 256).
  { intros x. unfold u8. rewrite land_0xff. apply Z.mod_mod. lia. }
  split; [| split].
  - rewrite write1_poke_all.
    destruct (store_run c [Z.land v 0xff] Hp Hsafe Hlim
                ltac:(unfold DST_CHUNK; cbn [length]; lia)) as (c' & Hrun & Hst).
    exists c'. split; [exact Hrun |].
    cbn [map] in Hst. rewrite H0 in Hst. exact Hst.
  - rewrite write2_poke_all.
    destruct (store_run c [Z.land (Z.shiftr v 8) 0xff; Z.land v 0xff]
                Hp Hsafe Hlim
                ltac:(unfold DST_CHUNK; cbn [length]; lia)) as (c' & Hrun & Hst).
    exists c'. split; [exact Hrun |].
    cbn [map] in Hst. rewrite u8_byte_of, H0 in Hst by lia. exact Hst.
  - rewrite write4_poke_all.
    destruct (store_run c
                [Z.land (Z.shiftr v 24) 0xff; Z.land (Z.shiftr v 16) 0xff;
                 Z.land (Z.shiftr v 8) 0xff; Z.land v 0xff]
                Hp Hsafe Hlim
                ltac:(unfold DST_CHUNK; cbn [length]; lia)) as (c' & Hrun & Hst).
    exists c'. split; [exact Hrun |].
    cbn [map] in Hst. rewrite !u8_byte_of, H0 in Hst by lia.
    split; [exact Hst |].
    intros Hv. destruct Hst as (_ & _ & _ & Hbytes).
    cbn [length] in Hbytes. rewrite Hbytes.
    apply (be32_be32_bytes v). exact Hv.
Qed.

Lemma writers_big_endian_witness :
  (exists c', write1 (prelude_ctx 20) 0x2f = Ok c' /\
              stores (prelude_ctx 20) c' [0x2f mod 256]) /\
  (exists c', write2 (prelude_ctx 20) 0x2f = Ok c' /\
              stores (prelude_ctx 20) c' [(0x2f / 2 ^ 8) mod 256; 0x2f mod 256]) /\
  (exists c', write4 (prelude_ctx 20) 0x2f = Ok c' /\
              stores (prelude_ctx 20) c'
                [(0x2f / 2 ^ 24) mod 256; (0x2f / 2 ^ 16) mod 256;
                 (0x2f / 2 ^ 8) mod 256; 0x2f mod 256] /\
              (0 <= 0x2f < 2 ^ 32 ->
               be32 (take 4 (drop (Z.to_nat (dst_ptr (prelude_ctx 20))) (dst c')))
               = 0x2f)).
Proof.
  apply (writers_big_endian (prelude_ctx 20) 0x2f).
  - vm_compute. discriminate.
  - apply sink_safe_prelude.
  - vm_compute. reflexivity.
Defined.

(** ** Seeking *)

(** The loop [while (ctx->dstsize < pos) resize_dst(ctx);]. *)
Lemma grow_to_run (pos : Z) (fuel : nat) :
  forall c,
    0 <= dstsize c -> pos + DST_CHUNK <= 2 ^ 32 ->
    0 <= dst_ptr c < 2 ^ 32 ->
    Z.of_nat (length (dst c)) <= dstsize c ->
    (Z.to_nat (pos - dstsize c) < fuel)%nat ->
    exists c' k,
      grow_to fuel c pos = Ok c' /\ 0 <= k /\
      dst_ptr c' = dst_ptr c /\
      dstsize c' = dstsize c + k * DST_CHUNK /\ pos <= dstsize c' /\
      (0 < k -> dstsize c' < pos + DST_CHUNK) /\
      Z.of_nat (length (dst c')) <= dstsize c' /\
      take (length (dst c)) (dst c') = dst c.
Proof.
  induction fuel as [| fuel IH]; intros c Hsz Hpos Hp Hlen Hfuel; [lia |].
  cbn [grow_to]. destruct (Z.ltb_spec (dstsize c) pos) as [Hlt | Hge].
  - assert (Hsz1 : dstsize (resize_dst c) = dstsize c + DST_CHUNK).
    { unfold resize_dst. cbn [set_sink dstsize].
      apply u32_small. unfold DST_CHUNK in *. lia. }
    assert (Hp1 : dst_ptr (resize_dst c) = dst_ptr c).
    { unfold resize_dst. cbn [set_sink dst_ptr]. apply u32_small. exact Hp. }
    assert (Hlen1 : Z.of_nat (length (dst (resize_dst c)))
                    = dstsize c + DST_CHUNK).
    { unfold resize_dst, realloc. cbn [set_sink dst].
      rewrite length_resize, u32_small by (unfold DST_CHUNK in *; lia).
      unfold DST_CHUNK. lia. }
    assert (Hkeep1 : take (length (dst c)) (dst (resize_dst c)) = dst c).
    { unfold resize_dst, realloc. cbn [set_sink dst].
      rewrite u32_small by (unfold DST_CHUNK in *; lia).
      rewrite resize_ge by (unfold DST_CHUNK; lia). apply take_app_length. }
    destruct (IH (resize_dst c)) as (c' & k & Hrun & Hk & Hp' & Hsz' & Hle'
                                     & Hmin' & Hlen' & Hkeep').
    + rewrite Hsz1. unfold DST_CHUNK. lia.
    + exact Hpos.
    + rewrite Hp1. exact Hp.
    + rewrite Hsz1, Hlen1. lia.
    + rewrite Hsz1. unfold DST_CHUNK. lia.
    + exists c', (k + 1). split; [exact Hrun |]. split; [lia |].
      split; [rewrite Hp', Hp1; reflexivity |].
      split; [rewrite Hsz', Hsz1; lia |]. split; [exact Hle' |].
      split; [| split; [exact Hlen' |]].
      * intros _. destruct (Z.eq_dec k 0) as [-> | Hne];
          [rewrite Hsz', Hsz1; lia | apply Hmin'; lia].
      * transitivity (take (length (dst c))
                        (take (length (dst (resize_dst c))) (dst c'))).
        { rewrite take_take. f_equal. unfold DST_CHUNK in *. lia. }
        rewrite Hkeep'. exact Hkeep1.
  - exists c, 0. split; [reflexivity |]. split; [lia |].
    split; [reflexivity |]. split; [lia |]. split; [lia |].
    split; [lia |]. split; [exact Hlen |]. apply firstn_all.
Qed.

(** X19. [seekdst] puts the cursor at [pos], whatever the block holds
    there.  When the block is shorter than [pos] it is grown by whole
    chunks, as few as reach [pos]; its cells are kept, and [dstrem] is
    set to the room from [pos] to [dstsize]. *)
Theorem seekdst_grows (c : mus_ctx) (pos : Z) (extra : nat) :
  0 <= pos -> pos + DST_CHUNK <= 2 ^ 32 ->
  Z.of_nat (length (dst c)) <= dstsize c < 2 ^ 32 ->
  exists c' k,
    seekdst (S (Z.to_nat pos) + extra) c pos = Ok c' /\ 0 <= k /\
    dst_ptr c' = pos /\
    dstsize c' = dstsize c + k * DST_CHUNK /\
    pos <= dstsize c' < Z.max (dstsize c + 1) (pos + DST_CHUNK) /\
    dstrem c' = dstsize c' - pos /\
    Z.of_nat (length (dst c')) <= dstsize c' /\
    take (length (dst c)) (dst c') = dst c.
Proof.
  intros Hpos Hlim Hlen. unfold seekdst.
  destruct (grow_to_run pos (S (Z.to_nat pos) + extra)
              (set_sink c (dst c) pos (dstsize c) (dstrem c)))
    as (c' & k & Hrun & Hk & Hp' & Hsz' & Hle' & Hmin' & Hlen' & Hkeep');
    cbn [set_sink dstsize dst_ptr dst] in *;
    try (unfold DST_CHUNK in *; lia).
  rewrite Hrun. cbn [bind]. eexists. exists k.
  split; [reflexivity |]. unfold set_dstrem.
  cbn [set_sink dst_ptr dstsize dstrem dst].
  split; [exact Hk |]. split; [exact Hp' |]. split; [exact Hsz' |].
  split; [unfold DST_CHUNK in *; lia |].
  split; [apply u32_small; unfold DST_CHUNK in *; lia |].
  split; [exact Hlen' | exact Hkeep'].
Qed.

Lemma seekdst_grows_witness :
  exists c' k,
    seekdst (S (Z.to_nat 20000) + 0) (prelude_ctx 20) 20000 = Ok c' /\ 0 <= k /\
    dst_ptr c' = 20000 /\
    dstsize c' = dstsize (prelude_ctx 20) + k * DST_CHUNK /\
    20000 <= dstsize c' < Z.max (dstsize (prelude_ctx 20) + 1) (20000 + DST_CHUNK) /\
    dstrem c' = dstsize c' - 20000 /\
    Z.of_nat (length (dst c')) <= dstsize c' /\
    take (length (dst (prelude_ctx 20))) (dst c') = dst (prelude_ctx 20).
Proof.
  apply (seekdst_grows (prelude_ctx 20) 20000 0).
  - lia.
  - vm_compute. discriminate.
  - split; [vm_compute; discriminate | vm_compute; reflexivity].
Defined.

(** ** The events of the [switch], case by case *)

Section Events.

Context (data : list Z) (channels end_ : Z) (uninit : Z -> Z * Z).

Ltac kind_of Hk :=
  unfold decode_event; rewrite Hk;
  cbn [MUSEVENT_CHANNELMODE MUSEVENT_KEYOFF MUSEVENT_KEYON
       MUSEVENT_PITCHWHEEL MUSEVENT_CONTROLLERCHANGE MUSEVENT_END
       Z.eqb Pos.eqb].

(** X20. A ReleaseNote event takes one payload cell, the note, copied
    as it is, and is written as a MIDI note-off on the channel of the
    map with the fixed velocity 0x40. *)
Theorem decode_key_off (event m : Z) (s : locals) (c : Z) (d : decoded) :
  Z.shiftr (Z.land event 122) 4 = MUSEVENT_KEYOFF ->
  decode_event data channels end_ uninit event m s c = Ok d ->
  exists note,
    peek data c = Ok note /\
    event_bytes d = [Z.lor (u8 m) 0x80; note; 0x40] /\
    d_cur d = c + 1 /\ d_volume d = channel_volume s.
Proof.
  intros Hk. kind_of Hk. intros H.
  bind_inv H as b Hb. inversion H; subst; clear H.
  exists b. split; [exact Hb |]. split; [reflexivity |].
  split; reflexivity.
Qed.

(** X21. A controller event whose controller index is 0 is a program
    change: it takes two payload cells and is written as the two bytes
    [0xC0 | channel] and the program, with no third byte. *)
Theorem decode_program_change (event m : Z) (s : locals) (c : Z) (d : decoded) :
  Z.shiftr (Z.land event 122) 4 = MUSEVENT_CONTROLLERCHANGE ->
  peek data c = Ok 0 ->
  decode_event data channels end_ uninit event m s c = Ok d ->
  exists program,
    peek data (c + 1) = Ok program /\
    event_bytes d = [Z.lor (u8 m) 0xC0; program] /\
    d_cur d = c + 2.
Proof.
  intros Hk H0. kind_of Hk. rewrite H0. cbn [bind Z.eqb]. intros H.
  bind_inv H as x Hx. inversion H; subst; clear H.
  exists x. split; [exact Hx |]. split; reflexivity.
Qed.

(** X22. A controller event with an index from 1 to 14 is written as a
    MIDI control change: the controller number is the entry of
    [midimap], and the value is the payload cell as it is, also when it
    is above 127; it takes two payload cells and nothing is printed. *)
Theorem decode_controller_change (event m : Z) (s : locals) (c idx value : Z) :
  Z.shiftr (Z.land event 122) 4 = MUSEVENT_CONTROLLERCHANGE ->
  peek data c = Ok idx -> 1 <= idx < midimap_size ->
  peek data (c + 1) = Ok value ->
  exists number d,
    midimap !! Z.to_nat idx = Some number /\
    decode_event data channels end_ uninit event m s c = Ok d /\
    event_bytes d = [Z.lor (u8 m) 0xB0; number; value] /\
    d_cur d = c + 2 /\ d_printed d = printed s.
Proof.
  intros Hk Hi Hidx Hv.
  assert (Hsize : midimap_size = 15) by reflexivity.
  destruct (lookup_lt_is_Some_2 midimap (Z.to_nat idx)) as [n E].
  { change (length midimap) with 15%nat. lia. }
  exists n. kind_of Hk. rewrite Hi. cbn [bind].
  destruct (Z.eqb_spec idx 0) as [| _]; [lia |].
  unfold midimap_at. rewrite E. cbn [bind]. rewrite Hv. cbn [bind].
  eexists. split; [reflexivity |]. split; [reflexivity |].
  split; [reflexivity |]. split; [reflexivity |].
  cbn [d_printed]. unfold check_controller.
  destruct (Z.ltb_spec idx midimap_size) as [| Hge]; [reflexivity | lia].
Qed.

(** X23. A ScoreEnd event takes no payload and is written as the MIDI
    End-of-track event [0xFF 0x2F 0x00], whatever its channel; it is
    reported when it is not the last cell of the score, and the switch
    goes on to the write-out all the same. *)
Theorem decode_score_end (event m : Z) (s : locals) (c : Z) :
  Z.shiftr (Z.land event 122) 4 = MUSEVENT_END ->
  exists d,
    decode_event data channels end_ uninit event m s c = Ok d /\
    event_bytes d = [0xff; 0x2f; 0x00] /\
    d_cur d = c /\ d_volume d = channel_volume s /\
    d_printed d = (if c =? end_ then printed s
                   else printed s ++ [EndNotAligned c]).
Proof.
  intros Hk. kind_of Hk. eexists. split; [reflexivity |].
  split; [reflexivity |]. split; [reflexivity |]. split; reflexivity.
Qed.

(** X24. The uninitialised [bit1] and [bit2] reach the output for the
    event types 5 and 7 only: for every other event the bytes written,
    the cells taken, the volumes and the fault, if any, are the same
    whatever these locals hold. *)
Theorem known_events_initialised (uninit' : Z -> Z * Z) (event m : Z)
  (s : locals) (c : Z) :
  0 <= event < 256 ->
  (event / 16) mod 8 <> 5 -> (event / 16) mod 8 <> 7 ->
  match decode_event data channels end_ uninit event m s c,
        decode_event data channels end_ uninit' event m s c with
  | Ok d, Ok d' =>
      event_bytes d = event_bytes d' /\ d_cur d = d_cur d' /\
      d_volume d = d_volume d' /\ d_printed d = d_printed d'
  | Undef f, Undef f' => f = f'
  | OutOfFuel, OutOfFuel => True
  | _, _ => False
  end.
Proof.
  intros He H5 H7.
  pose proof (event_kind_bits event He) as Hk.
  assert (Hr : 0 <= (event / 16) mod 8 < 8) by (apply Z.mod_pos_bound; lia).
  unfold decode_event. rewrite Hk.
  generalize (fst (uninit (c - 1))) (snd (uninit (c - 1)))
             (fst (uninit' (c - 1))) (snd (uninit' (c - 1))).
  intros u1 u2 u1' u2'.
  unfold MUSEVENT_CHANNELMODE, MUSEVENT_KEYOFF, MUSEVENT_KEYON,
    MUSEVENT_PITCHWHEEL, MUSEVENT_CONTROLLERCHANGE, MUSEVENT_END.
  repeat match goal with
    | |- context [?k =? ?n] => destruct (Z.eqb_spec k n)
    end;
    try lia;
    repeat first
      [ progress cbn [bind]
      | match goal with
        | |- context [peek ?a ?b] => destruct (peek a b)
        | |- context [midimap_at ?b] => destruct (midimap_at b)
        | |- context [local_set ?a ?i ?v] => destruct (local_set a i v)
        | |- context [local_at ?a ?i] => destruct (local_at a i)
        | |- context [if ?b then _ else _] => destruct b
        end ];
    try exact I; try reflexivity;
    repeat split; reflexivity.
Qed.

End Events.

Lemma decode_key_off_witness :
  exists note,
    peek [0x3C] 0 = Ok note /\
    event_bytes (Decoded 0x83 0x3C 0x40 2 1 initial_channel_volume [])
      = [Z.lor (u8 3) 0x80; note; 0x40] /\
    d_cur (Decoded 0x83 0x3C 0x40 2 1 initial_channel_volume []) = 0 + 1 /\
    d_volume (Decoded 0x83 0x3C 0x40 2 1 initial_channel_volume [])
      = channel_volume (initial_locals scenario_header (fresh_ctx 20)).
Proof.
  apply (decode_key_off [0x3C] 1 1 (fun _ => (0, 0)) 0x00 3
           (initial_locals scenario_header (fresh_ctx 20)) 0);
    reflexivity.
Defined.

Lemma decode_program_change_witness :
  exists program,
    peek [0; 0x05] (0 + 1) = Ok program /\
    event_bytes (Decoded 0xC3 0x05 0 1 2 initial_channel_volume [])
      = [Z.lor (u8 3) 0xC0; program] /\
    d_cur (Decoded 0xC3 0x05 0 1 2 initial_channel_volume []) = 0 + 2.
Proof.
  apply (decode_program_change [0; 0x05] 1 2 (fun _ => (0, 0)) 0x40 3
           (initial_locals scenario_header (fresh_ctx 20)) 0);
    reflexivity.
Defined.

Lemma decode_controller_change_witness :
  exists number d,
    midimap !! Z.to_nat 3 = Some number /\
    decode_event [3; 200] 1 2 (fun _ => (0, 0)) 0x40 3
      (initial_locals scenario_header (fresh_ctx 20)) 0 = Ok d /\
    event_bytes d = [Z.lor (u8 3) 0xB0; number; 200] /\
    d_cur d = 0 + 2 /\
    d_printed d = printed (initial_locals scenario_header (fresh_ctx 20)).
Proof.
  apply (decode_controller_change [3; 200] 1 2 (fun _ => (0, 0)) 0x40 3
           (initial_locals scenario_header (fresh_ctx 20)) 0 3 200);
    [reflexivity | reflexivity | vm_compute; split; [discriminate | reflexivity]
    | reflexivity].
Defined.

Lemma decode_score_end_witness :
  exists d,
    decode_event [0x60] 1 1 (fun _ => (0, 0)) 0x60 0
      (initial_locals scenario_header (fresh_ctx 20)) 1 = Ok d /\
    event_bytes d = [0xff; 0x2f; 0x00] /\
    d_cur d = 1 /\
    d_volume d = channel_volume (initial_locals scenario_header (fresh_ctx 20)) /\
    d_printed d
      = (if 1 =? 1 then printed (initial_locals scenario_header (fresh_ctx 20))
         else printed (initial_locals scenario_header (fresh_ctx 20))
                ++ [EndNotAligned 1]).
Proof.
  apply (decode_score_end [0x60] 1 1 (fun _ => (0, 0)) 0x60 0
           (initial_locals scenario_header (fresh_ctx 20)) 1).
  reflexivity.
Defined.

Lemma known_events_initialised_witness :
  match decode_event [0x3C] 1 1 (fun _ => (0, 0)) 0x00 3
          (initial_locals scenario_header (fresh_ctx 20)) 0,
        decode_event [0x3C] 1 1 (fun _ => (7, 9)) 0x00 3
          (initial_locals scenario_header (fresh_ctx 20)) 0 with
  | Ok d, Ok d' =>
      event_bytes d = event_bytes d' /\ d_cur d = d_cur d' /\
      d_volume d = d_volume d' /\ d_printed d = d_printed d'
  | Undef f, Undef f' => f = f'
  | OutOfFuel, OutOfFuel => True
  | _, _ => False
  end.
Proof.
  apply (known_events_initialised [0x3C] 1 1 (fun _ => (0, 0)) (fun _ => (7, 9))
           0x00 3 (initial_locals scenario_header (fresh_ctx 20)) 0).
  - lia.
  - vm_compute. discriminate.
  - vm_compute. discriminate.
Defined.

(** ** What [mus2midi] reads of the buffer *)

Section Agree.

Context (k : nat) (data data' : list Z) (Hagree : agree_from k data data').
Context (channels end_ : Z) (uninit : Z -> Z * Z).

Lemma peek_agree (c : Z) :
  Z.of_nat k <= c -> peek data' c = peek data c.
Proof.
  intros Hc. destruct Hagree as [_ Hdrop]. unfold peek.
  replace (Z.to_nat c) with (k + (Z.to_nat c - k))%nat by lia.
  rewrite <- !lookup_drop, Hdrop. reflexivity.
Qed.

Lemma drop_agree (c : Z) :
  Z.of_nat k <= c -> drop (Z.to_nat c) data' = drop (Z.to_nat c) data.
Proof.
  intros Hc. destruct Hagree as [_ Hdrop].
  replace (Z.to_nat c) with (k + (Z.to_nat c - k))%nat by lia.
  rewrite <- !drop_drop, Hdrop. reflexivity.
Qed.

Lemma decode_event_agree (event m : Z) (s : locals) (c : Z) :
  Z.of_nat k <= c ->
  decode_event data' channels end_ uninit event m s c
  = decode_event data channels end_ uninit event m s c.
Proof.
  intros Hc. unfold decode_event.
  rewrite (peek_agree c), (peek_agree (c + 1)) by lia. reflexivity.
Qed.

Lemma next_delta_agree (event c : Z) :
  Z.of_nat k <= c -> next_delta data' event c = next_delta data event c.
Proof.
  intros Hc. unfold next_delta. rewrite drop_agree by lia. reflexivity.
Qed.

Lemma loop_body_agree (s : locals) :
  Z.of_nat k <= cur s ->
  loop_body data' channels end_ uninit s
  = loop_body data channels end_ uninit s.
Proof.
  intros Hc. unfold loop_body. rewrite peek_agree by lia.
  destruct (peek data (cur s)) as [event | |]; [| reflexivity ..].
  cbn [bind]. destruct (WriteVarLen (delta_time s)) as [vl | |];
    [| reflexivity ..].
  cbn [bind]. destruct (allocate _ _ _) as [[[temp cm] cc] | |];
    [| reflexivity ..].
  cbn [bind]. destruct (local_at cm _) as [m | |]; [| reflexivity ..].
  cbn [bind]. rewrite decode_event_agree by lia.
  destruct (decode_event data channels end_ uninit event m s (cur s + 1))
    as [d | |] eqn:Hd; [| reflexivity ..].
  cbn [bind]. destruct (flush _ _) as [cx | |]; [| reflexivity ..].
  cbn [bind]. apply decode_event_cur in Hd as [Hd _].
  rewrite next_delta_agree by lia. reflexivity.
Qed.

Lemma main_loop_agree (fuel : nat) :
  forall s,
    Z.of_nat k <= cur s ->
    main_loop data' channels end_ uninit fuel s
    = main_loop data channels end_ uninit fuel s.
Proof.
  induction fuel as [| fuel IH]; intros s Hc; [reflexivity |].
  rewrite !main_loop_S, loop_body_agree by exact Hc.
  destruct (cur s <? end_); [| reflexivity].
  destruct (loop_body data channels end_ uninit s) as [s1 | |] eqn:Hs1;
    [| reflexivity ..].
  cbn [bind]. apply IH. apply loop_body_cur in Hs1. lia.
Qed.

End Agree.

(** X25. Of the buffer [mus2midi] looks at three fields of the header,
    [scoreLen], [scoreStart] and [channels], and at cells from
    [scoreStart] on.  The tag [ID] is never compared with the MUS tag,
    and it, the other header fields and whatever lies before the score
    have no effect on the result. *)
Theorem mus2midi_reads_score_only (fuel : nat) (uninit : Z -> Z * Z)
  (k : nat) (data data' : list Z) (header header' : MUSheader) :
  read_header data = Ok header -> read_header data' = Ok header' ->
  scoreLen header' = scoreLen header ->
  scoreStart header' = scoreStart header ->
  channels header' = channels header ->
  agree_from k data data' -> Z.of_nat k <= scoreStart header ->
  mus2midi fuel uninit data' = mus2midi fuel uninit data.
Proof.
  intros Hh Hh' Hlen Hstart Hch Hagree Hk.
  unfold mus2midi. rewrite Hh, Hh'. cbn [bind]. rewrite Hch.
  destruct (channels header >? MIDI_MAXCHANNELS - 1); [reflexivity |].
  rewrite !translate_unfold.
  destruct Hagree as [Hsize Hdrop]. rewrite <- Hsize.
  destruct (write_prelude fuel _) as [pre | |]; [| reflexivity ..].
  cbn [bind]. rewrite Hch, Hstart, Hlen.
  assert (Hinit : initial_locals header' (fst (fst pre))
                  = initial_locals header (fst (fst pre)))
    by (unfold initial_locals; rewrite Hstart; reflexivity).
  rewrite Hinit.
  rewrite (main_loop_agree k data data' (conj Hsize Hdrop))
    by (cbn [initial_locals cur]; exact Hk).
  reflexivity.
Qed.

Lemma mus2midi_reads_score_only_witness :
  mus2midi 3 (fun _ => (0, 0)) scenario_retagged
  = mus2midi 3 (fun _ => (0, 0)) scenario.
Proof.
  apply (mus2midi_reads_score_only 3 (fun _ => (0, 0)) 16
           scenario scenario_retagged
           scenario_header
           (MkMUSheader [chr "R"; chr "I"; chr "F"; chr "F"] 4 16 1
              513 1027 1541));
    try reflexivity.
  split; reflexivity.
Defined.

(** ** What an iteration writes *)

(** X26. What a completed iteration of [mus2midi] appends to the file,
    from the event byte at [cur] and the entry of its MUS channel in the
    channel map: the bytes [WriteVarLen] stores for the delta time; then,
    exactly when that entry is unassigned, the control change that sets
    the volume of MIDI channel [currentChannel] to 127 and a zero delta
    time; then the bytes the [switch] gives for the event on the MIDI
    channel of the entry, which is [currentChannel] when it was
    unassigned. *)
Theorem iteration_output (data : list Z) (uninit : Z -> Z * Z)
  (header : MUSheader) (s s' : locals) :
  read_header data = Ok header ->
  let end_ := scoreStart header + scoreLen header in
  reachable data (channels header) end_ uninit (first_locals data header) s ->
  cur s < end_ ->
  loop_body data (channels header) end_ uninit s = Ok s' ->
  exists event m delta d,
    peek data (cur s) = Ok event /\
    channelMap s !! Z.to_nat (Z.land event 15) = Some m /\
    WriteVarLen (delta_time s) = Ok (delta, Z.of_nat (length delta)) /\
    decode_event data (channels header) end_ uninit event
      (if m <? 0 then currentChannel s else m) s (cur s + 1) = Ok d /\
    take (Z.to_nat (dst_ptr (ctx s'))) (dst (ctx s'))
      = take (Z.to_nat (dst_ptr (ctx s))) (dst (ctx s))
          ++ map u8 (delta
                     ++ (if m <? 0
                         then [0xB0 + currentChannel s; 0x07; 127; 0x00]
                         else [])
                     ++ event_bytes d).
Proof.
  intros Hh end_ Hr Hlt Hstep.
  pose proof (read_header_inv _ _ Hh) as (Hlen & Hstart & _).
  assert (Hok0 : sink_ok (STEP * Z.max 0 (end_ - cur (first_locals data header)))
                   (ctx (first_locals data header))).
  { unfold first_locals, end_. cbn [initial_locals cur ctx].
    replace (scoreStart header + scoreLen header - scoreStart header)
      with (scoreLen header) by lia.
    rewrite Z.max_r by lia.
    apply sink_ok_prelude; unfold LIMIT, STEP, DST_CHUNK; lia. }
  destruct (reachable_safe data (channels header) end_ uninit _ s Hok0
              (sink_safe_prelude _ _) (locals_ok_initial _ _) Hr)
    as (Hok & Hsafe & Hloc).
  assert (Hroom : STEP <= STEP * Z.max 0 (end_ - cur s))
    by (unfold STEP, DST_CHUNK; lia).
  apply loop_body_inv in Hstep
    as (ev & vl & temp & cm & cc & m & d & dt
        & Hev & Hvl & Hal & Hm & Hd & Hfl & _ & _).
  pose proof (decode_event_cur _ _ _ _ _ _ _ _ _ Hd) as [_ Hd3].
  pose proof (WriteVarLen_count _ _ Hvl) as [Hc Hvl9].
  destruct vl as [bytes count]. cbn [fst snd] in *. subst count.
  rewrite Nat2Z.id, firstn_all in Hal.
  apply allocate_inv in Hal as (m0 & Hm0 & Hcase).
  pose proof (local_at_inv _ _ _ Hm0) as [Hch Hlk].
  assert (Hshape :
            temp = bytes ++ (if m0 <? 0
                             then [u8 (0xB0 + currentChannel s); 0x07; 127; 0x00]
                             else [])
            /\ m = (if m0 <? 0 then currentChannel s else m0)).
  { destruct Hcase as [(Hneg & -> & -> & _) | (Hpos & -> & -> & _)].
    - destruct (Z.ltb_spec m0 0); [| lia]. split; [reflexivity |].
      apply local_at_inv in Hm as [_ Hm].
      rewrite list_lookup_insert_eq in Hm
        by (apply lookup_lt_Some in Hlk; exact Hlk).
      inversion Hm. reflexivity.
    - destruct (Z.ltb_spec m0 0); [lia |].
      split; [rewrite app_nil_r; reflexivity |].
      rewrite Hm0 in Hm. inversion Hm. reflexivity. }
  destruct Hshape as [-> ->].
  set (first := if m0 <? 0
                then [u8 (0xB0 + currentChannel s); 0x07; 127; 0x00]
                else []) in *.
  assert (Hfl4 : (length first <= 4)%nat)
    by (unfold first; destruct (m0 <? 0); cbn [length]; lia).
  assert (Hlen16 : (length ((bytes ++ first) ++ event_bytes d) <= 16)%nat)
    by (rewrite !length_app; lia).
  destruct (flush_safe _ (ctx s) ((bytes ++ first) ++ event_bytes d)
              Hok Hroom Hsafe Hlen16) as (c' & Hfl' & _ & Hptr & Hkeep & Hnew).
  rewrite Hfl in Hfl'. inversion Hfl'; subst c'; clear Hfl'.
  exists ev, m0, bytes, d.
  split; [exact Hev |]. split; [exact Hlk |]. split; [exact Hvl |].
  split; [exact Hd |].
  destruct Hok as (Hp & _). rewrite Hptr.
  replace (Z.to_nat (dst_ptr (ctx s)
             + Z.of_nat (length ((bytes ++ first) ++ event_bytes d))))
    with (Z.to_nat (dst_ptr (ctx s))
          + length ((bytes ++ first) ++ event_bytes d))%nat by lia.
  rewrite <- take_take_drop, Hkeep, Hnew, <- app_assoc.
  f_equal. rewrite !map_app. f_equal. f_equal.
  unfold first. destruct (m0 <? 0); [| reflexivity].
  cbn [map]. f_equal. unfold u8. apply Z.mod_mod. lia.
Qed.

Lemma iteration_output_witness :
  exists event m delta d,
    peek scenario (cur scenario_first) = Ok event /\
    channelMap scenario_first !! Z.to_nat (Z.land event 15) = Some m /\
    WriteVarLen (delta_time scenario_first)
      = Ok (delta, Z.of_nat (length delta)) /\
    decode_event scenario 1 20 (fun _ => (0, 0)) event
      (if m <? 0 then currentChannel scenario_first else m)
      scenario_first (cur scenario_first + 1) = Ok d /\
    take (Z.to_nat (dst_ptr (ctx scenario_second))) (dst (ctx scenario_second))
      = take (Z.to_nat (dst_ptr (ctx scenario_first)))
          (dst (ctx scenario_first))
          ++ map u8 (delta
                     ++ (if m <? 0
                         then [0xB0 + currentChannel scenario_first;
                               0x07; 127; 0x00]
                         else [])
                     ++ event_bytes d).
Proof.
  apply (iteration_output scenario (fun _ => (0, 0)) scenario_header
           scenario_first scenario_second).
  - reflexivity.
  - apply reach_start.
  - vm_compute. reflexivity.
  - vm_compute. reflexivity.
Defined.
